(** * Excalibur action system: [Action.ts]

    A shallow embedding of [src/engine/Actions/Action.ts]: the action classes
    that drive an actor's position, rotation, scale and opacity from tick to
    tick, and the [ActionQueue] that runs them in order.

    Numbers.  A JavaScript [number] is modelled as an exact rational ([Q]):
    the arithmetic of the source is kept operation by operation, without the
    rounding of IEEE doubles and without [NaN] or infinities.  Equality of two
    computed numbers is therefore [Qeq] ([==]), and is to be read of the
    doubles of the source up to their rounding; a value that the source
    assigns (a snap to an end value, a zeroed velocity) is equal on the
    nose.  A sum of deltas that doubles round can fall short of a threshold
    that the exact sum reaches.  The theorems on the time an action takes
    therefore say whether it is complete of the values the action holds,
    or of deltas that doubles add without rounding ([test_suite_ticks],
    [whole_milliseconds]).  Fields that the source leaves [undefined] until
    the first [update] carry an [_assigned] flag: a comparison against
    [undefined] is false in JavaScript.

    Objects.  An action is a record of its private fields; a method that
    writes to the actor takes the actor and returns it.  The queue holds
    references into a store of action objects.

    Outside [src/].  [Vector] ([Algebra.ts]), the constants of [Util.ts],
    [RotationType] and the integration step of [Actor.update] are not
    among the sources; they are modelled where they are declared below.
    [Repeat] and [RepeatForever] come after the queue they own, and so
    does [Die], which clears the queue of its actor and calls
    [Actor.kill]; [Behaviour] is an object of any of the sixteen
    classes. *)

From Stdlib Require Import String.
From Stdlib Require Import QArith Qabs ZArith List Lia Lqa Bool Permutation
  Morphisms.
Import ListNotations.
Local Open Scope Q_scope.

(** ** JavaScript numbers and arrays *)

Module JS.

(** Comparison operators on numbers, as booleans. *)
Definition lt (x y : Q) : bool := negb (Qle_bool y x).
Definition le (x y : Q) : bool := Qle_bool x y.
Definition gt (x y : Q) : bool := negb (Qle_bool x y).
Definition ge (x y : Q) : bool := Qle_bool y x.
(** [x !== 0] *)
Definition nonzero (x : Q) : bool := negb (Qeq_bool x 0).

Definition Math_abs (x : Q) : Q := Qabs x.

(** [Math.pow(x, 2)] *)
Definition Math_pow2 (x : Q) : Q := x * x.

(** [Math.sqrt], computed on the reduced fraction [n/d] as
    [floor (sqrt (n * d * 4^52)) / (d * 2^52)]: the square root cut after 52
    binary digits, and the exact root whenever [n/d] is the square of a
    rational.  The argument is never negative in the source (a sum of two
    squares); a negative argument, [NaN] in JavaScript, gives [0] here. *)
Definition sqrt_bits : positive := 52.
Definition Math_sqrt (q : Q) : Q :=
  let r := Qred q in
  Z.sqrt (Qnum r * Zpos (Qden r) * Z.pow 4 (Zpos sqrt_bits))
    # (Qden r * Pos.pow 2 sqrt_bits).

(** [Math.PI]: the double nearest to pi, an exact dyadic rational. *)
Definition Math_PI : Q := 884279719003555 # 281474976710656.

(** [x % m]: the remainder of the division truncated toward zero, with the
    sign of the dividend. *)
Definition trunc (q : Q) : Z := Z.quot (Qnum q) (Zpos (Qden q)).
Definition rem (x m : Q) : Q := x - m * inject_Z (trunc (x / m)).

(** [Array.prototype.indexOf]: the first index holding [x], or [-1]. *)
Fixpoint indexOf_from {A} (eqb : A -> A -> bool) (l : list A) (x : A)
         (i : Z) : Z :=
  match l with
  | [] => (-1)%Z
  | y :: l' => if eqb y x then i else indexOf_from eqb l' x (i + 1)%Z
  end.
Definition indexOf {A} (eqb : A -> A -> bool) (l : list A) (x : A) : Z :=
  indexOf_from eqb l x 0%Z.

(** [Array.prototype.splice(start, deleteCount)] with no inserted items: a
    negative [start] counts from the end of the array, and the count is
    clamped to what is left.  The result is the array after the call. *)
Definition splice {A} (l : list A) (start deleteCount : Z) : list A :=
  let len := Z.of_nat (length l) in
  let actualStart :=
    if (start <? 0)%Z then Z.max (len + start) 0 else Z.min start len in
  let actualDeleteCount :=
    Z.min (Z.max deleteCount 0) (len - actualStart) in
  firstn (Z.to_nat actualStart) l
    ++ skipn (Z.to_nat (actualStart + actualDeleteCount)) l.

End JS.

(** Modelled from the spec: [Util.ts] is not under [src/]; [Util.TwoPI] is
    the "full turn" [2 PI] that the two candidate distances of a rotation
    sum to. *)
Definition TwoPI : Q := JS.Math_PI * 2.

(** ** Vectors *)

(** [Algebra.ts] is not under [src/]: [Vector] is the 2D vector of the
    engine, a pair of numbers with the operations that [Action.ts] calls. *)
Module Vector.

Record t : Set := vec { x : Q; y : Q }.

Definition Zero : t := vec 0 0.
Definition add (v w : t) : t := vec (x v + x w) (y v + y w).
Definition sub (v w : t) : t := vec (x v - x w) (y v - y w).
Definition scale (v : t) (size : Q) : t := vec (x v * size) (y v * size).
Definition clone (v : t) : t := vec (x v) (y v).

(** Modelled from the spec: [Vector.distance] is not under [src/]; it is
    the "straight-line distance" between two points. *)
Definition distance (v w : t) : Q :=
  JS.Math_sqrt (JS.Math_pow2 (x v - x w) + JS.Math_pow2 (y v - y w)).

(** [Vector.size]: the length of a vector. *)
Definition size (v : t) : Q := distance v Zero.

(** Modelled from the spec: [Vector.normalize] is not under [src/]; it gives
    the "unit direction" of a vector, the vector divided by its length.
    For the zero vector, whose normalized direction the spec calls
    undefined, the division by zero of [Q] gives the zero vector. *)
Definition normalize (v : t) : t :=
  let d := size v in vec (x v / d) (y v / d).

(** Equality of the two coordinates as numbers. *)
Definition eqv (v w : t) : Prop := x v == x w /\ y v == y w.

End Vector.

Abbreviation Vector := Vector.t.
Abbreviation vec := Vector.vec.

(** ** The actor *)

(** The fields of [Actor] that the actions read and write. *)
Record Actor : Type := mkActor {
  pos : Vector;
  vel : Vector;
  rotation : Q;
  rx : Q;
  scale : Vector;
  sx : Q;
  sy : Q;
  opacity : Q;
  visible : bool
}.

Definition set_pos (a : Actor) (p : Vector) : Actor :=
  mkActor p (vel a) (rotation a) (rx a) (scale a) (sx a) (sy a) (opacity a)
    (visible a).
Definition set_vel (a : Actor) (v : Vector) : Actor :=
  mkActor (pos a) v (rotation a) (rx a) (scale a) (sx a) (sy a) (opacity a)
    (visible a).
Definition set_rotation (a : Actor) (r : Q) : Actor :=
  mkActor (pos a) (vel a) r (rx a) (scale a) (sx a) (sy a) (opacity a)
    (visible a).
Definition set_rx (a : Actor) (r : Q) : Actor :=
  mkActor (pos a) (vel a) (rotation a) r (scale a) (sx a) (sy a) (opacity a)
    (visible a).
Definition set_scale (a : Actor) (s : Vector) : Actor :=
  mkActor (pos a) (vel a) (rotation a) (rx a) s (sx a) (sy a) (opacity a)
    (visible a).
Definition set_sx (a : Actor) (s : Q) : Actor :=
  mkActor (pos a) (vel a) (rotation a) (rx a) (scale a) s (sy a) (opacity a)
    (visible a).
Definition set_sy (a : Actor) (s : Q) : Actor :=
  mkActor (pos a) (vel a) (rotation a) (rx a) (scale a) (sx a) s (opacity a)
    (visible a).
Definition set_opacity (a : Actor) (o : Q) : Actor :=
  mkActor (pos a) (vel a) (rotation a) (rx a) (scale a) (sx a) (sy a) o
    (visible a).
Definition set_visible (a : Actor) (v : bool) : Actor :=
  mkActor (pos a) (vel a) (rotation a) (rx a) (scale a) (sx a) (sy a)
    (opacity a) v.

(** [new ex.Actor()] as the test-suite starts from it. *)
Definition Actor_new : Actor :=
  mkActor (vec 0 0) (vec 0 0) 0 0 (vec 1 1) 0 0 1 true.

(** Modelled from the spec: [Actor.update] is not under [src/].  After the
    queue has been ticked, "the target's own integrator advances position":
    one Euler step of [delta] milliseconds moves the position by the
    velocity, the rotation by the angular velocity and the scale by the
    scale velocity. *)
Definition integrate (a : Actor) (delta : Q) : Actor :=
  let seconds := delta / 1000 in
  mkActor
    (Vector.add (pos a) (Vector.scale (vel a) seconds))
    (vel a)
    (rotation a + rx a * seconds)
    (rx a)
    (vec (Vector.x (scale a) + sx a * delta / 1000)
         (Vector.y (scale a) + sy a * delta / 1000))
    (sx a) (sy a) (opacity a) (visible a).

(** The actors an action can look at besides its own: [Follow] and [Meet]
    hold a reference to a second actor and read its live position and
    velocity. *)
Definition ActorRef : Set := nat.
Definition Scene : Type := ActorRef -> Actor.

(** What a constructor gives: the object, or the [Error] it throws. *)
Inductive Result (A : Type) : Type :=
| Ok (obj : A)
| Throw (message : string).
Arguments Ok {A} obj.
Arguments Throw {A} message.

(** ** The action classes

    Each class is a module: the record of its private fields, its
    constructor [new] and its four methods.  A method that writes to the
    actor takes the actor and returns it with the object. *)

Module EaseTo.

Record t : Type := mk {
  _currentLerpTime : Q;
  _lerpDuration : Q;
  _lerpStart : Vector;
  _lerpEnd : Vector;
  _initialized : bool;
  _stopped : bool;
  _distance : Q;
  easingFcn : Q -> Q -> Q -> Q -> Q
}.

Definition new (x y duration : Q) (easingFcn : Q -> Q -> Q -> Q -> Q) : t :=
  mk 0 duration (vec 0 0) (vec x y) false false 0 easingFcn.

Definition _initialize (e : t) (a : Actor) : t :=
  let lerpStart := vec (Vector.x (pos a)) (Vector.y (pos a)) in
  mk 0 (_lerpDuration e) lerpStart (_lerpEnd e) (_initialized e)
     (_stopped e) (Vector.distance lerpStart (_lerpEnd e)) (easingFcn e).

Definition update (e : t) (a : Actor) (delta : Q) : t * Actor :=
  let e1 :=
    if _initialized e then e
    else
      let i := _initialize e a in
      mk (_currentLerpTime i) (_lerpDuration i) (_lerpStart i) (_lerpEnd i)
         true (_stopped i) (_distance i) (easingFcn i) in
  let e2 :=
    mk (_currentLerpTime e1 + delta) (_lerpDuration e1) (_lerpStart e1)
       (_lerpEnd e1) (_initialized e1) (_stopped e1) (_distance e1)
       (easingFcn e1) in
  let time := _currentLerpTime e2 in
  let duration := _lerpDuration e2 in
  let s := _lerpStart e2 in
  let d := _lerpEnd e2 in
  if JS.lt time duration then
    let newX :=
      if JS.lt (Vector.x d) (Vector.x s)
      then Vector.x s
           - (easingFcn e2 time (Vector.x d) (Vector.x s) duration
              - Vector.x d)
      else easingFcn e2 time (Vector.x s) (Vector.x d) duration in
    let newY :=
      if JS.lt (Vector.y d) (Vector.y s)
      then Vector.y s
           - (easingFcn e2 time (Vector.y d) (Vector.y s) duration
              - Vector.y d)
      else easingFcn e2 time (Vector.y s) (Vector.y d) duration in
    (e2, set_vel a (vec ((newX - Vector.x (pos a)) / (delta / 1000))
                        ((newY - Vector.y (pos a)) / (delta / 1000))))
  else
    (e2, set_vel (set_pos a (vec (Vector.x d) (Vector.y d))) Vector.Zero).

Definition isComplete (e : t) (actor : Actor) : bool :=
  _stopped e
  || JS.ge (Vector.distance
              (vec (Vector.x (pos actor)) (Vector.y (pos actor)))
              (_lerpStart e))
           (_distance e).

Definition reset (e : t) : t :=
  mk (_currentLerpTime e) (_lerpDuration e) (_lerpStart e) (_lerpEnd e)
     false (_stopped e) (_distance e) (easingFcn e).

Definition stop (e : t) (a : Actor) : t * Actor :=
  (mk (_currentLerpTime e) (_lerpDuration e) (_lerpStart e) (_lerpEnd e)
      (_initialized e) true (_distance e) (easingFcn e),
   set_vel a (vec 0 0)).

End EaseTo.

Module MoveTo.

(** [_start], [_distance] and [_dir] are [undefined] until the first
    [update]; [_assigned] says that they have been written. *)
Record t : Type := mk {
  _start : Vector;
  _end : Vector;
  _dir : Vector;
  _speed : Q;
  _distance : Q;
  _started : bool;
  _stopped : bool;
  _assigned : bool
}.

(** The constructor stores the destination and the speed as they come. *)
Definition new (destx desty speed : Q) : t :=
  mk (vec 0 0) (vec destx desty) (vec 0 0) speed 0 false false false.

Definition isComplete (m : t) (actor : Actor) : bool :=
  _stopped m
  || (_assigned m
      && JS.ge (Vector.distance
                  (vec (Vector.x (pos actor)) (Vector.y (pos actor)))
                  (_start m))
               (_distance m)).

Definition update (m : t) (a : Actor) (_delta : Q) : t * Actor :=
  let m1 :=
    if _started m then m
    else
      let start := vec (Vector.x (pos a)) (Vector.y (pos a)) in
      mk start (_end m)
         (Vector.normalize (Vector.sub (_end m) start))
         (_speed m)
         (Vector.distance start (_end m))
         true (_stopped m) true in
  let v := Vector.scale (_dir m1) (_speed m1) in
  let a1 := set_vel a (vec (Vector.x v) (Vector.y v)) in
  if isComplete m1 a1 then
    (m1, set_vel (set_pos a1 (vec (Vector.x (_end m1)) (Vector.y (_end m1))))
                 (vec 0 0))
  else (m1, a1).

Definition stop (m : t) (a : Actor) : t * Actor :=
  (mk (_start m) (_end m) (_dir m) (_speed m) (_distance m) (_started m)
      true (_assigned m),
   set_vel a (vec 0 0)).

Definition reset (m : t) : t :=
  mk (_start m) (_end m) (_dir m) (_speed m) (_distance m) false
     (_stopped m) (_assigned m).

End MoveTo.

Module MoveBy.

(** [_start], [_end], [_distance] and [_dir] are [undefined] until the
    first [update]; [_assigned] says that they have been written. *)
Record t : Type := mk {
  _distance : Q;
  _speed : Q;
  _start : Vector;
  _offset : Vector;
  _end : Vector;
  _dir : Vector;
  _started : bool;
  _stopped : bool;
  _assigned : bool
}.

Definition new (offsetX offsetY speed : Q) : Result t :=
  if JS.le speed 0 then
    Throw "Speed must be greater than 0 pixels per second"
  else
    Ok (mk 0 speed (vec 0 0) (vec offsetX offsetY) (vec 0 0) (vec 0 0)
           false false false).

Definition isComplete (m : t) (actor : Actor) : bool :=
  _stopped m
  || (_assigned m
      && JS.ge (Vector.distance (pos actor) (_start m)) (_distance m)).

Definition update (m : t) (a : Actor) (_delta : Q) : t * Actor :=
  let m1 :=
    if _started m then m
    else
      let start := vec (Vector.x (pos a)) (Vector.y (pos a)) in
      let end_ := Vector.add start (_offset m) in
      mk (Vector.size (_offset m)) (_speed m) start (_offset m) end_
         (Vector.normalize (Vector.sub end_ start))
         true (_stopped m) true in
  let a1 := set_vel a (Vector.scale (_dir m1) (_speed m1)) in
  if isComplete m1 a1 then
    (m1, set_vel (set_pos a1 (vec (Vector.x (_end m1)) (Vector.y (_end m1))))
                 (vec 0 0))
  else (m1, a1).

Definition stop (m : t) (a : Actor) : t * Actor :=
  (mk (_distance m) (_speed m) (_start m) (_offset m) (_end m) (_dir m)
      (_started m) true (_assigned m),
   set_vel a (vec 0 0)).

Definition reset (m : t) : t :=
  mk (_distance m) (_speed m) (_start m) (_offset m) (_end m) (_dir m)
     false (_stopped m) (_assigned m).

End MoveBy.

Module Follow.

(** [_dir] and [_distanceBetween] are [undefined] until the first
    [update], and no method reads them before [update] has written them. *)
Record t : Type := mk {
  _actorToFollow : ActorRef;
  _current : Vector;
  _end : Vector;
  _dir : Vector;
  _speed : Q;
  _maximumDistance : Q;
  _distanceBetween : Q;
  _started : bool;
  _stopped : bool
}.

Definition new (sc : Scene) (actor : Actor) (actorToFollow : ActorRef)
           (followDistance : option Q) : t :=
  let current := vec (Vector.x (pos actor)) (Vector.y (pos actor)) in
  let other := sc actorToFollow in
  let end_ := vec (Vector.x (pos other)) (Vector.y (pos other)) in
  mk actorToFollow current end_ (vec 0 0) 0
     (match followDistance with
      | Some d => d
      | None => Vector.distance current end_
      end)
     0 false false.

Definition isComplete (f : t) : bool := _stopped f.

Definition update (f : t) (sc : Scene) (a : Actor) (_delta : Q)
  : t * Actor :=
  let f1 :=
    if _started f then f
    else
      mk (_actorToFollow f) (_current f) (_end f)
         (Vector.normalize (Vector.sub (_end f) (_current f)))
         (_speed f) (_maximumDistance f)
         (Vector.distance (_current f) (_end f))
         true (_stopped f) in
  let other := sc (_actorToFollow f1) in
  let actorToFollowSpeed :=
    JS.Math_sqrt (JS.Math_pow2 (Vector.x (vel other))
                  + JS.Math_pow2 (Vector.y (vel other))) in
  let speed :=
    if JS.nonzero actorToFollowSpeed then actorToFollowSpeed
    else _speed f1 in
  let current := vec (Vector.x (pos a)) (Vector.y (pos a)) in
  let end_ := vec (Vector.x (pos other)) (Vector.y (pos other)) in
  let distanceBetween := Vector.distance current end_ in
  let dir := Vector.normalize (Vector.sub end_ current) in
  let f2 :=
    mk (_actorToFollow f1) current end_ dir speed (_maximumDistance f1)
       distanceBetween (_started f1) (_stopped f1) in
  let a1 :=
    if JS.ge distanceBetween (_maximumDistance f2) then
      let m := Vector.scale dir speed in
      set_vel a (vec (Vector.x m) (Vector.y m))
    else set_vel a (vec 0 0) in
  if isComplete f2 then
    (f2, set_vel (set_pos a1 (vec (Vector.x end_) (Vector.y end_)))
                 (vec 0 0))
  else (f2, a1).

Definition stop (f : t) (a : Actor) : t * Actor :=
  (mk (_actorToFollow f) (_current f) (_end f) (_dir f) (_speed f)
      (_maximumDistance f) (_distanceBetween f) (_started f) true,
   set_vel a (vec 0 0)).

Definition reset (f : t) : t :=
  mk (_actorToFollow f) (_current f) (_end f) (_dir f) (_speed f)
     (_maximumDistance f) (_distanceBetween f) false (_stopped f).

End Follow.

Module Meet.

(** [_dir] and [_distanceBetween] are [undefined] until the first
    [update]; [_assigned] says that they have been written. *)
Record t : Type := mk {
  _actorToMeet : ActorRef;
  _current : Vector;
  _end : Vector;
  _dir : Vector;
  _speed : Q;
  _distanceBetween : Q;
  _started : bool;
  _stopped : bool;
  _speedWasSpecified : bool;
  _assigned : bool
}.

Definition new (sc : Scene) (actor : Actor) (actorToMeet : ActorRef)
           (speed : option Q) : t :=
  let other := sc actorToMeet in
  mk actorToMeet
     (vec (Vector.x (pos actor)) (Vector.y (pos actor)))
     (vec (Vector.x (pos other)) (Vector.y (pos other)))
     (vec 0 0)
     (match speed with
      | Some s => if JS.nonzero s then s else 0
      | None => 0
      end)
     0 false false
     (match speed with Some _ => true | None => false end)
     false.

Definition isComplete (m : t) : bool :=
  _stopped m || (_assigned m && JS.le (_distanceBetween m) 1).

Definition update (m : t) (sc : Scene) (a : Actor) (_delta : Q)
  : t * Actor :=
  let m1 :=
    if _started m then m
    else
      mk (_actorToMeet m) (_current m) (_end m)
         (Vector.normalize (Vector.sub (_end m) (_current m)))
         (_speed m)
         (Vector.distance (_current m) (_end m))
         true (_stopped m) (_speedWasSpecified m) true in
  let other := sc (_actorToMeet m1) in
  let actorToMeetSpeed :=
    JS.Math_sqrt (JS.Math_pow2 (Vector.x (vel other))
                  + JS.Math_pow2 (Vector.y (vel other))) in
  let speed :=
    if JS.nonzero actorToMeetSpeed && negb (_speedWasSpecified m1)
    then actorToMeetSpeed
    else _speed m1 in
  let current := vec (Vector.x (pos a)) (Vector.y (pos a)) in
  let end_ := vec (Vector.x (pos other)) (Vector.y (pos other)) in
  let distanceBetween := Vector.distance current end_ in
  let dir := Vector.normalize (Vector.sub end_ current) in
  let m2 :=
    mk (_actorToMeet m1) current end_ dir speed distanceBetween
       (_started m1) (_stopped m1) (_speedWasSpecified m1) (_assigned m1) in
  let v := Vector.scale dir speed in
  let a1 := set_vel a (vec (Vector.x v) (Vector.y v)) in
  if isComplete m2 then
    (m2, set_vel (set_pos a1 (vec (Vector.x end_) (Vector.y end_)))
                 (vec 0 0))
  else (m2, a1).

Definition stop (m : t) (a : Actor) : t * Actor :=
  (mk (_actorToMeet m) (_current m) (_end m) (_dir m) (_speed m)
      (_distanceBetween m) (_started m) true (_speedWasSpecified m)
      (_assigned m),
   set_vel a (vec 0 0)).

Definition reset (m : t) : t :=
  mk (_actorToMeet m) (_current m) (_end m) (_dir m) (_speed m)
     (_distanceBetween m) false (_stopped m) (_speedWasSpecified m)
     (_assigned m).

End Meet.

(** Modelled from the spec: [RotationType.ts] is not under [src/]; the
    "4-way mode" of a rotation, with the four names of the [switch]
    statements of [RotateTo] and [RotateBy]. *)
Inductive RotationType : Set :=
| ShortestPath
| LongestPath
| Clockwise
| CounterClockwise.

Module RotateTo.

(** Only [_end], [_speed] and [_rotationType] are set by the constructor;
    [_assigned] says that the first [update] has written the others. *)
Record t : Type := mk {
  _start : Q;
  _end : Q;
  _speed : Q;
  _rotationType : RotationType;
  _direction : Q;
  _distance : Q;
  _shortDistance : Q;
  _longDistance : Q;
  _shortestPathIsPositive : bool;
  _currentNonCannonAngle : Q;
  _started : bool;
  _stopped : bool;
  _assigned : bool
}.

Definition new (angleRadians speed : Q) (rotationType : option RotationType)
  : t :=
  mk 0 angleRadians speed
     (match rotationType with Some ty => ty | None => ShortestPath end)
     0 0 0 0 false 0 false false false.

Definition isComplete (r : t) : bool :=
  let distanceTravelled :=
    JS.Math_abs (_currentNonCannonAngle r - _start r) in
  _stopped r
  || (_assigned r && JS.ge distanceTravelled (JS.Math_abs (_distance r))).

(** The block run by the first [update]. *)
Definition start (r : t) (a : Actor) : t :=
  let start := rotation a in
  let distance1 := JS.Math_abs (_end r - start) in
  let distance2 := TwoPI - distance1 in
  let shortDistance :=
    if JS.gt distance1 distance2 then distance2 else distance1 in
  let longDistance :=
    if JS.gt distance1 distance2 then distance1 else distance2 in
  let shortestPathIsPositive :=
    JS.ge (JS.rem (start - _end r + TwoPI) TwoPI) JS.Math_PI in
  let direction :=
    match _rotationType r with
    | ShortestPath => if shortestPathIsPositive then 1 else -1
    | LongestPath => if shortestPathIsPositive then -1 else 1
    | Clockwise => 1
    | CounterClockwise => -1
    end in
  let distance :=
    match _rotationType r with
    | ShortestPath => shortDistance
    | LongestPath => longDistance
    | Clockwise =>
        if shortestPathIsPositive then shortDistance else longDistance
    | CounterClockwise =>
        if negb shortestPathIsPositive then shortDistance else longDistance
    end in
  mk start (_end r) (_speed r) (_rotationType r) direction distance
     shortDistance longDistance shortestPathIsPositive start
     true (_stopped r) true.

Definition update (r : t) (a : Actor) (_delta : Q) : t * Actor :=
  let r1 := if _started r then r else start r a in
  let a1 := set_rx a (_direction r1 * _speed r1) in
  let r2 :=
    mk (_start r1) (_end r1) (_speed r1) (_rotationType r1) (_direction r1)
       (_distance r1) (_shortDistance r1) (_longDistance r1)
       (_shortestPathIsPositive r1)
       (_currentNonCannonAngle r1
        + (_direction r1 * _speed r1) * (_delta / 1000))
       (_started r1) (_stopped r1) (_assigned r1) in
  if isComplete r2 then
    (mk (_start r2) (_end r2) (_speed r2) (_rotationType r2) (_direction r2)
        (_distance r2) (_shortDistance r2) (_longDistance r2)
        (_shortestPathIsPositive r2) (_currentNonCannonAngle r2)
        (_started r2) true (_assigned r2),
     set_rx (set_rotation a1 (_end r2)) 0)
  else (r2, a1).

Definition stop (r : t) (a : Actor) : t * Actor :=
  (mk (_start r) (_end r) (_speed r) (_rotationType r) (_direction r)
      (_distance r) (_shortDistance r) (_longDistance r)
      (_shortestPathIsPositive r) (_currentNonCannonAngle r)
      (_started r) true (_assigned r),
   set_rx a 0).

Definition reset (r : t) : t :=
  mk (_start r) (_end r) (_speed r) (_rotationType r) (_direction r)
     (_distance r) (_shortDistance r) (_longDistance r)
     (_shortestPathIsPositive r) (_currentNonCannonAngle r)
     false (_stopped r) (_assigned r).

End RotateTo.

Module RotateBy.

(** Only [_speed], [_offset] and [_rotationType] are set by the
    constructor; [_assigned] says that the first [update] has written the
    others, [_end] among them. *)
Record t : Type := mk {
  _start : Q;
  _end : Q;
  _speed : Q;
  _offset : Q;
  _rotationType : RotationType;
  _direction : Q;
  _distance : Q;
  _shortDistance : Q;
  _longDistance : Q;
  _shortestPathIsPositive : bool;
  _currentNonCannonAngle : Q;
  _started : bool;
  _stopped : bool;
  _assigned : bool
}.

Definition new (angleRadiansOffset speed : Q)
           (rotationType : option RotationType) : t :=
  mk 0 0 speed angleRadiansOffset
     (match rotationType with Some ty => ty | None => ShortestPath end)
     0 0 0 0 false 0 false false false.

Definition isComplete (r : t) : bool :=
  let distanceTravelled :=
    JS.Math_abs (_currentNonCannonAngle r - _start r) in
  _stopped r
  || (_assigned r && JS.ge distanceTravelled (JS.Math_abs (_distance r))).

(** The block run by the first [update]. *)
Definition start (r : t) (a : Actor) : t :=
  let start := rotation a in
  let end_ := start + _offset r in
  let distance1 := JS.Math_abs (end_ - start) in
  let distance2 := TwoPI - distance1 in
  let shortDistance :=
    if JS.gt distance1 distance2 then distance2 else distance1 in
  let longDistance :=
    if JS.gt distance1 distance2 then distance1 else distance2 in
  let shortestPathIsPositive :=
    JS.ge (JS.rem (start - end_ + TwoPI) TwoPI) JS.Math_PI in
  let direction :=
    match _rotationType r with
    | ShortestPath => if shortestPathIsPositive then 1 else -1
    | LongestPath => if shortestPathIsPositive then -1 else 1
    | Clockwise => 1
    | CounterClockwise => -1
    end in
  let distance :=
    match _rotationType r with
    | ShortestPath => shortDistance
    | LongestPath => longDistance
    | Clockwise =>
        if JS.ge shortDistance 0 then shortDistance else longDistance
    | CounterClockwise =>
        if JS.le shortDistance 0 then shortDistance else longDistance
    end in
  mk start end_ (_speed r) (_offset r) (_rotationType r) direction distance
     shortDistance longDistance shortestPathIsPositive start
     true (_stopped r) true.

Definition update (r : t) (a : Actor) (_delta : Q) : t * Actor :=
  let r1 := if _started r then r else start r a in
  let a1 := set_rx a (_direction r1 * _speed r1) in
  let r2 :=
    mk (_start r1) (_end r1) (_speed r1) (_offset r1) (_rotationType r1)
       (_direction r1) (_distance r1) (_shortDistance r1) (_longDistance r1)
       (_shortestPathIsPositive r1)
       (_currentNonCannonAngle r1
        + (_direction r1 * _speed r1) * (_delta / 1000))
       (_started r1) (_stopped r1) (_assigned r1) in
  if isComplete r2 then
    (mk (_start r2) (_end r2) (_speed r2) (_offset r2) (_rotationType r2)
        (_direction r2) (_distance r2) (_shortDistance r2)
        (_longDistance r2) (_shortestPathIsPositive r2)
        (_currentNonCannonAngle r2) (_started r2) true (_assigned r2),
     set_rx (set_rotation a1 (_end r2)) 0)
  else (r2, a1).

Definition stop (r : t) (a : Actor) : t * Actor :=
  (mk (_start r) (_end r) (_speed r) (_offset r) (_rotationType r)
      (_direction r) (_distance r) (_shortDistance r) (_longDistance r)
      (_shortestPathIsPositive r) (_currentNonCannonAngle r)
      (_started r) true (_assigned r),
   set_rx a 0).

Definition reset (r : t) : t :=
  mk (_start r) (_end r) (_speed r) (_offset r) (_rotationType r)
     (_direction r) (_distance r) (_shortDistance r) (_longDistance r)
     (_shortestPathIsPositive r) (_currentNonCannonAngle r)
     false (_stopped r) (_assigned r).

End RotateBy.

Module ScaleTo.

(** [_startX], [_startY], [_distanceX] and [_distanceY] are [undefined]
    until the first [update]; [_assigned] says that they have been
    written. *)
Record t : Type := mk {
  _startX : Q;
  _startY : Q;
  _endX : Q;
  _endY : Q;
  _speedX : Q;
  _speedY : Q;
  _distanceX : Q;
  _distanceY : Q;
  _started : bool;
  _stopped : bool;
  _assigned : bool
}.

Definition new (scaleX scaleY speedX speedY : Q) : t :=
  mk 0 0 scaleX scaleY speedX speedY 0 0 false false false.

(** Both tests read [scale.y], as the source has it. *)
Definition isComplete (s : t) (actor : Actor) : bool :=
  _stopped s
  || (_assigned s
      && (JS.ge (JS.Math_abs (Vector.y (scale actor) - _startX s))
                (_distanceX s)
          && JS.ge (JS.Math_abs (Vector.y (scale actor) - _startY s))
                   (_distanceY s))).

Definition update (s : t) (a : Actor) (_delta : Q) : t * Actor :=
  let s1 :=
    if _started s then s
    else
      let startX := Vector.x (scale a) in
      let startY := Vector.y (scale a) in
      mk startX startY (_endX s) (_endY s) (_speedX s) (_speedY s)
         (JS.Math_abs (_endX s - startX))
         (JS.Math_abs (_endY s - startY))
         true (_stopped s) true in
  let a1 :=
    if negb (JS.ge (JS.Math_abs (Vector.x (scale a) - _startX s1))
                   (_distanceX s1))
    then
      let directionX := if JS.lt (_endY s1) (_startY s1) then -1 else 1 in
      set_sx a (_speedX s1 * directionX)
    else set_sx a 0 in
  let a2 :=
    if negb (JS.ge (JS.Math_abs (Vector.y (scale a1) - _startY s1))
                   (_distanceY s1))
    then
      let directionY := if JS.lt (_endY s1) (_startY s1) then -1 else 1 in
      set_sy a1 (_speedY s1 * directionY)
    else set_sy a1 0 in
  if isComplete s1 a2 then
    (s1, set_sy (set_sx (set_scale a2 (vec (_endX s1) (_endY s1))) 0) 0)
  else (s1, a2).

Definition stop (s : t) (a : Actor) : t * Actor :=
  (mk (_startX s) (_startY s) (_endX s) (_endY s) (_speedX s) (_speedY s)
      (_distanceX s) (_distanceY s) (_started s) true (_assigned s),
   set_sy (set_sx a 0) 0).

Definition reset (s : t) : t :=
  mk (_startX s) (_startY s) (_endX s) (_endY s) (_speedX s) (_speedY s)
     (_distanceX s) (_distanceY s) false (_stopped s) (_assigned s).

End ScaleTo.

Module ScaleBy.

(** Only [_offset] and the two speeds are set by the constructor;
    [_assigned] says that the first [update] has written the others. *)
Record t : Type := mk {
  _startScale : Vector;
  _endScale : Vector;
  _offset : Vector;
  _distanceX : Q;
  _distanceY : Q;
  _directionX : Q;
  _directionY : Q;
  _started : bool;
  _stopped : bool;
  _speedX : Q;
  _speedY : Q;
  _assigned : bool
}.

Definition new (scaleOffsetX scaleOffsetY speed : Q) : t :=
  mk (vec 0 0) (vec 0 0) (vec scaleOffsetX scaleOffsetY) 0 0 0 0
     false false speed speed false.

(** On an object that has not been updated yet and is not stopped, the
    source reads [_startScale.x] of [undefined]; the queue asks for
    [isComplete] after [update] only. *)
Definition isComplete (s : t) (actor : Actor) : bool :=
  _stopped s
  || (_assigned s
      && (JS.ge (JS.Math_abs (Vector.x (scale actor)
                              - Vector.x (_startScale s)))
                (_distanceX s)
          && JS.ge (JS.Math_abs (Vector.y (scale actor)
                                 - Vector.y (_startScale s)))
                   (_distanceY s))).

Definition update (s : t) (a : Actor) (_delta : Q) : t * Actor :=
  let s1 :=
    if _started s then s
    else
      let startScale := Vector.clone (scale a) in
      let endScale := Vector.add startScale (_offset s) in
      mk startScale endScale (_offset s)
         (JS.Math_abs (Vector.x endScale - Vector.x startScale))
         (JS.Math_abs (Vector.y endScale - Vector.y startScale))
         (if JS.lt (Vector.x endScale) (Vector.x startScale) then -1 else 1)
         (if JS.lt (Vector.y endScale) (Vector.y startScale) then -1 else 1)
         true (_stopped s) (_speedX s) (_speedY s) true in
  let a1 := set_sx a (_speedX s1 * _directionX s1) in
  let a2 := set_sy a1 (_speedY s1 * _directionY s1) in
  if isComplete s1 a2 then
    (s1, set_sy (set_sx (set_scale a2 (_endScale s1)) 0) 0)
  else (s1, a2).

Definition stop (s : t) (a : Actor) : t * Actor :=
  (mk (_startScale s) (_endScale s) (_offset s) (_distanceX s)
      (_distanceY s) (_directionX s) (_directionY s) (_started s) true
      (_speedX s) (_speedY s) (_assigned s),
   set_sy (set_sx a 0) 0).

Definition reset (s : t) : t :=
  mk (_startScale s) (_endScale s) (_offset s) (_distanceX s)
     (_distanceY s) (_directionX s) (_directionY s) false (_stopped s)
     (_speedX s) (_speedY s) (_assigned s).

End ScaleBy.

Module Delay.

(** [x] and [y] are only ever written. *)
Record t : Type := mk {
  x : Q;
  y : Q;
  _elapsedTime : Q;
  _delay : Q;
  _started : bool;
  _stopped : bool
}.

Definition new (delay : Q) : t := mk 0 0 0 delay false false.

Definition update (d : t) (a : Actor) (delta : Q) : t * Actor :=
  (mk (Vector.x (pos a)) (Vector.y (pos a)) (_elapsedTime d + delta)
      (_delay d) true (_stopped d),
   a).

Definition isComplete (d : t) : bool :=
  _stopped d || JS.ge (_elapsedTime d) (_delay d).

Definition stop (d : t) (a : Actor) : t * Actor :=
  (mk (x d) (y d) (_elapsedTime d) (_delay d) (_started d) true, a).

Definition reset (d : t) : t :=
  mk (x d) (y d) 0 (_delay d) false (_stopped d).

End Delay.

Module Blink.

Record t : Type := mk {
  _timeVisible : Q;
  _timeNotVisible : Q;
  _elapsedTime : Q;
  _totalTime : Q;
  _duration : Q;
  _stopped : bool;
  _started : bool
}.

(** [numBlinks] defaults to [1]. *)
Definition new (timeVisible timeNotVisible : Q) (numBlinks : option Q) : t :=
  let n := match numBlinks with Some n => n | None => 1 end in
  mk timeVisible timeNotVisible 0 0 ((timeVisible + timeNotVisible) * n)
     false false.

Definition isComplete (b : t) : bool :=
  _stopped b || JS.ge (_totalTime b) (_duration b).

Definition update (b : t) (a : Actor) (delta : Q) : t * Actor :=
  let elapsed0 := _elapsedTime b + delta in
  let total := _totalTime b + delta in
  let hide := visible a && JS.ge elapsed0 (_timeVisible b) in
  let a1 := if hide then set_visible a false else a in
  let elapsed1 := if hide then 0 else elapsed0 in
  let show := negb (visible a1) && JS.ge elapsed1 (_timeNotVisible b) in
  let a2 := if show then set_visible a1 true else a1 in
  let elapsed2 := if show then 0 else elapsed1 in
  let b' :=
    mk (_timeVisible b) (_timeNotVisible b) elapsed2 total (_duration b)
       (_stopped b) true in
  if isComplete b' then (b', set_visible a2 true) else (b', a2).

Definition stop (b : t) (a : Actor) : t * Actor :=
  (mk (_timeVisible b) (_timeNotVisible b) (_elapsedTime b) (_totalTime b)
      (_duration b) true (_started b),
   set_visible a true).

Definition reset (b : t) : t :=
  mk (_timeVisible b) (_timeNotVisible b) 0 0 (_duration b) (_stopped b)
     false.

End Blink.

Module Fade.

Record t : Type := mk {
  _endOpacity : Q;
  _speed : Q;
  _multiplier : Q;
  _started : bool;
  _stopped : bool
}.

Definition new (endOpacity speed : Q) : t :=
  mk endOpacity speed 1 false false.

Definition isComplete (f : t) (actor : Actor) : bool :=
  _stopped f
  || JS.lt (JS.Math_abs (opacity actor - _endOpacity f)) (5 # 100).

Definition update (f : t) (a : Actor) (delta : Q) : t * Actor :=
  let f1 :=
    if _started f then f
    else
      mk (_endOpacity f) (_speed f)
         (if JS.lt (_endOpacity f) (opacity a) then -1 else 1)
         true (_stopped f) in
  let a1 :=
    if JS.gt (_speed f1) 0 then
      set_opacity a
        (opacity a
         + (_multiplier f1
            * (JS.Math_abs (opacity a - _endOpacity f1) * delta))
           / _speed f1)
    else a in
  let f2 :=
    mk (_endOpacity f1) (_speed f1 - delta) (_multiplier f1) (_started f1)
       (_stopped f1) in
  if isComplete f2 a1 then (f2, set_opacity a1 (_endOpacity f2))
  else (f2, a1).

Definition stop (f : t) (a : Actor) : t * Actor :=
  (mk (_endOpacity f) (_speed f) (_multiplier f) (_started f) true, a).

Definition reset (f : t) : t :=
  mk (_endOpacity f) (_speed f) (_multiplier f) false (_stopped f).

End Fade.

Module CallMethod.

(** [_method] is a callback run with the actor as [this]: what it does to
    the actor is a function of the actor. *)
Record t : Type := mk {
  _method : Actor -> Actor;
  _hasBeenCalled : bool
}.

Definition new (method : Actor -> Actor) : t := mk method false.

Definition update (c : t) (a : Actor) (_delta : Q) : t * Actor :=
  (mk (_method c) true, _method c a).

Definition isComplete (c : t) : bool := _hasBeenCalled c.

Definition reset (c : t) : t := mk (_method c) false.

Definition stop (c : t) (a : Actor) : t * Actor :=
  (mk (_method c) true, a).

End CallMethod.

(** ** The [Action] interface *)

(** [interface Action]: the four methods every action class implements.
    [update] and [stop] may write to the actor; [update] may read the other
    actors of the scene. *)
Class Action (A : Type) : Type := {
  update : A -> Scene -> Actor -> Q -> A * Actor;
  isComplete : A -> Actor -> bool;
  reset : A -> A;
  stop : A -> Actor -> A * Actor
}.

#[export] Instance EaseTo_Action : Action EaseTo.t := {|
  update e _ a delta := EaseTo.update e a delta;
  isComplete := EaseTo.isComplete;
  reset := EaseTo.reset;
  stop := EaseTo.stop
|}.

#[export] Instance MoveTo_Action : Action MoveTo.t := {|
  update m _ a delta := MoveTo.update m a delta;
  isComplete := MoveTo.isComplete;
  reset := MoveTo.reset;
  stop := MoveTo.stop
|}.

#[export] Instance MoveBy_Action : Action MoveBy.t := {|
  update m _ a delta := MoveBy.update m a delta;
  isComplete := MoveBy.isComplete;
  reset := MoveBy.reset;
  stop := MoveBy.stop
|}.

#[export] Instance Follow_Action : Action Follow.t := {|
  update := Follow.update;
  isComplete f _ := Follow.isComplete f;
  reset := Follow.reset;
  stop := Follow.stop
|}.

#[export] Instance Meet_Action : Action Meet.t := {|
  update := Meet.update;
  isComplete m _ := Meet.isComplete m;
  reset := Meet.reset;
  stop := Meet.stop
|}.

#[export] Instance RotateTo_Action : Action RotateTo.t := {|
  update r _ a delta := RotateTo.update r a delta;
  isComplete r _ := RotateTo.isComplete r;
  reset := RotateTo.reset;
  stop := RotateTo.stop
|}.

#[export] Instance RotateBy_Action : Action RotateBy.t := {|
  update r _ a delta := RotateBy.update r a delta;
  isComplete r _ := RotateBy.isComplete r;
  reset := RotateBy.reset;
  stop := RotateBy.stop
|}.

#[export] Instance ScaleTo_Action : Action ScaleTo.t := {|
  update s _ a delta := ScaleTo.update s a delta;
  isComplete := ScaleTo.isComplete;
  reset := ScaleTo.reset;
  stop := ScaleTo.stop
|}.

#[export] Instance ScaleBy_Action : Action ScaleBy.t := {|
  update s _ a delta := ScaleBy.update s a delta;
  isComplete := ScaleBy.isComplete;
  reset := ScaleBy.reset;
  stop := ScaleBy.stop
|}.

#[export] Instance Delay_Action : Action Delay.t := {|
  update d _ a delta := Delay.update d a delta;
  isComplete d _ := Delay.isComplete d;
  reset := Delay.reset;
  stop := Delay.stop
|}.

#[export] Instance Blink_Action : Action Blink.t := {|
  update b _ a delta := Blink.update b a delta;
  isComplete b _ := Blink.isComplete b;
  reset := Blink.reset;
  stop := Blink.stop
|}.

#[export] Instance Fade_Action : Action Fade.t := {|
  update f _ a delta := Fade.update f a delta;
  isComplete := Fade.isComplete;
  reset := Fade.reset;
  stop := Fade.stop
|}.

#[export] Instance CallMethod_Action : Action CallMethod.t := {|
  update c _ a delta := CallMethod.update c a delta;
  isComplete c _ := CallMethod.isComplete c;
  reset := CallMethod.reset;
  stop := CallMethod.stop
|}.

(** An object of any of the classes above.  [Die], [Repeat] and
    [RepeatForever], whose [update] works on a queue (the queue of the
    actor, or one of their own) rather than on the fields of the actor,
    are not objects of this type: [Behaviour], below, has them. *)
Inductive AnyAction : Type :=
| AEaseTo (e : EaseTo.t)
| AMoveTo (m : MoveTo.t)
| AMoveBy (m : MoveBy.t)
| AFollow (f : Follow.t)
| AMeet (m : Meet.t)
| ARotateTo (r : RotateTo.t)
| ARotateBy (r : RotateBy.t)
| AScaleTo (s : ScaleTo.t)
| AScaleBy (s : ScaleBy.t)
| ADelay (d : Delay.t)
| ABlink (b : Blink.t)
| AFade (f : Fade.t)
| ACallMethod (c : CallMethod.t).

Definition lift {A : Type} (inj : A -> AnyAction) (r : A * Actor)
  : AnyAction * Actor :=
  (inj (fst r), snd r).

#[export] Instance AnyAction_Action : Action AnyAction := {|
  update b sc a delta :=
    match b with
    | AEaseTo e => lift AEaseTo (update e sc a delta)
    | AMoveTo m => lift AMoveTo (update m sc a delta)
    | AMoveBy m => lift AMoveBy (update m sc a delta)
    | AFollow f => lift AFollow (update f sc a delta)
    | AMeet m => lift AMeet (update m sc a delta)
    | ARotateTo r => lift ARotateTo (update r sc a delta)
    | ARotateBy r => lift ARotateBy (update r sc a delta)
    | AScaleTo s => lift AScaleTo (update s sc a delta)
    | AScaleBy s => lift AScaleBy (update s sc a delta)
    | ADelay d => lift ADelay (update d sc a delta)
    | ABlink b => lift ABlink (update b sc a delta)
    | AFade f => lift AFade (update f sc a delta)
    | ACallMethod c => lift ACallMethod (update c sc a delta)
    end;
  isComplete b a :=
    match b with
    | AEaseTo e => isComplete e a
    | AMoveTo m => isComplete m a
    | AMoveBy m => isComplete m a
    | AFollow f => isComplete f a
    | AMeet m => isComplete m a
    | ARotateTo r => isComplete r a
    | ARotateBy r => isComplete r a
    | AScaleTo s => isComplete s a
    | AScaleBy s => isComplete s a
    | ADelay d => isComplete d a
    | ABlink b => isComplete b a
    | AFade f => isComplete f a
    | ACallMethod c => isComplete c a
    end;
  reset b :=
    match b with
    | AEaseTo e => AEaseTo (reset e)
    | AMoveTo m => AMoveTo (reset m)
    | AMoveBy m => AMoveBy (reset m)
    | AFollow f => AFollow (reset f)
    | AMeet m => AMeet (reset m)
    | ARotateTo r => ARotateTo (reset r)
    | ARotateBy r => ARotateBy (reset r)
    | AScaleTo s => AScaleTo (reset s)
    | AScaleBy s => AScaleBy (reset s)
    | ADelay d => ADelay (reset d)
    | ABlink b => ABlink (reset b)
    | AFade f => AFade (reset f)
    | ACallMethod c => ACallMethod (reset c)
    end;
  stop b a :=
    match b with
    | AEaseTo e => lift AEaseTo (stop e a)
    | AMoveTo m => lift AMoveTo (stop m a)
    | AMoveBy m => lift AMoveBy (stop m a)
    | AFollow f => lift AFollow (stop f a)
    | AMeet m => lift AMeet (stop m a)
    | ARotateTo r => lift ARotateTo (stop r a)
    | ARotateBy r => lift ARotateBy (stop r a)
    | AScaleTo s => lift AScaleTo (stop s a)
    | AScaleBy s => lift AScaleBy (stop s a)
    | ADelay d => lift ADelay (stop d a)
    | ABlink b => lift ABlink (stop b a)
    | AFade f => lift AFade (stop f a)
    | ACallMethod c => lift ACallMethod (stop c a)
    end
|}.

(** ** The action queue *)

(** The queue holds references to action objects: the same object can sit in
    the queue twice, and a method call on it is seen through every
    reference.  [Heap] is the store of the objects, [Ref] a reference. *)
Definition Ref : Set := nat.

Module ActionQueue.
Section Queue.

Context {A : Type} `{Action A}.

Definition Heap : Type := Ref -> A.

(** The heap after a method call has changed the object behind [r]. *)
Definition write (h : Heap) (r : Ref) (obj : A) : Heap :=
  fun r' => if Nat.eqb r' r then obj else h r'.

Record t : Type := mk {
  _actions : list Ref;
  _currentAction : option Ref;
  _completedActions : list Ref
}.

Definition new : t := mk [] None [].

Definition add (q : t) (action : Ref) : t :=
  mk (_actions q ++ [action]) (_currentAction q) (_completedActions q).

Definition remove (q : t) (action : Ref) : t :=
  let index := JS.indexOf Nat.eqb (_actions q) action in
  mk (JS.splice (_actions q) index 1) (_currentAction q)
     (_completedActions q).

Definition clearActions (q : t) (h : Heap) (a : Actor)
  : t * Heap * Actor :=
  let q' := mk [] (_currentAction q) [] in
  match _currentAction q with
  | Some r => let (obj, a') := stop (h r) a in (q', write h r obj, a')
  | None => (q', h, a)
  end.

Definition getActions (q : t) : list Ref :=
  _actions q ++ _completedActions q.

Definition hasNext (q : t) : bool :=
  Nat.ltb 0 (List.length (_actions q)).

(** The loop of [reset]: one [reset()] call per entry, in order. *)
Definition reset_each (l : list Ref) (h : Heap) : Heap :=
  fold_left (fun h' r => write h' r (reset (h' r))) l h.

Definition reset (q : t) (h : Heap) : t * Heap :=
  let actions := getActions q in
  (mk actions (_currentAction q) [], reset_each actions h).

Definition update (q : t) (h : Heap) (sc : Scene) (a : Actor) (delta : Q)
  : t * Heap * Actor :=
  match _actions q with
  | [] => (q, h, a)
  | r :: rest =>
      let (obj, a') := update (h r) sc a delta in
      let h' := write h r obj in
      if isComplete (h' r) a' then
        (mk rest (Some r) (_completedActions q ++ [r]), h', a')
      else
        (mk (_actions q) (Some r) (_completedActions q), h', a')
  end.

End Queue.
End ActionQueue.

(** ** Running an action on an actor *)

(** One call of [Actor.update(engine, delta)] for an actor driven by a single
    action: the action is updated, then the actor integrates its
    velocities. *)
Definition tick {A : Type} `{Action A} (sc : Scene) (delta : Q)
           (s : A * Actor) : A * Actor :=
  let (obj, a) := update (fst s) sc (snd s) delta in
  (obj, integrate a delta).

(** A run of ticks, the first delta of the list first. *)
Definition ticks {A : Type} `{Action A} (sc : Scene) (deltas : list Q)
           (s : A * Actor) : A * Actor :=
  fold_left (fun s' delta => tick sc delta s') deltas s.

(** The same with [move] for what the engine does to the actor between two
    updates of the action. *)
Definition tick_with {A : Type} `{Action A} (move : Actor -> Q -> Actor)
           (sc : Scene) (delta : Q) (s : A * Actor) : A * Actor :=
  let (obj, a) := update (fst s) sc (snd s) delta in
  (obj, move a delta).

Definition ticks_with {A : Type} `{Action A} (move : Actor -> Q -> Actor)
           (sc : Scene) (deltas : list Q) (s : A * Actor) : A * Actor :=
  fold_left (fun s' delta => tick_with move sc delta s') deltas s.

(** An actor that has no velocity is not moved. *)
Definition keeps_still (move : Actor -> Q -> Actor) : Prop :=
  forall (a : Actor) (delta : Q),
    Vector.eqv (vel a) Vector.Zero ->
    Vector.eqv (pos (move a delta)) (pos a).

(** A scene with nobody else to look at: every other actor is a fresh one. *)
Definition empty_scene : Scene := fun _ => Actor_new.

(** A linear easing function, for the examples of [EaseTo]: the value goes
    from [startValue] to [endValue] at a constant rate. *)
Definition Linear (currentTime startValue endValue duration : Q) : Q :=
  ((endValue - startValue) * currentTime) / duration + startValue.

(** ** Running a queue *)

(** An actor with its queue and the action objects the queue refers to. *)
Record World (A : Type) : Type := mkWorld {
  w_queue : ActionQueue.t;
  w_heap : Ref -> A;
  w_actor : Actor
}.
Arguments mkWorld {A} w_queue w_heap w_actor.
Arguments w_queue {A} w.
Arguments w_heap {A} w.
Arguments w_actor {A} w.

(** What is done to a queue from outside: an action is added, or the actor
    is updated for one frame (the queue is ticked, then the actor integrates
    its velocities). *)
Inductive Op : Type :=
| Add (action : Ref)
| Tick (sc : Scene) (delta : Q).

Definition step {A : Type} `{Action A} (w : World A) (op : Op) : World A :=
  match op with
  | Add action =>
      mkWorld (ActionQueue.add (w_queue w) action) (w_heap w) (w_actor w)
  | Tick sc delta =>
      let '(q, h, a) :=
        ActionQueue.update (w_queue w) (w_heap w) sc (w_actor w) delta in
      mkWorld q h (integrate a delta)
  end.

Definition run {A : Type} `{Action A} (ops : list Op) (w : World A)
  : World A :=
  fold_left step ops w.

(** The actions added by a list of operations, in the order of the calls. *)
Fixpoint added (ops : list Op) : list Ref :=
  match ops with
  | [] => []
  | Add action :: ops' => action :: added ops'
  | Tick _ _ :: ops' => added ops'
  end.

(** ** Rotations *)

(** The time a run of ticks takes, in milliseconds. *)
Definition total (deltas : list Q) : Q := fold_right Qplus 0 deltas.

(** Time does not run backwards. *)
Definition nonnegative (deltas : list Q) : Prop :=
  Forall (fun delta => 0 <= delta) deltas.

(** The rotation of the test-suite: a fresh actor (rotation [0]) is sent to
    [Math.PI / 2] at [Math.PI / 2] radians per second. *)
Definition quarter_turn (ty : RotationType) : RotateTo.t * Actor :=
  (RotateTo.new (JS.Math_PI / 2) (JS.Math_PI / 2) (Some ty), Actor_new).

(** The modes that take the quarter turn the long way round. *)
Definition long_way (ty : RotationType) : bool :=
  match ty with
  | ShortestPath | Clockwise => false
  | LongestPath | CounterClockwise => true
  end.

(** The invariant of a started [RotateTo]: [r0] is the action as [start]
    left it, [elapsed] the time ticked since.  The path chosen by [start]
    is kept; until the action stops, the shadow angle has moved from
    [_start] by the speed times the time elapsed, in the chosen direction;
    once it has stopped, the distance has been covered and the actor sits
    on the end angle with no angular velocity. *)
Definition rotating (r0 r : RotateTo.t) (a : Actor) (elapsed : Q) : Prop :=
  RotateTo._start r = RotateTo._start r0
  /\ RotateTo._end r = RotateTo._end r0
  /\ RotateTo._speed r = RotateTo._speed r0
  /\ RotateTo._direction r = RotateTo._direction r0
  /\ RotateTo._distance r = RotateTo._distance r0
  /\ RotateTo._started r = true
  /\ RotateTo._assigned r = true
  /\ if RotateTo._stopped r
     then Qabs (RotateTo._distance r0) <= RotateTo._speed r0 * (elapsed / 1000)
          /\ rotation a == RotateTo._end r0 /\ rx a == 0
     else RotateTo._currentNonCannonAngle r
          == RotateTo._start r0
             + RotateTo._direction r0 * RotateTo._speed r0 * (elapsed / 1000).

(** After a tick, the action has stopped exactly when the time elapsed
    covers the distance. *)
Definition stopped_by_time (r0 r : RotateTo.t) (elapsed : Q) : Prop :=
  RotateTo._stopped r
  = JS.ge (RotateTo._speed r0 * (elapsed / 1000))
          (Qabs (RotateTo._distance r0)).

(** ** [MoveTo] without speed *)

(** The invariant of a started [MoveTo] of speed zero whose destination is
    away from [origin], the place where the first update found the actor:
    the actor is still there. *)
Definition stalled (origin : Vector) (m : MoveTo.t) (a : Actor) : Prop :=
  MoveTo._start m = origin
  /\ MoveTo._started m = true
  /\ MoveTo._assigned m = true
  /\ MoveTo._stopped m = false
  /\ MoveTo._speed m == 0
  /\ Vector.eqv (pos a) (MoveTo._start m)
  /\ 0 < MoveTo._distance m.

(** ** [RotateBy] against [RotateTo] *)

(** A [RotateBy] read as a [RotateTo]: the fields the two classes share. *)
Definition as_RotateTo (r : RotateBy.t) : RotateTo.t :=
  RotateTo.mk (RotateBy._start r) (RotateBy._end r) (RotateBy._speed r)
    (RotateBy._rotationType r) (RotateBy._direction r) (RotateBy._distance r)
    (RotateBy._shortDistance r) (RotateBy._longDistance r)
    (RotateBy._shortestPathIsPositive r) (RotateBy._currentNonCannonAngle r)
    (RotateBy._started r) (RotateBy._stopped r) (RotateBy._assigned r).

(** The [RotateTo] that the spec compares a fresh [RotateBy] with: the one
    aimed at the rotation of the actor plus the offset. *)
Definition RotateTo_of (r : RotateBy.t) (a : Actor) : RotateTo.t :=
  RotateTo.mk 0 (rotation a + RotateBy._offset r) (RotateBy._speed r)
    (RotateBy._rotationType r) 0 0 0 0 false 0 false (RotateBy._stopped r)
    false.

(** ** A small queue *)

(** The objects of a small queue: the action [0] calls a method that leaves
    the actor alone, every other action is a delay of one second. *)
Definition two_actions : Ref -> AnyAction :=
  fun r =>
    match r with
    | O => ACallMethod (CallMethod.new (fun a => a))
    | _ => ADelay (Delay.new 1000)
    end.

(** ** After [stop], after completion *)

(** The classes whose [update] ends on the completion test, or leaves the
    actor alone: all but [EaseTo], whose [update] goes by its timer, and
    [CallMethod], whose [update] calls the method. *)
Definition settles (b : AnyAction) : bool :=
  match b with
  | AEaseTo _ | ACallMethod _ => false
  | _ => true
  end.


(** [a'] has the velocity, the angular velocity and the scale velocity of
    [a]. *)
Definition same_velocities (a a' : Actor) : Prop :=
  Vector.eqv (vel a') (vel a) /\ rx a' == rx a /\ sx a' == sx a
  /\ sy a' == sy a.


(** An [update] that follows [stop()] leaves the velocities as [stop] left
    them. *)
Definition update_after_stop_is_noop (b : AnyAction) (sc : Scene) (a : Actor)
           (delta : Q) : Prop :=
  let s := stop b a in
  same_velocities (snd s) (snd (update (fst s) sc (snd s) delta)).




(** A callback that can be seen: it makes the actor invisible. *)
Definition hide (a : Actor) : Actor := set_visible a false.

(** ** Queues as the test-suite builds them *)

(** The objects of a queue built by chaining calls on [actor.actions]: the
    action number [r] of the chain is behind the reference [r]. *)
Definition heap_of (chain : list AnyAction) : Ref -> AnyAction :=
  fun r => nth r chain (ADelay (Delay.new 0)).

(** [actor.actions.a0(...).a1(...)...]: each call adds its action to the
    queue of the actor. *)
Definition chained (chain : list AnyAction) (a : Actor) : World AnyAction :=
  run (map Add (seq 0 (List.length chain)))
      (mkWorld ActionQueue.new (heap_of chain) a).

(** [actor.update(engine, delta)] for each delta of the list, with nobody
    else on the scene. *)
Definition frames (deltas : list Q) (w : World AnyAction)
  : World AnyAction :=
  run (map (Tick empty_scene) deltas) w.

(** [actor.actions.clearActions()] *)
Definition clearActions (w : World AnyAction) : World AnyAction :=
  let '(q, h, a) :=
    ActionQueue.clearActions (w_queue w) (w_heap w) (w_actor w) in
  mkWorld q h a.

(** [actor.pos.x] *)
Definition pos_x (w : World AnyAction) : Q := Vector.x (pos (w_actor w)).

(** ** The repeating actions *)

(** [Repeat] and [RepeatForever] own a queue of their own, filled by the
    constructor with references to the actions to repeat; the actions are
    objects of the store, of any class [A] that implements [Action] on the
    fields of the actor.  Their methods take the store and return it. *)

Module Repeat.
Section Repeat.

Context {A : Type} `{Action A}.

(** [x] and [y] are only ever written. *)
Record t : Type := mk {
  x : Q;
  y : Q;
  _actionQueue : ActionQueue.t;
  _repeat : Q;
  _originalRepeat : Q;
  _stopped : bool
}.

(** The loop of the constructor: each action is reset and added. *)
Definition fill (actions : list Ref) (q : ActionQueue.t)
           (h : ActionQueue.Heap) : ActionQueue.t * ActionQueue.Heap :=
  fold_left
    (fun s action =>
       (ActionQueue.add (fst s) action,
        ActionQueue.write (snd s) action (reset (snd s action))))
    actions (q, h).

Definition new (h : ActionQueue.Heap) (repeat : Q) (actions : list Ref)
  : t * ActionQueue.Heap :=
  let (q, h') := fill actions ActionQueue.new h in
  (mk 0 0 q repeat repeat false, h').

Definition isComplete (r : t) : bool :=
  _stopped r || JS.le (_repeat r) 0.

Definition update (r : t) (h : ActionQueue.Heap) (sc : Scene) (a : Actor)
           (delta : Q) : t * ActionQueue.Heap * Actor :=
  let wrapped :=
    if negb (ActionQueue.hasNext (_actionQueue r)) then
      let (q, h') := ActionQueue.reset (_actionQueue r) h in
      (q, h', _repeat r - 1)
    else (_actionQueue r, h, _repeat r) in
  let '(q1, h1, repeat1) := wrapped in
  let '(q2, h2, a2) := ActionQueue.update q1 h1 sc a delta in
  (mk (Vector.x (pos a)) (Vector.y (pos a)) q2 repeat1 (_originalRepeat r)
      (_stopped r),
   h2, a2).

Definition stop (r : t) : t :=
  mk (x r) (y r) (_actionQueue r) (_repeat r) (_originalRepeat r) true.

Definition reset (r : t) : t :=
  mk (x r) (y r) (_actionQueue r) (_originalRepeat r) (_originalRepeat r)
     (_stopped r).

End Repeat.
End Repeat.

Module RepeatForever.
Section RepeatForever.

Context {A : Type} `{Action A}.

(** [x] and [y] are only ever written. *)
Record t : Type := mk {
  x : Q;
  y : Q;
  _actionQueue : ActionQueue.t;
  _stopped : bool
}.

Definition new (h : ActionQueue.Heap) (actions : list Ref)
  : t * ActionQueue.Heap :=
  let (q, h') := Repeat.fill actions ActionQueue.new h in
  (mk 0 0 q false, h').

Definition isComplete (r : t) : bool := _stopped r.

Definition update (r : t) (h : ActionQueue.Heap) (sc : Scene) (a : Actor)
           (delta : Q) : t * ActionQueue.Heap * Actor :=
  let r1 := mk (Vector.x (pos a)) (Vector.y (pos a)) (_actionQueue r)
               (_stopped r) in
  if _stopped r1 then (r1, h, a)
  else
    let wrapped :=
      if negb (ActionQueue.hasNext (_actionQueue r1)) then
        ActionQueue.reset (_actionQueue r1) h
      else (_actionQueue r1, h) in
    let (q1, h1) := wrapped in
    let '(q2, h2, a2) := ActionQueue.update q1 h1 sc a delta in
    (mk (x r1) (y r1) q2 (_stopped r1), h2, a2).

Definition stop (r : t) (h : ActionQueue.Heap) (a : Actor)
  : t * ActionQueue.Heap * Actor :=
  let '(q, h', a') := ActionQueue.clearActions (_actionQueue r) h a in
  (mk (x r) (y r) q true, h', a').

Definition reset (r : t) : t := r.

End RepeatForever.
End RepeatForever.

(** Runs of [update] on a [Repeat] and on a [RepeatForever], with nothing
    done to the actor in between. *)
Definition repeated {A : Type} `{Action A} (sc : Scene) (deltas : list Q)
           (s : Repeat.t * ActionQueue.Heap * Actor)
  : Repeat.t * ActionQueue.Heap * Actor :=
  fold_left
    (fun s' delta =>
       Repeat.update (fst (fst s')) (snd (fst s')) sc (snd s') delta)
    deltas s.

Definition repeated_forever {A : Type} `{Action A} (sc : Scene)
           (deltas : list Q) (s : RepeatForever.t * ActionQueue.Heap * Actor)
  : RepeatForever.t * ActionQueue.Heap * Actor :=
  fold_left
    (fun s' delta =>
       RepeatForever.update (fst (fst s')) (snd (fst s')) sc (snd s') delta)
    deltas s.

(** ** Callbacks *)

(** The callbacks of the actions [refs], called on the actor one after the
    other. *)
Definition call_all (h : @ActionQueue.Heap CallMethod.t) (refs : list Ref)
           (a : Actor) : Actor :=
  fold_left (fun a' r => CallMethod._method (h r) a') refs a.

(** The list of actions, [n] times over. *)
Definition cycles (n : nat) (actions : list Ref) : list Ref :=
  concat (repeat actions n).

(** The state of a [Repeat] over callbacks, [c] wrap-arounds after its
    construction: the actions [done] have run since the last wrap-around,
    the actions [todo] are still to run. *)
Definition cycling (h : @ActionQueue.Heap CallMethod.t) (actions : list Ref)
           (n : Q) (a0 : Actor) (c : nat) (done todo : list Ref)
           (s : Repeat.t * @ActionQueue.Heap CallMethod.t * Actor) : Prop :=
  done ++ todo = actions
  /\ ActionQueue._completedActions (Repeat._actionQueue (fst (fst s))) = done
  /\ ActionQueue._actions (Repeat._actionQueue (fst (fst s))) = todo
  /\ Repeat._repeat (fst (fst s)) == n - inject_Z (Z.of_nat c)
  /\ Repeat._stopped (fst (fst s)) = false
  /\ (forall r, CallMethod._method (snd (fst s) r) = CallMethod._method (h r))
  /\ snd s = call_all h (cycles c actions ++ done) a0.

(** What a queue of callbacks does to the actor, frame after frame: the
    frame number [i] calls the method of the action number [i] and lets the
    actor integrate; the frames that find the queue empty only
    integrate. *)
Fixpoint call_per_frame (h : @ActionQueue.Heap CallMethod.t)
         (actions : list Ref) (deltas : list Q) (a : Actor) : Actor :=
  match deltas with
  | [] => a
  | delta :: deltas' =>
      match actions with
      | [] => call_per_frame h [] deltas' (integrate a delta)
      | r :: actions' =>
          call_per_frame h actions' deltas'
            (integrate (CallMethod._method (h r) a) delta)
      end
  end.

(** ** Kinds of actions *)

(** The actions that drive the velocity of the actor. *)
Definition moves (b : AnyAction) : bool :=
  match b with
  | AEaseTo _ | AMoveTo _ | AMoveBy _ | AFollow _ | AMeet _ => true
  | _ => false
  end.

(** An action as its constructor leaves it, for the classes whose [reset]
    arms the action again. *)
Definition pristine (b : AnyAction) : Prop :=
  match b with
  | AEaseTo e => EaseTo._initialized e = false /\ EaseTo._stopped e = false
  | AMoveTo m => MoveTo._started m = false /\ MoveTo._stopped m = false
  | AMoveBy m => MoveBy._started m = false /\ MoveBy._stopped m = false
  | AScaleTo s => ScaleTo._started s = false /\ ScaleTo._stopped s = false
  | AScaleBy s => ScaleBy._started s = false /\ ScaleBy._stopped s = false
  | ADelay d =>
      Delay._started d = false /\ Delay._stopped d = false
      /\ Delay._elapsedTime d = 0
  | ABlink b =>
      Blink._started b = false /\ Blink._stopped b = false
      /\ Blink._elapsedTime b = 0 /\ Blink._totalTime b = 0
  | ACallMethod c => CallMethod._hasBeenCalled c = false
  | AFollow _ | AMeet _ | ARotateTo _ | ARotateBy _ | AFade _ => False
  end.

(** [b] is an object of the class of [b0] that holds what the constructor
    has put in [b0], and has been stopped if [b0] has. *)
Definition same_setup (b0 b : AnyAction) : Prop :=
  match b0, b with
  | AEaseTo e0, AEaseTo e =>
      EaseTo._lerpDuration e = EaseTo._lerpDuration e0
      /\ EaseTo._lerpEnd e = EaseTo._lerpEnd e0
      /\ EaseTo.easingFcn e = EaseTo.easingFcn e0
      /\ EaseTo._stopped e = EaseTo._stopped e0
  | AMoveTo m0, AMoveTo m =>
      MoveTo._end m = MoveTo._end m0 /\ MoveTo._speed m = MoveTo._speed m0
      /\ MoveTo._stopped m = MoveTo._stopped m0
  | AMoveBy m0, AMoveBy m =>
      MoveBy._offset m = MoveBy._offset m0
      /\ MoveBy._speed m = MoveBy._speed m0
      /\ MoveBy._stopped m = MoveBy._stopped m0
  | AScaleTo s0, AScaleTo s =>
      ScaleTo._endX s = ScaleTo._endX s0 /\ ScaleTo._endY s = ScaleTo._endY s0
      /\ ScaleTo._speedX s = ScaleTo._speedX s0
      /\ ScaleTo._speedY s = ScaleTo._speedY s0
      /\ ScaleTo._stopped s = ScaleTo._stopped s0
  | AScaleBy s0, AScaleBy s =>
      ScaleBy._offset s = ScaleBy._offset s0
      /\ ScaleBy._speedX s = ScaleBy._speedX s0
      /\ ScaleBy._speedY s = ScaleBy._speedY s0
      /\ ScaleBy._stopped s = ScaleBy._stopped s0
  | ADelay d0, ADelay d =>
      Delay._delay d = Delay._delay d0
      /\ Delay._stopped d = Delay._stopped d0
  | ABlink b0, ABlink b =>
      Blink._timeVisible b = Blink._timeVisible b0
      /\ Blink._timeNotVisible b = Blink._timeNotVisible b0
      /\ Blink._duration b = Blink._duration b0
      /\ Blink._stopped b = Blink._stopped b0
  | ACallMethod c0, ACallMethod c =>
      CallMethod._method c = CallMethod._method c0
  | _, _ => False
  end.

(** ** Time *)

(** The time of a run of ticks as an action adds it up, delta after
    delta. *)
Definition elapsed_time (deltas : list Q) : Q := fold_left Qplus deltas 0.

(** The value that [EaseTo.update] computes for one axis at the time [t],
    from the start [s] to the end [d]: the easing function runs upwards,
    and is mirrored for a move downwards. *)
Definition eased (easingFcn : Q -> Q -> Q -> Q -> Q) (t s d duration : Q)
  : Q :=
  if JS.lt d s then s - (easingFcn t d s duration - d)
  else easingFcn t s d duration.

(** The invariant of a [Fade] to [e] in [S] milliseconds that has started
    on the opacity [o0], [t] milliseconds later: the time left is [S - t],
    the action is complete when what is left of the way is below [0.05],
    and the opacity is on the end value, or on the line from [o0] to
    [e]. *)
Definition fading (e S o0 t : Q) (f : Fade.t) (a : Actor) : Prop :=
  Fade._endOpacity f = e
  /\ Fade._stopped f = false
  /\ Fade._started f = true
  /\ Fade._speed f == S - t
  /\ Fade._multiplier f = (if JS.lt e o0 then -1 else 1)
  /\ Fade.isComplete f a = JS.lt (Qabs (e - o0) * (S - t) / S) (5 # 100)
  /\ ((opacity a == e /\ Fade.isComplete f a = true)
      \/ opacity a == o0 + (e - o0) * t / S).

(** A [Fade] whose time has run out with the opacity away from its end
    value. *)
Definition out_of_time (f : Fade.t) (a : Actor) : Prop :=
  Fade._speed f <= 0
  /\ Fade._stopped f = false
  /\ Fade.isComplete f a = false.

(** The invariant of a started [ScaleTo] that has nothing to do on the Y
    axis: the Y scale of the actor stays on [_startY], short of the distance
    that [isComplete] asks it to cover for the X axis. *)
Definition waiting_for_y (s : ScaleTo.t) (a : Actor) : Prop :=
  ScaleTo._started s = true
  /\ ScaleTo._assigned s = true
  /\ ScaleTo._stopped s = false
  /\ ScaleTo._distanceY s == 0
  /\ Vector.y (scale a) == ScaleTo._startY s
  /\ Qabs (ScaleTo._startY s - ScaleTo._startX s) < ScaleTo._distanceX s.

(** The invariant of a [Meet] without speed whose target stands still at
    [target], more than [1] away from [origin], where the actor is. *)
Definition apart (origin target : Vector) (m : Meet.t) (a : Actor) : Prop :=
  Meet._speed m == 0
  /\ Meet._stopped m = false
  /\ Vector.eqv (pos a) origin
  /\ 1 < Vector.distance origin target.

(** The invariant of a started [ScaleBy] [s], [t] milliseconds after its
    first update: either the scale of the actor has moved away from the
    start scale by the speed times the time on both axes, or the action
    has put it on the end scale. *)
Definition scaling (s : ScaleBy.t) (t : Q) (a : Actor) : Prop :=
  (Vector.x (scale a)
   == Vector.x (ScaleBy._startScale s)
      + ScaleBy._speedX s * ScaleBy._directionX s * (t / 1000)
   /\ Vector.y (scale a)
      == Vector.y (ScaleBy._startScale s)
         + ScaleBy._speedY s * ScaleBy._directionY s * (t / 1000))
  \/ Vector.eqv (scale a) (ScaleBy._endScale s).

(** A [ScaleBy] as its first update leaves it. *)
Definition well_started (s : ScaleBy.t) : Prop :=
  ScaleBy._started s = true
  /\ ScaleBy._assigned s = true
  /\ ScaleBy._stopped s = false
  /\ ScaleBy._distanceX s
     == Qabs (Vector.x (ScaleBy._endScale s)
              - Vector.x (ScaleBy._startScale s))
  /\ ScaleBy._distanceY s
     == Qabs (Vector.y (ScaleBy._endScale s)
              - Vector.y (ScaleBy._startScale s)).

(** ** [Die] *)

(** [Die] works on the queue of its actor, [actor.actionQueue]: [update]
    clears that queue, and kills the actor.  The queue holds references to
    objects of a class [A] behind which the store has the objects, and
    possibly, behind the reference [self], this very [Die]: the queue runs
    a [Die] as its current action.

    Modelled from the spec: [Actor.kill] is not under [src/]; the [Die]
    "signals target removal from its container", which touches none of the
    fields that the actions drive.  [update] answers whether the actor has
    been killed. *)
Module Die.
Section Die.

Context {A : Type} `{Action A}.

(** [x] and [y] are never written. *)
Record t : Type := mk {
  _stopped : bool
}.

Definition new : t := mk false.

Definition isComplete (d : t) : bool := _stopped d.

Definition stop (d : t) : t := d.

Definition reset (d : t) : t := d.

(** [this._actor.actionQueue.clearActions()]: the call of [stop] on the
    current action of the queue is a call of [Die.stop], which returns at
    once, when the current action is this [Die]. *)
Definition clearActions (self : Ref) (q : ActionQueue.t)
           (h : ActionQueue.Heap) (a : Actor)
  : ActionQueue.t * ActionQueue.Heap * Actor :=
  match ActionQueue._currentAction q with
  | Some r =>
      if Nat.eqb r self
      then (ActionQueue.mk [] (ActionQueue._currentAction q) [], h, a)
      else ActionQueue.clearActions q h a
  | None => ActionQueue.clearActions q h a
  end.

Definition update (d : t) (self : Ref) (q : ActionQueue.t)
           (h : ActionQueue.Heap) (a : Actor) (_delta : Q)
  : t * ActionQueue.t * ActionQueue.Heap * Actor * bool :=
  let '(q', h', a') := clearActions self q h a in
  (mk true, q', h', a', true).

End Die.
End Die.

(** ** The sixteen classes *)

(** An object of any class of [Action.ts].  The classes of [AnyAction] work
    on the fields of the actor; a [Die] comes with the reference behind
    which the queue of its actor holds it; a [Repeat] and a
    [RepeatForever] hold a queue of references to objects of the classes
    of [AnyAction]. *)
Inductive Behaviour : Type :=
| Plain (b : AnyAction)
| ADie (d : Die.t) (self : Ref)
| ARepeat (r : Repeat.t)
| ARepeatForever (r : RepeatForever.t).

(** What the methods of a [Behaviour] work on: the actor, the store of the
    objects of the classes of [AnyAction], the queue of the actor, and
    whether the actor has been killed. *)
Record Stage : Type := mkStage {
  st_actor : Actor;
  st_heap : Ref -> AnyAction;
  st_queue : ActionQueue.t;
  st_killed : bool
}.

Definition Behaviour_update (b : Behaviour) (st : Stage) (sc : Scene)
           (delta : Q) : Behaviour * Stage :=
  match b with
  | Plain b' =>
      let (obj, a) := update b' sc (st_actor st) delta in
      (Plain obj, mkStage a (st_heap st) (st_queue st) (st_killed st))
  | ADie d self =>
      let '(d', q, h, a, killed) :=
        Die.update d self (st_queue st) (st_heap st) (st_actor st) delta in
      (ADie d' self, mkStage a h q killed)
  | ARepeat r =>
      let '(r', h, a) :=
        Repeat.update r (st_heap st) sc (st_actor st) delta in
      (ARepeat r', mkStage a h (st_queue st) (st_killed st))
  | ARepeatForever r =>
      let '(r', h, a) :=
        RepeatForever.update r (st_heap st) sc (st_actor st) delta in
      (ARepeatForever r', mkStage a h (st_queue st) (st_killed st))
  end.

Definition Behaviour_isComplete (b : Behaviour) (st : Stage) : bool :=
  match b with
  | Plain b' => isComplete b' (st_actor st)
  | ADie d _ => Die.isComplete d
  | ARepeat r => Repeat.isComplete r
  | ARepeatForever r => RepeatForever.isComplete r
  end.

Definition Behaviour_stop (b : Behaviour) (st : Stage) : Behaviour * Stage :=
  match b with
  | Plain b' =>
      let (obj, a) := stop b' (st_actor st) in
      (Plain obj, mkStage a (st_heap st) (st_queue st) (st_killed st))
  | ADie d self => (ADie (Die.stop d) self, st)
  | ARepeat r => (ARepeat (Repeat.stop r), st)
  | ARepeatForever r =>
      let '(r', h, a) :=
        RepeatForever.stop r (st_heap st) (st_actor st) in
      (ARepeatForever r', mkStage a h (st_queue st) (st_killed st))
  end.

Definition Behaviour_reset (b : Behaviour) : Behaviour :=
  match b with
  | Plain b' => Plain (reset b')
  | ADie d self => ADie (Die.reset d) self
  | ARepeat r => ARepeat (Repeat.reset r)
  | ARepeatForever r => ARepeatForever (RepeatForever.reset r)
  end.

(** A run of calls of [update], with nothing done to the actor in
    between. *)
Definition Behaviour_updates (sc : Scene) (deltas : list Q)
           (s : Behaviour * Stage) : Behaviour * Stage :=
  fold_left (fun s' delta => Behaviour_update (fst s') (snd s') sc delta)
            deltas s.

(** The classes whose [update] heeds [stop] and completion: those of
    [settles], [Die], whose [update] only clears and kills, and
    [RepeatForever], whose [update] returns at once when stopped.
    [Repeat.update] runs its queue whatever [_stopped] and [_repeat]
    are. *)
Definition heeds (b : Behaviour) : bool :=
  match b with
  | Plain b' => settles b'
  | ADie _ _ => true
  | ARepeat _ => false
  | ARepeatForever _ => true
  end.

(** A [Die] whose queue is running it, or is running nothing: [stop] is
    called on no other action when the [Die] clears the queue. *)
Definition in_its_queue (b : Behaviour) (st : Stage) : Prop :=
  match b with
  | ADie _ self =>
      ActionQueue._currentAction (st_queue st) = None
      \/ ActionQueue._currentAction (st_queue st) = Some self
  | _ => True
  end.


(** The ticks of [ActionSpec.ts] on a rotation: half a second, a second,
    two seconds.  At [PI/2] radians per second the angle moves by a
    multiple of [PI/4] that a double holds exactly. *)
Definition test_suite_ticks (deltas : list Q) : Prop :=
  Forall (fun delta => delta = 500 \/ delta = 1000 \/ delta = 2000) deltas.

(** A delta that is a whole number of milliseconds. *)
Definition whole (delta : Q) : bool :=
  (Qden delta =? 1)%positive && (0 <=? Qnum delta)%Z.

(** Deltas that doubles add up without rounding: whole numbers of
    milliseconds, no more than [2^53] of them in all. *)
Definition whole_milliseconds (deltas : list Q) : Prop :=
  Forall (fun delta => whole delta = true) deltas
  /\ total deltas <= 9007199254740992.

(** The invariant of a started [RotateTo] under any engine: [r0] is the
    action as [start] left it, [elapsed] the time of the updates since.
    The path chosen by [start] is kept, and until the action stops the
    shadow angle has moved from [_start] by the speed times that time, in
    the chosen direction. *)
Definition turning (r0 r : RotateTo.t) (elapsed : Q) : Prop :=
  RotateTo._start r = RotateTo._start r0
  /\ RotateTo._end r = RotateTo._end r0
  /\ RotateTo._speed r = RotateTo._speed r0
  /\ RotateTo._direction r = RotateTo._direction r0
  /\ RotateTo._distance r = RotateTo._distance r0
  /\ RotateTo._started r = true
  /\ RotateTo._assigned r = true
  /\ (RotateTo._stopped r = false ->
      RotateTo._currentNonCannonAngle r
      == RotateTo._start r0
         + RotateTo._direction r0 * RotateTo._speed r0 * (elapsed / 1000)).

(** What an update of a started [RotateTo] leaves: an action that is
    stopped if it is complete, with the actor on the end angle, and that
    is turning the actor otherwise. *)
Definition turned (r0 : RotateTo.t) (u : RotateTo.t * Actor) : Prop :=
  RotateTo._stopped (fst u) = RotateTo.isComplete (fst u)
  /\ (RotateTo.isComplete (fst u) = true ->
      rotation (snd u) = RotateTo._end r0 /\ rx (snd u) = 0)
  /\ (RotateTo.isComplete (fst u) = false ->
      rx (snd u) = RotateTo._direction r0 * RotateTo._speed r0).

(** * Properties *)

(** ** Numbers *)

Lemma lt_true (x y : Q) : JS.lt x y = true <-> x < y.
Proof.
  unfold JS.lt. rewrite negb_true_iff, <- not_true_iff_false, Qle_bool_iff.
  split; intro Hxy; [ apply Qnot_le_lt | apply Qlt_not_le ]; exact Hxy.
Qed.

Lemma lt_false (x y : Q) : JS.lt x y = false <-> y <= x.
Proof.
  unfold JS.lt. rewrite negb_false_iff. apply Qle_bool_iff.
Qed.

Lemma ge_true (x y : Q) : JS.ge x y = true <-> y <= x.
Proof. apply Qle_bool_iff. Qed.

Lemma ge_false (x y : Q) : JS.ge x y = false <-> x < y.
Proof.
  unfold JS.ge. rewrite <- not_true_iff_false, Qle_bool_iff.
  split; intro Hxy; [ apply Qnot_le_lt | apply Qlt_not_le ]; exact Hxy.
Qed.

Lemma le_true (x y : Q) : JS.le x y = true <-> x <= y.
Proof. apply Qle_bool_iff. Qed.

Lemma le_false (x y : Q) : JS.le x y = false <-> y < x.
Proof. apply (ge_false y x). Qed.

Lemma gt_true (x y : Q) : JS.gt x y = true <-> y < x.
Proof. apply (lt_true y x). Qed.

Lemma gt_false (x y : Q) : JS.gt x y = false <-> x <= y.
Proof. apply (lt_false y x). Qed.

(** Turns the boolean comparisons of the context and of the goal into
    propositions of [Q]. *)
Ltac js_cmp :=
  repeat match goal with
    | H : JS.lt _ _ = true |- _ => apply lt_true in H
    | H : JS.lt _ _ = false |- _ => apply lt_false in H
    | H : JS.ge _ _ = true |- _ => apply ge_true in H
    | H : JS.ge _ _ = false |- _ => apply ge_false in H
    | H : JS.le _ _ = true |- _ => apply le_true in H
    | H : JS.le _ _ = false |- _ => apply le_false in H
    | H : JS.gt _ _ = true |- _ => apply gt_true in H
    | H : JS.gt _ _ = false |- _ => apply gt_false in H
    | |- JS.lt _ _ = true => apply lt_true
    | |- JS.lt _ _ = false => apply lt_false
    | |- JS.ge _ _ = true => apply ge_true
    | |- JS.ge _ _ = false => apply ge_false
    | |- JS.le _ _ = true => apply le_true
    | |- JS.le _ _ = false => apply le_false
    | |- JS.gt _ _ = true => apply gt_true
    | |- JS.gt _ _ = false => apply gt_false
    end.

(** [Math.sqrt] gives the same number for equal arguments. *)
Lemma Math_sqrt_compat (p q : Q) : p == q -> JS.Math_sqrt p = JS.Math_sqrt q.
Proof.
  intro Hpq. unfold JS.Math_sqrt. rewrite (Qred_complete p q Hpq).
  reflexivity.
Qed.

Lemma Math_sqrt_zero (q : Q) : q == 0 -> JS.Math_sqrt q == 0.
Proof.
  intro Hq. rewrite (Math_sqrt_compat q 0 Hq). reflexivity.
Qed.

Lemma Math_sqrt_pos (q : Q) : 0 < q -> 0 < JS.Math_sqrt q.
Proof.
  intro Hq. unfold JS.Math_sqrt.
  assert (Hr : 0 < Qred q) by (rewrite Qred_correct; exact Hq).
  destruct (Qred q) as [n d]. unfold Qlt in *. simpl in *.
  rewrite Z.mul_1_r in *.
  apply Z.sqrt_pos.
  apply Z.mul_pos_pos; [ apply Z.mul_pos_pos; [ exact Hr | ] | ];
    reflexivity.
Qed.

Lemma Math_sqrt_nonneg (q : Q) : 0 <= JS.Math_sqrt q.
Proof.
  unfold JS.Math_sqrt, Qle. simpl. rewrite Z.mul_1_r. apply Z.sqrt_nonneg.
Qed.

(** The distance of a point to a point with the same coordinates is zero. *)
Lemma distance_same (v w : Vector) :
  Vector.eqv v w -> Vector.distance v w == 0.
Proof.
  intros [Hx Hy]. unfold Vector.distance, JS.Math_pow2.
  apply Math_sqrt_zero. rewrite Hx, Hy. ring.
Qed.

Lemma square_nonneg (q : Q) : 0 <= q * q.
Proof.
  destruct (Qlt_le_dec q 0) as [Hneg | Hpos].
  - setoid_replace (q * q) with ((- q) * (- q)) by ring.
    apply Qmult_le_0_compat; lra.
  - apply Qmult_le_0_compat; assumption.
Qed.

Lemma square_pos (q : Q) : ~ q == 0 -> 0 < q * q.
Proof.
  intro Hq. destruct (Qlt_le_dec q 0) as [Hneg | Hpos].
  - setoid_replace (q * q) with ((- q) * (- q)) by ring.
    apply Qmult_lt_0_compat; lra.
  - assert (0 < q).
    { apply Qle_lteq in Hpos. destruct Hpos as [Hlt | Heq];
        [ exact Hlt | exfalso; apply Hq; symmetry; exact Heq ]. }
    apply Qmult_lt_0_compat; assumption.
Qed.

(** Two distinct points are at a positive distance. *)
Lemma distance_pos (v w : Vector) :
  ~ Vector.eqv v w -> 0 < Vector.distance v w.
Proof.
  intro Hne. unfold Vector.distance, JS.Math_pow2. apply Math_sqrt_pos.
  pose proof (square_nonneg (Vector.x v - Vector.x w)) as Hx0.
  pose proof (square_nonneg (Vector.y v - Vector.y w)) as Hy0.
  destruct (Qeq_dec (Vector.x v) (Vector.x w)) as [Hx | Hx].
  - destruct (Qeq_dec (Vector.y v) (Vector.y w)) as [Hy | Hy].
    + exfalso. apply Hne. split; assumption.
    + assert (0 < (Vector.y v - Vector.y w) * (Vector.y v - Vector.y w))
        by (apply square_pos; lra).
      lra.
  - assert (0 < (Vector.x v - Vector.x w) * (Vector.x v - Vector.x w))
      by (apply square_pos; lra).
    lra.
Qed.

(** ** Construction *)

(** C8: constructing a [MoveBy] throws exactly when the speed is at most
    zero; with a positive speed the constructor returns the object, which
    holds the speed and the offset as given (nothing is clamped). *)
Theorem MoveBy_new_throws_iff_speed_nonpositive (offsetX offsetY speed : Q) :
  ((exists message, MoveBy.new offsetX offsetY speed = Throw message)
   <-> speed <= 0)
  /\ ((exists m, MoveBy.new offsetX offsetY speed = Ok m
                 /\ MoveBy._speed m = speed
                 /\ MoveBy._offset m = vec offsetX offsetY)
      <-> 0 < speed).
Proof.
  unfold MoveBy.new. destruct (JS.le speed 0) eqn:Hle; js_cmp.
  - split; split.
    + intros _. exact Hle.
    + intros _. eexists. reflexivity.
    + intros [m [Hm _]]. discriminate Hm.
    + intro Hpos. lra.
  - split; split.
    + intros [message Hm]. discriminate Hm.
    + intro Hneg. lra.
    + intros _. exact Hle.
    + intros _. eexists. repeat split.
Qed.

(** ** The queue: [remove] *)

Lemma indexOf_from_absent {A : Type} (eqb : A -> A -> bool) (l : list A)
      (x : A) (i : Z) :
  (forall y, In y l -> eqb y x = false) ->
  JS.indexOf_from eqb l x i = (-1)%Z.
Proof.
  revert i. induction l as [| y l IH]; intros i Hl; simpl.
  - reflexivity.
  - rewrite (Hl y (or_introl eq_refl)). apply IH.
    intros z Hz. apply Hl. right. exact Hz.
Qed.

Lemma indexOf_from_first {A : Type} (eqb : A -> A -> bool) (l1 l2 : list A)
      (x : A) (i : Z) :
  (forall y, In y l1 -> eqb y x = false) ->
  eqb x x = true ->
  JS.indexOf_from eqb (l1 ++ x :: l2) x i = (i + Z.of_nat (List.length l1))%Z.
Proof.
  revert i. induction l1 as [| y l1 IH]; intros i Hl Hx; simpl.
  - rewrite Hx. lia.
  - rewrite (Hl y (or_introl eq_refl)). rewrite IH.
    + lia.
    + intros z Hz. apply Hl. right. exact Hz.
    + exact Hx.
Qed.

(** [splice(-1, 1)] removes the last element of the array. *)
Lemma splice_minus_one {A : Type} (l : list A) :
  JS.splice l (-1) 1 = removelast l.
Proof.
  unfold JS.splice. change (-1 <? 0)%Z with true. cbv iota.
  destruct l as [| x l] using rev_ind.
  - reflexivity.
  - clear IHl. rewrite removelast_last, length_app. simpl List.length.
    replace (Z.max (Z.of_nat (List.length l + 1) + -1) 0)
      with (Z.of_nat (List.length l)) by lia.
    replace (Z.of_nat (List.length l)
             + Z.min (Z.max 1 0)
                 (Z.of_nat (List.length l + 1) - Z.of_nat (List.length l)))%Z
      with (Z.of_nat (List.length l + 1)) by lia.
    rewrite !Nat2Z.id.
    rewrite firstn_app, firstn_all, Nat.sub_diag. simpl firstn.
    rewrite <- (length_app l [x]) at 1. rewrite skipn_all.
    rewrite !app_nil_r. reflexivity.
Qed.

(** [splice(i, 1)] at the index of an element removes that element. *)
Lemma splice_at {A : Type} (l1 l2 : list A) (x : A) :
  JS.splice (l1 ++ x :: l2) (Z.of_nat (List.length l1)) 1 = l1 ++ l2.
Proof.
  unfold JS.splice. rewrite length_app. simpl List.length.
  replace (Z.of_nat (List.length l1) <? 0)%Z with false
    by (symmetry; apply Z.ltb_ge; lia).
  replace (Z.min (Z.of_nat (List.length l1))
             (Z.of_nat (List.length l1 + S (List.length l2))))
    with (Z.of_nat (List.length l1)) by lia.
  replace (Z.of_nat (List.length l1)
           + Z.min (Z.max 1 0)
               (Z.of_nat (List.length l1 + S (List.length l2))
                - Z.of_nat (List.length l1)))%Z
    with (Z.of_nat (S (List.length l1))) by lia.
  rewrite !Nat2Z.id.
  rewrite firstn_app, firstn_all, Nat.sub_diag. simpl firstn.
  rewrite app_nil_r.
  replace (l1 ++ x :: l2) with ((l1 ++ [x]) ++ l2)
    by (rewrite <- app_assoc; reflexivity).
  rewrite skipn_app.
  replace (S (List.length l1)) with (List.length (l1 ++ [x]))
    by (rewrite length_app; simpl; lia).
  rewrite skipn_all, Nat.sub_diag. reflexivity.
Qed.

(** [remove] of an action that is pending drops its first occurrence. *)
Lemma ActionQueue_remove_present (q : ActionQueue.t) (action : Ref)
      (l1 l2 : list Ref) :
  ActionQueue._actions q = l1 ++ action :: l2 ->
  ~ In action l1 ->
  ActionQueue._actions (ActionQueue.remove q action) = l1 ++ l2.
Proof.
  intros Hq Hl1. unfold ActionQueue.remove, JS.indexOf. simpl. rewrite Hq.
  rewrite indexOf_from_first.
  - apply splice_at.
  - intros y Hy. apply Nat.eqb_neq. intro Heq. subst y. exact (Hl1 Hy).
  - apply Nat.eqb_refl.
Qed.

(** [remove] of an action that is not pending drops the last pending
    action: [indexOf] answers [-1], and [splice(-1, 1)] counts from the
    end. *)
Lemma ActionQueue_remove_absent (q : ActionQueue.t) (action : Ref) :
  ~ In action (ActionQueue._actions q) ->
  ActionQueue._actions (ActionQueue.remove q action)
  = removelast (ActionQueue._actions q).
Proof.
  intro Hq. unfold ActionQueue.remove, JS.indexOf. simpl.
  rewrite indexOf_from_absent.
  - apply splice_minus_one.
  - intros y Hy. apply Nat.eqb_neq. intro Heq. subst y. exact (Hq Hy).
Qed.

(** C2: [remove] is not a no-op on an action that is absent.  With the
    actions [1] and [2] pending, removing the action [3], which is not in
    the queue, leaves only [1]: the last pending action is dropped. *)
Theorem ActionQueue_remove_absent_drops_last :
  ~ In 3%nat [1%nat; 2%nat]
  /\ ActionQueue._actions
       (ActionQueue.remove (ActionQueue.mk [1%nat; 2%nat] None []) 3%nat)
     = [1%nat].
Proof.
  split.
  - simpl. intros [H | [H | H]]; try discriminate H; exact H.
  - reflexivity.
Qed.

(** ** [ScaleTo]: the direction of the X axis *)

(** C9: while the X axis has not covered its distance and the action is not
    complete, [ScaleTo.update] drives the X scale velocity with the sign of
    the Y axis ([_endY] against [_startY]), not with the sign of
    [_endX] against [_startX].  When X has to shrink and Y has to grow the
    X velocity is [+_speedX]; when X has to grow and Y has to shrink it is
    [-_speedX]. *)
Theorem ScaleTo_update_x_direction_from_y_bounds
        (s : ScaleTo.t) (a : Actor) (delta : Q) :
  let s' := fst (ScaleTo.update s a delta) in
  let a' := snd (ScaleTo.update s a delta) in
  Qabs (Vector.x (scale a) - ScaleTo._startX s') < ScaleTo._distanceX s' ->
  ScaleTo.isComplete s' a = false ->
  sx a' = ScaleTo._speedX s
          * (if JS.lt (ScaleTo._endY s) (ScaleTo._startY s') then -1 else 1)
  /\ (ScaleTo._endX s < ScaleTo._startX s' ->
      ScaleTo._startY s' < ScaleTo._endY s ->
      sx a' = ScaleTo._speedX s * 1)
  /\ (ScaleTo._startX s' < ScaleTo._endX s ->
      ScaleTo._endY s < ScaleTo._startY s' ->
      sx a' = ScaleTo._speedX s * -1).
Proof.
  intros s' a'.
  assert (Hfields :
            ScaleTo._endY s' = ScaleTo._endY s
            /\ ScaleTo._speedX s' = ScaleTo._speedX s).
  { unfold s', ScaleTo.update.
    destruct (ScaleTo._started s);
      destruct (ScaleTo.isComplete _ _); split; reflexivity. }
  destruct Hfields as [HendY HspeedX].
  intros HX Hincomplete.
  assert (Hsx :
            sx a' = ScaleTo._speedX s'
                    * (if JS.lt (ScaleTo._endY s') (ScaleTo._startY s')
                       then -1 else 1)).
  { apply ge_false in HX.
    revert HX Hincomplete. unfold a', s', ScaleTo.update.
    set (s1 := if ScaleTo._started s then s else _).
    assert (Hfst : forall a2 b,
               fst (if b : bool
                    then (s1, set_sy (set_sx (set_scale a2
                           (vec (ScaleTo._endX s1) (ScaleTo._endY s1))) 0) 0)
                    else (s1, a2)) = s1)
      by (intros a2 [|]; reflexivity).
    rewrite !Hfst. intros HX Hincomplete.
    unfold JS.Math_abs. rewrite HX. simpl negb. cbv iota.
    match goal with
    | |- context [ScaleTo.isComplete s1 ?a2] =>
        replace (ScaleTo.isComplete s1 a2) with (ScaleTo.isComplete s1 a)
    end.
    - rewrite Hincomplete. simpl.
      destruct (negb _); reflexivity.
    - unfold ScaleTo.isComplete. destruct (negb _); reflexivity. }
  rewrite HendY, HspeedX in Hsx.
  split; [ exact Hsx | split ].
  - intros _ HY. rewrite Hsx.
    assert (Hlt : JS.lt (ScaleTo._endY s) (ScaleTo._startY s') = false)
      by (js_cmp; lra).
    rewrite Hlt. reflexivity.
  - intros _ HY. rewrite Hsx.
    assert (Hlt : JS.lt (ScaleTo._endY s) (ScaleTo._startY s') = true)
      by (js_cmp; lra).
    rewrite Hlt. reflexivity.
Qed.

(** The theorem at work: scaling a fresh actor (scale [1, 1]) to
    [(1/2, 2)] at speeds [(1, 1)] makes the X scale grow. *)
Lemma ScaleTo_update_x_direction_from_y_bounds_witness :
  sx (snd (ScaleTo.update (ScaleTo.new (1 # 2) 2 1 1) Actor_new 100))
  = 1 * 1.
Proof.
  refine (proj1 (proj2 (ScaleTo_update_x_direction_from_y_bounds
                          (ScaleTo.new (1 # 2) 2 1 1) Actor_new 100 _ _))
                _ _).
  - vm_compute. reflexivity.
  - vm_compute. reflexivity.
  - vm_compute. reflexivity.
  - vm_compute. reflexivity.
Defined.

(** ** [Fade] *)

Lemma ticks_app {A : Type} `{Action A} (sc : Scene) (l1 l2 : list Q)
      (s : A * Actor) :
  ticks sc (l1 ++ l2) s = ticks sc l2 (ticks sc l1 s).
Proof. unfold ticks. apply fold_left_app. Qed.

(** Once its speed budget is spent and the opacity sits on the end value, a
    [Fade] that is ticked again leaves the opacity there. *)
Lemma Fade_tick_settled (sc : Scene) (delta : Q) (s : Fade.t * Actor) :
  0 <= delta ->
  opacity (snd s) = Fade._endOpacity (fst s) ->
  Fade._speed (fst s) <= 0 ->
  Fade._started (fst s) = true ->
  let s' := tick sc delta s in
  opacity (snd s') = Fade._endOpacity (fst s')
  /\ Fade._endOpacity (fst s') = Fade._endOpacity (fst s)
  /\ Fade._speed (fst s') <= 0
  /\ Fade._started (fst s') = true.
Proof.
  destruct s as [f a]. simpl fst. simpl snd.
  intros Hdelta Hop Hspeed Hstarted. unfold tick. simpl fst. simpl snd.
  unfold update, Fade_Action, Fade.update. rewrite Hstarted.
  assert (Hgt : JS.gt (Fade._speed f) 0 = false) by (js_cmp; exact Hspeed).
  rewrite Hgt.
  assert (Hc : forall speed,
             Fade.isComplete
               (Fade.mk (Fade._endOpacity f) speed (Fade._multiplier f)
                        (Fade._started f) (Fade._stopped f)) a = true).
  { intro speed. unfold Fade.isComplete.
    cbn [Fade._stopped Fade._endOpacity]. apply orb_true_iff. right.
    apply lt_true. rewrite Hop. unfold JS.Math_abs.
    setoid_replace (Fade._endOpacity f - Fade._endOpacity f) with 0 by ring.
    reflexivity. }
  rewrite Hc. simpl. repeat split; try assumption. lra.
Qed.

(** C7: a [Fade] to opacity [1] with speed [200], started on an actor of
    opacity [0] and ticked every 20 ms, has moved the opacity to [9/10]
    after 180 ms without being complete, sets it to exactly [1] on the tick
    at 200 ms, and leaves it at exactly [1] on every later tick. *)
Theorem Fade_reaches_end_opacity_and_stays :
  let s0 := (Fade.new 1 200, set_opacity Actor_new 0) in
  let after (n : nat) := ticks empty_scene (repeat 20 n) s0 in
  opacity (snd (after 9%nat)) == 9 # 10
  /\ Fade.isComplete (fst (after 9%nat)) (snd (after 9%nat)) = false
  /\ opacity (snd (after 10%nat)) = 1
  /\ Fade.isComplete (fst (after 10%nat)) (snd (after 10%nat)) = true
  /\ forall n : nat, opacity (snd (after (10 + n)%nat)) = 1.
Proof.
  intros s0 after.
  split; [ vm_compute; reflexivity | ].
  split; [ vm_compute; reflexivity | ].
  split; [ vm_compute; reflexivity | ].
  split; [ vm_compute; reflexivity | ].
  assert (Hinv : forall n,
             opacity (snd (after (10 + n)%nat))
             = Fade._endOpacity (fst (after (10 + n)%nat))
             /\ Fade._endOpacity (fst (after (10 + n)%nat)) = 1
             /\ Fade._speed (fst (after (10 + n)%nat)) <= 0
             /\ Fade._started (fst (after (10 + n)%nat)) = true).
  { induction n as [| n IH].
    - vm_compute. repeat split; intro H; discriminate H.
    - replace (10 + S n)%nat with ((10 + n) + 1)%nat by lia.
      unfold after in *. rewrite repeat_app, ticks_app.
      destruct IH as [Hop [Hend [Hspeed Hstarted]]].
      change (ticks empty_scene (repeat 20 1) ?s)
        with (tick empty_scene 20 s).
      destruct (Fade_tick_settled empty_scene 20 _
                  ltac:(lra) Hop Hspeed Hstarted)
        as [Hop' [Hend' [Hspeed' Hstarted']]].
      repeat split; try assumption. rewrite Hend'. exact Hend. }
  intro n. destruct (Hinv n) as [Hop [Hend _]]. rewrite Hop. exact Hend.
Qed.

(** ** [RotateTo]: the time a rotation takes *)

(** Writes the divisions by the constants of the source as products, for
    the linear-arithmetic tactics. *)
Ltac q_div :=
  unfold Qdiv in *;
  change (/ 1000) with (1 # 1000) in *;
  change (/ 2) with (1 # 2) in *.

Lemma rotating_elapsed (r0 r : RotateTo.t) (a : Actor) (e1 e2 : Q) :
  e1 == e2 -> rotating r0 r a e1 -> rotating r0 r a e2.
Proof.
  intros He (H1 & H2 & H3 & H4 & H5 & H6 & H7 & H8).
  unfold rotating. repeat (split; [ assumption | ]).
  destruct (RotateTo._stopped r).
  - rewrite <- He. exact H8.
  - rewrite <- He. exact H8.
Qed.

(** A rotation in either direction covers the speed times the time. *)
Lemma Qabs_unit_direction (d s t : Q) :
  d == 1 \/ d == -1 -> 0 <= s -> 0 <= t -> Qabs (d * s * t) == s * t.
Proof.
  intros Hd Hs Ht.
  assert (0 <= s * t) by (apply Qmult_le_0_compat; assumption).
  destruct Hd as [Hd | Hd]; rewrite Hd.
  - setoid_replace (1 * s * t) with (s * t) by ring. apply Qabs_pos. assumption.
  - setoid_replace (-1 * s * t) with (- (s * t)) by ring.
    rewrite Qabs_opp. apply Qabs_pos. assumption.
Qed.

Lemma stopped_by_time_elapsed (r0 r : RotateTo.t) (e1 e2 : Q) :
  e1 == e2 -> stopped_by_time r0 r e1 -> stopped_by_time r0 r e2.
Proof.
  unfold stopped_by_time. intros He Hs. rewrite Hs.
  apply Qleb_comp; [ reflexivity | rewrite He; reflexivity ].
Qed.

(** One tick keeps the invariant and stops the action when the time is up. *)
Lemma RotateTo_tick_rotating (sc : Scene) (r0 : RotateTo.t)
      (delta elapsed : Q) (s : RotateTo.t * Actor) :
  RotateTo._direction r0 == 1 \/ RotateTo._direction r0 == -1 ->
  0 <= RotateTo._speed r0 ->
  0 <= elapsed -> 0 <= delta ->
  rotating r0 (fst s) (snd s) elapsed ->
  rotating r0 (fst (tick sc delta s)) (snd (tick sc delta s))
           (elapsed + delta)
  /\ stopped_by_time r0 (fst (tick sc delta s)) (elapsed + delta).
Proof.
  intros Hdir Hspeed Helapsed Hdelta.
  destruct s as [r a]. cbn [fst snd].
  intros (H1 & H2 & H3 & H4 & H5 & H6 & H7 & H8).
  unfold tick. cbn [fst snd]. unfold update, RotateTo_Action, RotateTo.update.
  rewrite H6.
  set (r2 := RotateTo.mk _ _ _ _ _ _ _ _ _ _ _ _ _).
  assert (Hmono : RotateTo._speed r0 * (elapsed / 1000)
                  <= RotateTo._speed r0 * ((elapsed + delta) / 1000))
    by (q_div; nra).
  destruct (RotateTo._stopped r) eqn:Hstopped.
  - assert (Hc : RotateTo.isComplete r2 = true).
    { unfold RotateTo.isComplete, r2. cbn [RotateTo._stopped]. reflexivity. }
    rewrite Hc. unfold rotating, stopped_by_time, integrate. cbn.
    rewrite H1, H2, H3, H4, H5, H6, H7.
    destruct H8 as [Hd _].
    split.
    + repeat (split; [ reflexivity | ]).
      split; [ lra | split; ring ].
    + symmetry. apply ge_true. lra.
  - rename H8 into Hangle.
    assert (Htravel :
              JS.Math_abs (RotateTo._currentNonCannonAngle r2
                           - RotateTo._start r2)
              == RotateTo._speed r0 * ((elapsed + delta) / 1000)).
    { unfold r2. cbn [RotateTo._currentNonCannonAngle RotateTo._start].
      unfold JS.Math_abs. rewrite Hangle, H1, H3, H4.
      setoid_replace
        (RotateTo._start r0
         + RotateTo._direction r0 * RotateTo._speed r0 * (elapsed / 1000)
         + RotateTo._direction r0 * RotateTo._speed r0 * (delta / 1000)
         - RotateTo._start r0)
        with (RotateTo._direction r0 * RotateTo._speed r0
              * ((elapsed + delta) / 1000)) by field.
      apply Qabs_unit_direction; [ assumption | assumption | q_div; lra ]. }
    assert (Hiff :
              RotateTo.isComplete r2
              = JS.ge (RotateTo._speed r0 * ((elapsed + delta) / 1000))
                      (Qabs (RotateTo._distance r0))).
    { apply eq_iff_eq_true. unfold RotateTo.isComplete.
      rewrite orb_true_iff, andb_true_iff, !ge_true, Htravel.
      unfold r2. cbn [RotateTo._stopped RotateTo._assigned RotateTo._distance].
      unfold JS.Math_abs. rewrite H5, H7.
      split; [ intros [Hf | [_ Hge]]; [ discriminate Hf | exact Hge ]
             | intro Hge; right; split; [ reflexivity | exact Hge ] ]. }
    destruct (RotateTo.isComplete r2) eqn:Hc.
    + unfold rotating, stopped_by_time, integrate. cbn.
      rewrite H1, H2, H3, H4, H5, H6, H7.
      split; [ | exact Hiff ].
      repeat (split; [ reflexivity | ]).
      symmetry in Hiff. js_cmp.
      split; [ exact Hiff | split; ring ].
    + unfold rotating, stopped_by_time, r2.
      cbn [fst snd RotateTo._start RotateTo._end RotateTo._speed
           RotateTo._direction RotateTo._distance RotateTo._started
           RotateTo._assigned RotateTo._stopped
           RotateTo._currentNonCannonAngle].
      split; [ | exact Hiff ].
      repeat (split; [ assumption | ]).
      rewrite Hangle, H3, H4. field.
Qed.


Lemma total_nonneg (deltas : list Q) : nonnegative deltas -> 0 <= total deltas.
Proof.
  induction 1 as [| d ds Hd _ IH]; simpl.
  - lra.
  - lra.
Qed.

Lemma RotateTo_ticks_rotating (sc : Scene) (r0 : RotateTo.t)
      (deltas : list Q) :
  RotateTo._direction r0 == 1 \/ RotateTo._direction r0 == -1 ->
  0 <= RotateTo._speed r0 ->
  nonnegative deltas ->
  forall (delta : Q) (s : RotateTo.t * Actor) (elapsed : Q),
    0 <= delta ->
    0 <= elapsed ->
    rotating r0 (fst s) (snd s) elapsed ->
    let s' := ticks sc (delta :: deltas) s in
    rotating r0 (fst s') (snd s') (elapsed + total (delta :: deltas))
    /\ stopped_by_time r0 (fst s') (elapsed + total (delta :: deltas)).
Proof.
  intros Hdir Hspeed Hdeltas.
  induction Hdeltas as [| d ds Hd _ IH];
    intros delta s elapsed Hdelta Helapsed Hs.
  - change (ticks sc [delta] s) with (tick sc delta s). cbv zeta.
    destruct (RotateTo_tick_rotating sc r0 delta elapsed s
                Hdir Hspeed Helapsed Hdelta Hs) as [Hr Ht].
    split.
    + apply (rotating_elapsed r0 _ _ (elapsed + delta));
        [ simpl; ring | exact Hr ].
    + apply (stopped_by_time_elapsed r0 _ (elapsed + delta));
        [ simpl; ring | exact Ht ].
  - change (ticks sc (delta :: d :: ds) s)
      with (ticks sc (d :: ds) (tick sc delta s)). cbv zeta.
    destruct (RotateTo_tick_rotating sc r0 delta elapsed s
                Hdir Hspeed Helapsed Hdelta Hs) as [Hr _].
    destruct (IH d (tick sc delta s) (elapsed + delta) Hd
                ltac:(lra) Hr) as [Hr' Ht'].
    split.
    + apply (rotating_elapsed r0 _ _ (elapsed + delta + total (d :: ds)));
        [ simpl; ring | exact Hr' ].
    + apply (stopped_by_time_elapsed r0 _
               (elapsed + delta + total (d :: ds)));
        [ simpl; ring | exact Ht' ].
Qed.

(** The first update of a fresh action runs [start] and goes on as an
    update of the started action. *)
Lemma RotateTo_update_start (r : RotateTo.t) (a : Actor) (delta : Q) :
  RotateTo._started r = false ->
  RotateTo.update r a delta = RotateTo.update (RotateTo.start r a) a delta.
Proof.
  intro Hr. unfold RotateTo.update. rewrite Hr. reflexivity.
Qed.

Lemma RotateTo_start_direction (r : RotateTo.t) (a : Actor) :
  RotateTo._direction (RotateTo.start r a) == 1
  \/ RotateTo._direction (RotateTo.start r a) == -1.
Proof.
  unfold RotateTo.start. cbn [RotateTo._direction].
  destruct (RotateTo._rotationType r); try destruct (JS.ge _ _);
    (left; reflexivity) || (right; reflexivity).
Qed.

(** For a state kept by the invariant, [isComplete] is the [_stopped]
    flag. *)
Lemma RotateTo_isComplete_stopped (r0 r : RotateTo.t) (a : Actor)
      (elapsed : Q) :
  RotateTo._direction r0 == 1 \/ RotateTo._direction r0 == -1 ->
  0 <= RotateTo._speed r0 ->
  0 <= elapsed ->
  rotating r0 r a elapsed ->
  stopped_by_time r0 r elapsed ->
  RotateTo.isComplete r = RotateTo._stopped r.
Proof.
  intros Hdir Hspeed Helapsed (H1 & H2 & H3 & H4 & H5 & H6 & H7 & H8) Ht.
  unfold RotateTo.isComplete. rewrite H7.
  destruct (RotateTo._stopped r) eqn:Hstopped; [ reflexivity | ].
  cbn [orb andb]. unfold stopped_by_time in Ht. rewrite Hstopped in Ht.
  rewrite Ht. apply Qleb_comp.
  - unfold JS.Math_abs. rewrite H5. reflexivity.
  - unfold JS.Math_abs. rewrite H8, H1.
    setoid_replace
      (RotateTo._start r0
       + RotateTo._direction r0 * RotateTo._speed r0 * (elapsed / 1000)
       - RotateTo._start r0)
      with (RotateTo._direction r0 * RotateTo._speed r0 * (elapsed / 1000))
      by ring.
    apply Qabs_unit_direction; [ assumption | assumption | q_div; lra ].
Qed.

(** A fresh [RotateTo] ticked with non-negative deltas keeps the distance
    and the direction chosen by its first update; it is complete exactly
    when the time elapsed, at its speed, covers that distance, and it has
    then put the actor on the end angle and zeroed the angular velocity. *)
Lemma RotateTo_completion_time (sc : Scene) (r : RotateTo.t) (a : Actor)
      (deltas : list Q) :
  RotateTo._started r = false ->
  RotateTo._stopped r = false ->
  0 <= RotateTo._speed r ->
  nonnegative deltas ->
  deltas <> [] ->
  let r0 := RotateTo.start r a in
  let s := ticks sc deltas (r, a) in
  RotateTo._distance (fst s) = RotateTo._distance r0
  /\ RotateTo._direction (fst s) = RotateTo._direction r0
  /\ RotateTo.isComplete (fst s)
     = JS.ge (RotateTo._speed r * (total deltas / 1000))
             (Qabs (RotateTo._distance r0))
  /\ (RotateTo.isComplete (fst s) = true ->
      rotation (snd s) == RotateTo._end r /\ rx (snd s) == 0).
Proof.
  intros Hstarted Hstopped Hspeed Hdeltas Hne r0 s.
  destruct deltas as [| d ds]; [ contradiction Hne; reflexivity | ].
  assert (Hs : s = ticks sc (d :: ds) (r0, a)).
  { unfold s. change (ticks sc (d :: ds) ?x) with (ticks sc ds (tick sc d x)).
    f_equal. unfold tick. cbn [fst snd]. unfold update, RotateTo_Action.
    rewrite RotateTo_update_start by exact Hstarted. reflexivity. }
  inversion Hdeltas as [| d' ds' Hd Hds]; subst d' ds'.
  assert (Hdir := RotateTo_start_direction r a). fold r0 in Hdir.
  assert (Hspeed0 : 0 <= RotateTo._speed r0) by exact Hspeed.
  assert (Hinv : rotating r0 (fst s) (snd s) (0 + total (d :: ds))
                 /\ stopped_by_time r0 (fst s) (0 + total (d :: ds))).
  { rewrite Hs. apply RotateTo_ticks_rotating; try assumption; try lra.
    unfold rotating, r0, RotateTo.start. cbn. rewrite Hstopped.
    repeat (split; [ reflexivity | ]). q_div. ring. }
  destruct Hinv as [Hr Ht].
  assert (Htotal : 0 <= 0 + total (d :: ds))
    by (pose proof (total_nonneg (d :: ds) Hdeltas); lra).
  pose proof (RotateTo_isComplete_stopped r0 _ _ _ Hdir Hspeed0 Htotal Hr Ht)
    as Hc.
  destruct Hr as (H1 & H2 & H3 & H4 & H5 & H6 & H7 & H8).
  split; [ exact H5 | split; [ exact H4 | split ] ].
  - rewrite Hc, Ht. apply Qleb_comp; [ reflexivity | ].
    change (RotateTo._speed r0) with (RotateTo._speed r).
    setoid_replace (0 + total (d :: ds)) with (total (d :: ds)) by ring.
    reflexivity.
  - rewrite Hc. intro Hstop. rewrite Hstop in H8.
    destruct H8 as [_ [Hrot Hrx]]. split; assumption.
Qed.



Lemma test_suite_ticks_nonnegative (deltas : list Q) :
  test_suite_ticks deltas -> nonnegative deltas.
Proof.
  unfold test_suite_ticks, nonnegative. apply Forall_impl.
  intros delta [Hd | [Hd | Hd]]; subst delta; discriminate.
Qed.

(** C4 (amended): for a [RotateTo] from rotation [0] to [Math.PI / 2] at
    [Math.PI / 2] rad/s, ticked in steps of 500, 1000 or 2000 ms, the
    steps of the test-suite: under [ShortestPath] and [Clockwise] the
    distance is [PI/2] and the direction [+1], and the action is complete
    exactly when 1000 ms have been ticked; under [LongestPath] and
    [CounterClockwise] the distance is [3 PI/2] and the direction [-1],
    and the action is complete exactly when 3000 ms have been ticked.  A
    complete action has left the actor at exactly [PI/2] with no angular
    velocity.  With these steps the shadow angle moves by multiples of
    [PI/4] that a double holds exactly, up to the one that completes the
    action; with other steps the doubles round the sum, which can fall
    short of the distance when the time is up. *)
Theorem RotateTo_quarter_turn_paths (ty : RotationType) (deltas : list Q) :
  test_suite_ticks deltas ->
  deltas <> [] ->
  let s := ticks empty_scene deltas (quarter_turn ty) in
  RotateTo._distance (fst s)
  == (if long_way ty then 3 * JS.Math_PI / 2 else JS.Math_PI / 2)
  /\ RotateTo._direction (fst s) == (if long_way ty then -1 else 1)
  /\ RotateTo.isComplete (fst s)
     = JS.ge (total deltas) (if long_way ty then 3000 else 1000)
  /\ (RotateTo.isComplete (fst s) = true ->
      rotation (snd s) == JS.Math_PI / 2 /\ rx (snd s) == 0).
Proof.
  intros Hticks Hne s.
  pose proof (test_suite_ticks_nonnegative deltas Hticks) as Hdeltas.
  destruct (RotateTo_completion_time empty_scene
              (fst (quarter_turn ty)) (snd (quarter_turn ty)) deltas)
    as (Hdist & Hdir & Hc & Hend);
    try assumption; try reflexivity.
  { vm_compute. discriminate. }
  change (ticks empty_scene deltas
                (fst (quarter_turn ty), snd (quarter_turn ty)))
    with s in *.
  assert (Hstart :
            RotateTo._distance
              (RotateTo.start (fst (quarter_turn ty)) (snd (quarter_turn ty)))
            == (if long_way ty then 3 * JS.Math_PI / 2 else JS.Math_PI / 2)
            /\ RotateTo._direction
                 (RotateTo.start (fst (quarter_turn ty))
                                 (snd (quarter_turn ty)))
               == (if long_way ty then -1 else 1)).
  { destruct ty; split; vm_compute; reflexivity. }
  destruct Hstart as [Hdist0 Hdir0].
  rewrite Hdist, Hdir.
  split; [ exact Hdist0 | split; [ exact Hdir0 | split; [ | exact Hend ] ] ].
  rewrite Hc. apply eq_iff_eq_true. rewrite !ge_true, Hdist0.
  change (RotateTo._speed (fst (quarter_turn ty))) with (JS.Math_PI / 2).
  destruct (long_way ty).
  - rewrite Qabs_pos by (vm_compute; discriminate).
    unfold JS.Math_PI. q_div. split; intro; lra.
  - rewrite Qabs_pos by (vm_compute; discriminate).
    unfold JS.Math_PI. q_div. split; intro; lra.
Qed.

(** The theorem on the ticks of the test-suite: 1000 ms, then 2000 ms. *)
Lemma RotateTo_quarter_turn_paths_witness :
  RotateTo.isComplete
    (fst (ticks empty_scene [1000; 2000] (quarter_turn LongestPath)))
  = JS.ge (total [1000; 2000]) 3000.
Proof.
  refine (proj1 (proj2 (proj2 (RotateTo_quarter_turn_paths
                                 LongestPath [1000; 2000] _ _)))).
  - constructor; [right; left; reflexivity|].
    constructor; [right; right; reflexivity | constructor].
  - discriminate.
Defined.

(** C4 as stated fails: the long way round is not complete after 2.5 s of
    ticks at that speed. *)
Lemma RotateTo_long_way_not_complete_after_2500ms :
  total [1000; 1000; 500] == 2500
  /\ RotateTo.isComplete
       (fst (ticks empty_scene [1000; 1000; 500] (quarter_turn LongestPath)))
     = false
  /\ RotateTo.isComplete
       (fst (ticks empty_scene [1000; 1000; 500]
                   (quarter_turn CounterClockwise)))
     = false.
Proof. repeat split; vm_compute; reflexivity. Qed.

(** ** [MoveTo]: no validation of the speed *)

(** The integration step of the engine does not move an actor that has no
    velocity. *)
Lemma integrate_keeps_still : keeps_still integrate.
Proof.
  intros a delta [Hx Hy]. unfold integrate, Vector.eqv. cbn in *.
  rewrite Hx, Hy. split; ring.
Qed.

Lemma MoveTo_stalled_incomplete (origin : Vector) (m : MoveTo.t)
      (a : Actor) :
  stalled origin m a -> MoveTo.isComplete m a = false.
Proof.
  intros (_ & _ & Hassigned & Hstopped & _ & Hpos & Hdist).
  unfold MoveTo.isComplete. rewrite Hassigned, Hstopped. cbn [orb andb].
  apply ge_false.
  rewrite distance_same; [ exact Hdist | exact Hpos ].
Qed.

Section Stalled.

Variable move : Actor -> Q -> Actor.
Hypothesis move_keeps_still : keeps_still move.
Variable sc : Scene.

Lemma MoveTo_tick_stalled (origin : Vector) (delta : Q)
      (s : MoveTo.t * Actor) :
  stalled origin (fst s) (snd s) ->
  stalled origin (fst (tick_with move sc delta s))
          (snd (tick_with move sc delta s)).
Proof.
  destruct s as [m a]. cbn [fst snd]. intro Hs.
  pose proof Hs as (Horigin & Hstarted & Hassigned & Hstopped & Hspeed & Hpos
                    & Hdist).
  unfold tick_with. cbn [fst snd].
  unfold update, MoveTo_Action, MoveTo.update.
  rewrite Hstarted.
  match goal with
  | |- context [MoveTo.isComplete m ?a1] =>
      replace (MoveTo.isComplete m a1) with (MoveTo.isComplete m a)
        by reflexivity
  end.
  rewrite (MoveTo_stalled_incomplete origin m a Hs).
  cbn [fst snd]. unfold stalled.
  repeat (split; [ assumption | ]).
  split; [ | exact Hdist ].
  destruct Hpos as [Hx Hy].
  match goal with
  | |- Vector.eqv (pos (move ?a1 delta)) _ =>
      destruct (move_keeps_still a1 delta) as [Hx' Hy']
  end.
  - split; cbn; rewrite Hspeed; ring.
  - split; [ rewrite Hx' | rewrite Hy' ]; assumption.
Qed.

Lemma MoveTo_ticks_stalled (origin : Vector) (deltas : list Q) :
  forall s : MoveTo.t * Actor,
    stalled origin (fst s) (snd s) ->
    stalled origin (fst (ticks_with move sc deltas s))
            (snd (ticks_with move sc deltas s)).
Proof.
  induction deltas as [| d ds IH]; intros s Hs.
  - exact Hs.
  - change (ticks_with move sc (d :: ds) s)
      with (ticks_with move sc ds (tick_with move sc d s)).
    apply IH. apply MoveTo_tick_stalled. exact Hs.
Qed.

(** The first tick of a fresh [MoveTo] of speed zero leaves the actor in
    place, short of the distance to cover. *)
Lemma MoveTo_first_tick_stalled (delta : Q) (m : MoveTo.t) (a : Actor) :
  MoveTo._started m = false ->
  MoveTo._stopped m = false ->
  MoveTo._speed m == 0 ->
  ~ Vector.eqv (MoveTo._end m) (pos a) ->
  stalled (vec (Vector.x (pos a)) (Vector.y (pos a)))
          (fst (tick_with move sc delta (m, a)))
          (snd (tick_with move sc delta (m, a))).
Proof.
  intros Hstarted Hstopped Hspeed Hne.
  unfold tick_with. cbn [fst snd].
  unfold update, MoveTo_Action, MoveTo.update.
  rewrite Hstarted.
  set (start := vec (Vector.x (pos a)) (Vector.y (pos a))).
  set (m1 := MoveTo.mk _ _ _ _ _ _ _ _).
  assert (Hdist : 0 < Vector.distance start (MoveTo._end m)).
  { apply distance_pos. intros [Hx Hy]. apply Hne.
    split; symmetry; assumption. }
  assert (Hs1 : stalled start m1 a).
  { unfold stalled, m1. cbn. rewrite Hstopped.
    repeat (split; [ reflexivity || assumption | ]).
    split; [ split; reflexivity | exact Hdist ]. }
  match goal with
  | |- context [MoveTo.isComplete m1 ?a1] =>
      replace (MoveTo.isComplete m1 a1) with (MoveTo.isComplete m1 a)
        by reflexivity
  end.
  rewrite (MoveTo_stalled_incomplete start m1 a Hs1).
  cbn [fst snd].
  destruct Hs1 as (H0 & H1 & H2 & H3 & H4 & H5 & H6).
  unfold stalled. repeat (split; [ assumption | ]).
  split; [ | assumption ].
  match goal with
  | |- Vector.eqv (pos (move ?a1 delta)) _ =>
      destruct (move_keeps_still a1 delta) as [Hx' Hy']
  end.
  - split; unfold m1; cbn; rewrite Hspeed; ring.
  - split; [ rewrite Hx' | rewrite Hy' ]; reflexivity.
Qed.

End Stalled.

(** C10: the constructor of [MoveTo] takes any speed, zero and negative
    speeds included, and stores it.  A [MoveTo] of speed zero whose
    destination is not the position of the actor at its first tick is not
    complete after any run of ticks, whatever the engine does between two
    ticks to an actor that has a velocity: the actor stays where it was.
    After [stop()] the action is complete. *)
Theorem MoveTo_zero_speed_never_completes
        (move : Actor -> Q -> Actor) (sc : Scene) (destx desty : Q)
        (a : Actor) (deltas : list Q) :
  keeps_still move ->
  ~ Vector.eqv (vec destx desty) (pos a) ->
  let s := ticks_with move sc deltas (MoveTo.new destx desty 0, a) in
  (forall speed, MoveTo._speed (MoveTo.new destx desty speed) = speed)
  /\ MoveTo.isComplete (fst s) (snd s) = false
  /\ Vector.eqv (pos (snd s)) (pos a)
  /\ MoveTo.isComplete (fst (MoveTo.stop (fst s) (snd s)))
                       (snd (MoveTo.stop (fst s) (snd s))) = true.
Proof.
  intros Hmove Hne s. split; [ reflexivity | ].
  assert (Hstop :
            MoveTo.isComplete (fst (MoveTo.stop (fst s) (snd s)))
                              (snd (MoveTo.stop (fst s) (snd s))) = true)
    by reflexivity.
  destruct deltas as [| d ds].
  - cbn in s. unfold s. cbn [fst snd]. repeat split; try reflexivity.
  - assert (Hs : stalled (vec (Vector.x (pos a)) (Vector.y (pos a)))
                         (fst s) (snd s)).
    { unfold s.
      change (ticks_with move sc (d :: ds) ?x)
        with (ticks_with move sc ds (tick_with move sc d x)).
      apply MoveTo_ticks_stalled; [ exact Hmove | ].
      apply MoveTo_first_tick_stalled; try reflexivity; assumption. }
    split; [ apply (MoveTo_stalled_incomplete _ _ _ Hs) | ].
    split; [ | exact Hstop ].
    destruct Hs as (Horigin & _ & _ & _ & _ & Hpos & _).
    rewrite Horigin in Hpos. exact Hpos.
Qed.

(** The theorem on a fresh actor sent to [(20, 0)] at speed [0], with the
    integration step of the engine between the ticks. *)
Lemma MoveTo_zero_speed_never_completes_witness :
  MoveTo.isComplete
    (fst (ticks empty_scene [500; 500; 1000] (MoveTo.new 20 0 0, Actor_new)))
    (snd (ticks empty_scene [500; 500; 1000] (MoveTo.new 20 0 0, Actor_new)))
  = false.
Proof.
  refine (proj1 (proj2 (MoveTo_zero_speed_never_completes
                          integrate empty_scene 20 0 Actor_new
                          [500; 500; 1000] _ _))).
  - exact integrate_keeps_still.
  - intros [Hx _]. vm_compute in Hx. discriminate Hx.
Defined.

(** ** [RotateBy] against [RotateTo] *)

(** Once started, the two classes run the same code. *)
Lemma RotateBy_update_started (r : RotateBy.t) (a : Actor) (delta : Q) :
  RotateBy._started r = true ->
  RotateTo.update (as_RotateTo r) a delta
  = (as_RotateTo (fst (RotateBy.update r a delta)),
     snd (RotateBy.update r a delta)).
Proof.
  intro Hstarted. unfold RotateTo.update, RotateBy.update.
  cbn [as_RotateTo RotateTo._started]. rewrite Hstarted.
  match goal with
  | |- context [RotateBy.isComplete ?r2] =>
      replace (RotateTo.isComplete _) with (RotateBy.isComplete r2)
        by reflexivity;
      destruct (RotateBy.isComplete r2)
  end; reflexivity.
Qed.

(** Under [ShortestPath] and [LongestPath] the first update of a
    [RotateBy] chooses the path that [RotateTo] chooses. *)
Lemma RotateBy_start_shortest_longest (r : RotateBy.t) (a : Actor) :
  RotateBy._rotationType r = ShortestPath
  \/ RotateBy._rotationType r = LongestPath ->
  RotateTo.start (RotateTo_of r a) a = as_RotateTo (RotateBy.start r a).
Proof.
  intros [Hty | Hty];
    unfold RotateTo.start, RotateBy.start, as_RotateTo, RotateTo_of; cbn;
    rewrite Hty; reflexivity.
Qed.

(** Under [ShortestPath] and [LongestPath], a [RotateBy] and the [RotateTo]
    aimed at the start rotation plus the offset go through the same states
    and drive the actor the same way, tick after tick. *)
Lemma RotateBy_refines_RotateTo_on_shortest_and_longest
      (sc : Scene) (r : RotateBy.t) (a : Actor) (deltas : list Q) :
  RotateBy._started r = false ->
  RotateBy._rotationType r = ShortestPath
  \/ RotateBy._rotationType r = LongestPath ->
  deltas <> [] ->
  let by_ := ticks sc deltas (r, a) in
  let to_ := ticks sc deltas (RotateTo_of r a, a) in
  fst to_ = as_RotateTo (fst by_) /\ snd to_ = snd by_.
Proof.
  intros Hstarted Hty Hne.
  assert (Hrun : forall ds (b : RotateBy.t * Actor),
             RotateBy._started (fst b) = true ->
             ticks sc ds (as_RotateTo (fst b), snd b)
             = (as_RotateTo (fst (ticks sc ds b)), snd (ticks sc ds b))).
  { induction ds as [| d ds IH]; intros [b ab] Hb.
    - reflexivity.
    - cbn [fst snd] in *.
      change (ticks sc (d :: ds) (as_RotateTo b, ab))
        with (ticks sc ds (tick sc d (as_RotateTo b, ab))).
      change (ticks sc (d :: ds) (b, ab))
        with (ticks sc ds (tick sc d (b, ab))).
      assert (Htick : tick sc d (as_RotateTo b, ab)
                      = (as_RotateTo (fst (tick sc d (b, ab))),
                         snd (tick sc d (b, ab)))).
      { unfold tick. cbn [fst snd].
        unfold update, RotateTo_Action, RotateBy_Action.
        rewrite (RotateBy_update_started b ab d Hb).
        destruct (RotateBy.update b ab d). reflexivity. }
      rewrite Htick. apply IH.
      unfold tick. cbn [fst snd].
      unfold update, RotateBy_Action, RotateBy.update.
      rewrite Hb. destruct (RotateBy.isComplete _); exact Hb. }
  destruct deltas as [| d ds]; [ contradiction Hne; reflexivity | ].
  cbv zeta.
  change (ticks sc (d :: ds) ?x) with (ticks sc ds (tick sc d x)).
  assert (Hfirst : tick sc d (RotateTo_of r a, a)
                   = (as_RotateTo (fst (tick sc d (r, a))),
                      snd (tick sc d (r, a)))).
  { unfold tick. cbn [fst snd].
    unfold update, RotateTo_Action, RotateBy_Action.
    rewrite RotateTo_update_start by reflexivity.
    rewrite (RotateBy_start_shortest_longest r a Hty).
    assert (Hby : RotateBy.update r a d
                  = RotateBy.update (RotateBy.start r a) a d).
    { unfold RotateBy.update. rewrite Hstarted. reflexivity. }
    rewrite Hby.
    rewrite (RotateBy_update_started (RotateBy.start r a) a d) by reflexivity.
    destruct (RotateBy.update (RotateBy.start r a) a d). reflexivity. }
  rewrite Hfirst.
  rewrite (Hrun ds (tick sc d (r, a))).
  - split; reflexivity.
  - unfold tick. cbn [fst snd].
    unfold update, RotateBy_Action, RotateBy.update.
    rewrite Hstarted. destruct (RotateBy.isComplete _); reflexivity.
Qed.

(** C3: under [Clockwise] and under [CounterClockwise], a [RotateBy] with
    the offset [-PI/2] does not behave like the [RotateTo] aimed at the
    start rotation plus the offset.  Under [Clockwise] both turn in the
    direction [+1], but [RotateBy] takes the short distance [PI/2] where
    [RotateTo] takes the long distance [3 PI/2]: after 1 s [RotateBy] is
    complete, having turned the actor to [+PI/4] at 500 ms and then put it
    on [-PI/2], while [RotateTo] is still turning.  Under
    [CounterClockwise] both turn in the direction [-1], but [RotateBy]
    takes the long distance and [RotateTo] the short one: after 1 s
    [RotateTo] is complete and [RotateBy] is not. *)
Theorem RotateBy_clockwise_differs_from_RotateTo :
  let offset := - (JS.Math_PI / 2) in
  let speed := JS.Math_PI / 2 in
  let by_ (ty : RotationType) :=
    tick empty_scene 1000 (RotateBy.new offset speed (Some ty), Actor_new) in
  let to_ (ty : RotationType) :=
    tick empty_scene 1000
         (RotateTo.new (rotation Actor_new + offset) speed (Some ty),
          Actor_new) in
  (RotateBy._direction (fst (by_ Clockwise)) == 1
   /\ RotateTo._direction (fst (to_ Clockwise)) == 1
   /\ RotateBy._distance (fst (by_ Clockwise)) == JS.Math_PI / 2
   /\ RotateTo._distance (fst (to_ Clockwise)) == 3 * JS.Math_PI / 2
   /\ RotateBy.isComplete (fst (by_ Clockwise)) = true
   /\ RotateTo.isComplete (fst (to_ Clockwise)) = false
   /\ rotation
        (snd (tick empty_scene 500
                   (RotateBy.new offset speed (Some Clockwise), Actor_new)))
      == JS.Math_PI / 4
   /\ rotation (snd (by_ Clockwise)) == - (JS.Math_PI / 2)
   /\ rotation (snd (to_ Clockwise)) == JS.Math_PI / 2)
  /\ (RotateBy._direction (fst (by_ CounterClockwise)) == -1
      /\ RotateTo._direction (fst (to_ CounterClockwise)) == -1
      /\ RotateBy._distance (fst (by_ CounterClockwise))
         == 3 * JS.Math_PI / 2
      /\ RotateTo._distance (fst (to_ CounterClockwise)) == JS.Math_PI / 2
      /\ RotateBy.isComplete (fst (by_ CounterClockwise)) = false
      /\ RotateTo.isComplete (fst (to_ CounterClockwise)) = true).
Proof. repeat split; vm_compute; reflexivity. Qed.

(** ** The queue: [reset] *)

Section QueueFacts.

Context {A : Type} `{Action A}.

(** One operation keeps the order: completed actions, then pending ones. *)
Lemma step_insertion_order (w : World A) (op : Op) :
  ActionQueue._completedActions (w_queue (step w op))
    ++ ActionQueue._actions (w_queue (step w op))
  = (ActionQueue._completedActions (w_queue w)
       ++ ActionQueue._actions (w_queue w)) ++ added [op].
Proof.
  destruct op as [action | sc delta]; simpl.
  - rewrite app_assoc. reflexivity.
  - rewrite app_nil_r. unfold ActionQueue.update.
    destruct (ActionQueue._actions (w_queue w)) as [| r rest] eqn:Hq.
    + simpl. try rewrite Hq. reflexivity.
    + destruct (update (w_heap w r) sc (w_actor w) delta) as [obj a'].
      destruct (isComplete _ a'); simpl.
      * rewrite <- app_assoc. reflexivity.
      * try rewrite Hq. reflexivity.
Qed.

Lemma added_app (ops1 ops2 : list Op) :
  added (ops1 ++ ops2) = added ops1 ++ added ops2.
Proof.
  induction ops1 as [| [action | sc delta] ops1 IH]; simpl.
  - reflexivity.
  - rewrite IH. reflexivity.
  - exact IH.
Qed.

(** The actions of a queue, completed ones first, are the actions it had
    followed by the actions added since, in the order of the calls. *)
Lemma run_insertion_order (ops : list Op) :
  forall w : World A,
    ActionQueue._completedActions (w_queue (run ops w))
      ++ ActionQueue._actions (w_queue (run ops w))
    = (ActionQueue._completedActions (w_queue w)
         ++ ActionQueue._actions (w_queue w)) ++ added ops.
Proof.
  induction ops as [| op ops IH]; intro w.
  - simpl. rewrite app_nil_r. reflexivity.
  - change (run (op :: ops) w) with (run ops (step w op)).
    rewrite IH, step_insertion_order.
    change (op :: ops) with ([op] ++ ops). rewrite added_app, app_assoc.
    reflexivity.
Qed.

Hypothesis reset_idempotent : forall obj : A, reset (reset obj) = reset obj.

Lemma write_same (h : ActionQueue.Heap) (r : Ref) (obj : A) :
  ActionQueue.write h r obj r = obj.
Proof. unfold ActionQueue.write. rewrite Nat.eqb_refl. reflexivity. Qed.

Lemma write_other (h : ActionQueue.Heap) (r r' : Ref) (obj : A) :
  r' <> r -> ActionQueue.write h r obj r' = h r'.
Proof.
  intro Hne. unfold ActionQueue.write.
  destruct (Nat.eqb_spec r' r) as [Heq | _]; [ contradiction | reflexivity ].
Qed.

(** The loop of [reset] leaves alone the objects that are not in the
    list. *)
Lemma reset_each_outside (l : list Ref) :
  forall (h : ActionQueue.Heap) (r : Ref),
    ~ In r l -> ActionQueue.reset_each l h r = h r.
Proof.
  induction l as [| x l IH]; intros h r Hr.
  - reflexivity.
  - change (ActionQueue.reset_each (x :: l) h)
      with (ActionQueue.reset_each l (ActionQueue.write h x (reset (h x)))).
    rewrite IH by (intro Hin; apply Hr; right; exact Hin).
    apply write_other. intro Heq. apply Hr. left. symmetry. exact Heq.
Qed.

(** The loop of [reset] has called [reset] on every object of the list. *)
Lemma reset_each_inside (l : list Ref) :
  forall (h : ActionQueue.Heap) (r : Ref),
    In r l -> ActionQueue.reset_each l h r = reset (h r).
Proof.
  induction l as [| x l IH]; intros h r Hr.
  - contradiction.
  - change (ActionQueue.reset_each (x :: l) h)
      with (ActionQueue.reset_each l (ActionQueue.write h x (reset (h x)))).
    destruct (in_dec Nat.eq_dec r l) as [Hin | Hout].
    + rewrite IH by exact Hin.
      destruct (Nat.eq_dec r x) as [Heq | Hne].
      * subst x. rewrite write_same. apply reset_idempotent.
      * rewrite write_other by exact Hne. reflexivity.
    + rewrite reset_each_outside by exact Hout.
      destruct Hr as [Heq | Hin]; [ | contradiction ].
      subst x. apply write_same.
Qed.

End QueueFacts.

Lemma AnyAction_reset_idempotent (obj : AnyAction) :
  reset (reset obj) = reset obj.
Proof. destruct obj; reflexivity. Qed.

(** C1 (amended): after any sequence of [add] and tick operations on a
    new queue, the completed actions followed by the pending ones are the
    actions added, in the order of the calls.  [reset] makes the pending
    list the old pending list followed by the old completed list: every
    action added, each once per call of [add], and in the order of the
    calls whenever the pending list or the completed list was empty.
    [reset] has been called on every one of these actions and on no
    other, and the completed list is left empty. *)
Theorem ActionQueue_reset_after_run
        (h : Ref -> AnyAction) (a : Actor) (ops : list Op) :
  let w := run ops (mkWorld ActionQueue.new h a) in
  let q := w_queue w in
  let q' := fst (ActionQueue.reset q (w_heap w)) in
  let h' := snd (ActionQueue.reset q (w_heap w)) in
  ActionQueue._completedActions q ++ ActionQueue._actions q = added ops
  /\ ActionQueue._actions q'
     = ActionQueue._actions q ++ ActionQueue._completedActions q
  /\ ActionQueue._completedActions q' = []
  /\ Permutation (ActionQueue._actions q') (added ops)
  /\ (ActionQueue._actions q = [] \/ ActionQueue._completedActions q = [] ->
      ActionQueue._actions q' = added ops)
  /\ (forall r, In r (added ops) -> h' r = reset (w_heap w r))
  /\ (forall r, ~ In r (added ops) -> h' r = w_heap w r).
Proof.
  intros w q q' h'.
  assert (Horder : ActionQueue._completedActions q ++ ActionQueue._actions q
                   = added ops)
    by (apply (run_insertion_order ops (mkWorld ActionQueue.new h a))).
  assert (Hperm : Permutation (ActionQueue._actions q') (added ops)).
  { rewrite <- Horder. apply Permutation_app_comm. }
  split; [ exact Horder | ].
  split; [ reflexivity | ].
  split; [ reflexivity | ].
  split; [ exact Hperm | ].
  split; [ | split ].
  - intros [Hq | Hq]; rewrite <- Horder; unfold q'; simpl;
      unfold ActionQueue.getActions; rewrite Hq.
    + rewrite app_nil_r. reflexivity.
    + rewrite app_nil_r. reflexivity.
  - intros r Hr. unfold h'. simpl.
    apply (reset_each_inside AnyAction_reset_idempotent).
    apply (Permutation_in r (Permutation_sym Hperm)). exact Hr.
  - intros r Hr. unfold h'. simpl. apply reset_each_outside.
    intro Hin. apply Hr. apply (Permutation_in r Hperm). exact Hin.
Qed.

(** C1 as stated fails: with two actions added and the first one completed
    by a tick, [reset] puts the second action before the first. *)
Lemma ActionQueue_reset_reorders :
  let ops := [Add 0%nat; Add 1%nat; Tick empty_scene 10] in
  let w := run ops (mkWorld ActionQueue.new two_actions Actor_new) in
  added ops = [0%nat; 1%nat]
  /\ ActionQueue._actions (w_queue w) = [1%nat]
  /\ ActionQueue._completedActions (w_queue w) = [0%nat]
  /\ ActionQueue._actions (fst (ActionQueue.reset (w_queue w) (w_heap w)))
     = [1%nat; 0%nat]
  /\ ActionQueue._actions (fst (ActionQueue.reset (w_queue w) (w_heap w)))
     <> added ops.
Proof. repeat split. intro H. discriminate H. Qed.

(** ** Updates of a complete action *)
















(** *** All the classes *)











(** [Repeat] is not among them: its [update] runs the queue whatever
    [_repeat] is.  A [Repeat] of one repetition over a [Blink] is complete
    after the update that starts the second round, which hides the actor;
    the update that follows shows the actor again. *)
Lemma Repeat_update_after_completion_changes_the_actor :
  let h0 : Ref -> AnyAction := fun _ => ABlink (Blink.new 100 100 None) in
  let r0 := Repeat.new h0 1 [0%nat] in
  let st := mkStage Actor_new (snd r0) ActionQueue.new false in
  let s3 := Behaviour_updates empty_scene [100; 100; 100]
              (ARepeat (fst r0), st) in
  let s4 := Behaviour_update (fst s3) (snd s3) empty_scene 100 in
  Behaviour_isComplete (ARepeat (fst r0)) st = false
  /\ Behaviour_isComplete (fst s3) (snd s3) = true
  /\ visible (st_actor (snd s3)) = false
  /\ visible (st_actor (snd s4)) = true.
Proof. repeat split; vm_compute; reflexivity. Qed.

(** Nor is [CallMethod]: every [update] calls the method. *)
Lemma CallMethod_update_after_completion_calls_method
      (sc : Scene) (c : CallMethod.t) (a : Actor) (delta delta' : Q) :
  let s1 := update c sc a delta in
  isComplete (fst s1) (snd s1) = true
  /\ snd (update (fst s1) sc (snd s1) delta')
     = CallMethod._method c (CallMethod._method c a).
Proof. split; reflexivity. Qed.


(** ** Updates after [stop] *)

Ltac velocities :=
  unfold same_velocities, Vector.eqv;
  repeat match goal with
    | |- context [if ?c then _ else _] => destruct c
    end;
  cbn; repeat split; reflexivity.

(** For the classes of [settles], an [update] that follows [stop()] leaves
    the velocity, the angular velocity and the scale velocity of the actor
    as [stop] left them, and the action complete. *)
Lemma AnyAction_update_after_stop
      (sc : Scene) (b : AnyAction) (a : Actor) (delta : Q) :
  settles b = true ->
  let s := stop b a in
  let s' := update (fst s) sc (snd s) delta in
  update_after_stop_is_noop b sc a delta
  /\ isComplete (fst s') (snd s') = true.
Proof.
  intro Hb. unfold update_after_stop_is_noop.
  destruct b as [e | m | m | f | m | r | r | s | s | d | b | f | c];
    try discriminate Hb; clear Hb;
    cbn [stop update isComplete AnyAction_Action lift fst snd
         MoveTo_Action MoveBy_Action Follow_Action Meet_Action
         RotateTo_Action RotateBy_Action ScaleTo_Action ScaleBy_Action
         Delay_Action Blink_Action Fade_Action].
  - unfold MoveTo.update, MoveTo.stop, MoveTo.isComplete.
    destruct (MoveTo._started m); cbn; split;
      reflexivity || velocities.
  - unfold MoveBy.update, MoveBy.stop, MoveBy.isComplete.
    destruct (MoveBy._started m); cbn; split;
      reflexivity || velocities.
  - unfold Follow.update, Follow.stop, Follow.isComplete.
    destruct (Follow._started f); cbn; split;
      reflexivity || velocities.
  - unfold Meet.update, Meet.stop, Meet.isComplete.
    destruct (Meet._started m); cbn; split;
      reflexivity || velocities.
  - unfold RotateTo.update, RotateTo.stop, RotateTo.isComplete.
    destruct (RotateTo._started r); cbn; split;
      reflexivity || velocities.
  - unfold RotateBy.update, RotateBy.stop, RotateBy.isComplete.
    destruct (RotateBy._started r); cbn; split;
      reflexivity || velocities.
  - unfold ScaleTo.update, ScaleTo.stop, ScaleTo.isComplete.
    destruct (ScaleTo._started s); cbn; split;
      reflexivity || velocities.
  - unfold ScaleBy.update, ScaleBy.stop, ScaleBy.isComplete.
    destruct (ScaleBy._started s); cbn; split;
      reflexivity || velocities.
  - split; [ velocities | reflexivity ].
  - unfold Blink.update, Blink.stop, Blink.isComplete. cbn. split.
    + repeat destruct (JS.ge _ _); velocities.
    + reflexivity.
  - unfold Fade.update, Fade.stop, Fade.isComplete.
    destruct (Fade._started f); cbn; split;
      try reflexivity; destruct (JS.gt _ _); velocities.
Qed.

(** C5 (amended): for every class of [Action.ts] but [EaseTo],
    [CallMethod] and [Repeat], that is for [MoveTo], [MoveBy], [Follow],
    [Meet], [RotateTo], [RotateBy], [ScaleTo], [ScaleBy], [Delay], [Blink],
    [Fade], [Die] and [RepeatForever]: an [update] that follows [stop()]
    leaves the velocity, the angular velocity and the scale velocity of
    the actor as [stop] left them, and the action complete.  A [Die] is
    taken in the queue that runs it, or in a queue that runs nothing:
    stopped or not, its [update] clears the queue of the actor and kills
    the actor. *)
Theorem update_after_stop_keeps_velocities
        (sc : Scene) (b : Behaviour) (st : Stage) (delta : Q) :
  heeds b = true ->
  in_its_queue b st ->
  let s := Behaviour_stop b st in
  let s' := Behaviour_update (fst s) (snd s) sc delta in
  same_velocities (st_actor (snd s)) (st_actor (snd s'))
  /\ Behaviour_isComplete (fst s') (snd s') = true.
Proof.
  intros Hb Hq. cbv zeta.
  destruct b as [b | d self | r | r]; try discriminate Hb.
  - cbn [heeds] in Hb.
    pose proof (AnyAction_update_after_stop sc b (st_actor st) delta Hb)
      as Hplain.
    cbv zeta in Hplain. unfold update_after_stop_is_noop in Hplain.
    unfold Behaviour_stop.
    destruct (stop b (st_actor st)) as [b1 a1]. cbn [fst snd] in *.
    unfold Behaviour_update. cbn [st_actor].
    destruct (update b1 sc a1 delta) as [b2 a2].
    cbn [fst snd st_actor Behaviour_isComplete] in *. exact Hplain.
  - cbn [in_its_queue] in Hq.
    unfold Behaviour_stop, Behaviour_update, Die.update, Die.clearActions,
      ActionQueue.clearActions.
    cbn [fst snd].
    destruct Hq as [Hq | Hq]; rewrite Hq.
    + cbn. repeat split; reflexivity.
    + rewrite Nat.eqb_refl. cbn. repeat split; reflexivity.
  - unfold Behaviour_stop, RepeatForever.stop.
    destruct (ActionQueue.clearActions (RepeatForever._actionQueue r)
                (st_heap st) (st_actor st)) as [[q1 h1] a1].
    cbn [fst snd]. unfold Behaviour_update, RepeatForever.update.
    cbn [RepeatForever._stopped st_actor st_heap fst snd
         Behaviour_isComplete RepeatForever.isComplete].
    repeat split; reflexivity.
Qed.

(** The theorem on a [RepeatForever] over a [MoveTo] that drives the
    actor at velocity [10]: [stop] zeroes the velocity, and the update
    that follows leaves it zeroed. *)
Lemma update_after_stop_keeps_velocities_witness :
  let h0 : Ref -> AnyAction := fun _ => AMoveTo (MoveTo.new 20 0 10) in
  let r0 := RepeatForever.new h0 [0%nat] in
  let s1 := Behaviour_update (ARepeatForever (fst r0))
              (mkStage Actor_new (snd r0) ActionQueue.new false)
              empty_scene 500 in
  let s := Behaviour_stop (fst s1) (snd s1) in
  let s' := Behaviour_update (fst s) (snd s) empty_scene 500 in
  Vector.x (vel (st_actor (snd s1))) == 10
  /\ Vector.x (vel (st_actor (snd s))) == 0
  /\ same_velocities (st_actor (snd s)) (st_actor (snd s')).
Proof.
  cbv zeta.
  split; [vm_compute; reflexivity|].
  split; [vm_compute; reflexivity|].
  refine (proj1 (update_after_stop_keeps_velocities empty_scene
            (fst (Behaviour_update
                    (ARepeatForever
                       (fst (RepeatForever.new
                               (fun _ => AMoveTo (MoveTo.new 20 0 10))
                               [0%nat])))
                    (mkStage Actor_new
                       (snd (RepeatForever.new
                               (fun _ => AMoveTo (MoveTo.new 20 0 10))
                               [0%nat]))
                       ActionQueue.new false)
                    empty_scene 500))
            (snd (Behaviour_update
                    (ARepeatForever
                       (fst (RepeatForever.new
                               (fun _ => AMoveTo (MoveTo.new 20 0 10))
                               [0%nat])))
                    (mkStage Actor_new
                       (snd (RepeatForever.new
                               (fun _ => AMoveTo (MoveTo.new 20 0 10))
                               [0%nat]))
                       ActionQueue.new false)
                    empty_scene 500))
            500 _ _)).
  - reflexivity.
  - exact I.
Defined.

(** C5 as stated fails: the [update] of an [EaseTo] that has been stopped
    gives the actor the velocity of the easing curve. *)
Lemma EaseTo_update_after_stop_sets_velocity :
  let b := AEaseTo (EaseTo.new 100 0 1000 Linear) in
  let s := stop b Actor_new in
  Vector.x (vel (snd s)) == 0
  /\ Vector.x (vel (snd (update (fst s) empty_scene (snd s) 500))) == 100
  /\ ~ update_after_stop_is_noop b empty_scene Actor_new 500.
Proof.
  split; [ reflexivity | ].
  split; [ vm_compute; reflexivity | ].
  intros [[Hx _] _]. vm_compute in Hx. discriminate Hx.
Qed.

(** The [update] of a [CallMethod] that has been stopped calls the method
    all the same. *)
Lemma CallMethod_update_after_stop_calls_method
      (sc : Scene) (c : CallMethod.t) (a : Actor) (delta : Q) :
  let s := stop c a in
  snd (update (fst s) sc (snd s) delta) = CallMethod._method c a.
Proof. reflexivity. Qed.

Lemma CallMethod_update_after_stop_example :
  let s := stop (CallMethod.new hide) Actor_new in
  visible (snd s) = true
  /\ visible (snd (update (fst s) empty_scene (snd s) 20)) = false.
Proof. split; reflexivity. Qed.

(** Nor does [Repeat.update] look at [_stopped]: a [Repeat] over a
    [MoveTo], stopped before its first update, is complete, and its next
    [update] sets the actor moving. *)
Lemma Repeat_update_after_stop_drives_the_actor :
  let h0 : Ref -> AnyAction := fun _ => AMoveTo (MoveTo.new 20 0 10) in
  let r0 := Repeat.new h0 3 [0%nat] in
  let st := mkStage Actor_new (snd r0) ActionQueue.new false in
  let s := Behaviour_stop (ARepeat (fst r0)) st in
  let s' := Behaviour_update (fst s) (snd s) empty_scene 500 in
  Behaviour_isComplete (fst s) (snd s) = true
  /\ Vector.x (vel (st_actor (snd s))) == 0
  /\ Vector.x (vel (st_actor (snd s'))) == 10
  /\ ~ same_velocities (st_actor (snd s)) (st_actor (snd s')).
Proof.
  cbv zeta.
  split; [reflexivity|].
  split; [vm_compute; reflexivity|].
  split; [vm_compute; reflexivity|].
  intros [[Hx _] _]. vm_compute in Hx. discriminate Hx.
Qed.

(** [Die.stop] does nothing, and [Die.update] clears the queue of the
    actor all the same: updated while that queue runs a [MoveTo], a [Die]
    stops the [MoveTo], which zeroes the velocity of the actor, empties
    the queue and kills the actor. *)
Lemma Die_update_stops_the_current_action :
  let s0 := tick empty_scene 500 (MoveTo.new 20 0 10, Actor_new) in
  let st := mkStage (snd s0) (fun _ => AMoveTo (fst s0))
                    (ActionQueue.mk [0%nat] (Some 0%nat) []) false in
  let s := Behaviour_stop (ADie Die.new 1%nat) st in
  let s' := Behaviour_update (fst s) (snd s) empty_scene 500 in
  Vector.x (vel (st_actor (snd s))) == 10
  /\ Vector.x (vel (st_actor (snd s'))) == 0
  /\ st_killed (snd s') = true
  /\ ActionQueue.getActions (st_queue (snd s')) = [].
Proof. repeat split; vm_compute; reflexivity. Qed.

(** Once its timer has reached the duration, every [update] of an
    [EaseTo] puts the actor on the end position with no velocity. *)
Lemma EaseTo_update_after_duration (e : EaseTo.t) (a : Actor) (delta : Q) :
  EaseTo._initialized e = true ->
  EaseTo._lerpDuration e <= EaseTo._currentLerpTime e + delta ->
  snd (EaseTo.update e a delta)
  = set_vel (set_pos a (vec (Vector.x (EaseTo._lerpEnd e))
                            (Vector.y (EaseTo._lerpEnd e))))
            Vector.Zero.
Proof.
  intros Hinit Htime. unfold EaseTo.update. rewrite Hinit.
  cbn [EaseTo._currentLerpTime EaseTo._lerpDuration EaseTo._lerpEnd].
  assert (Hlt : JS.lt (EaseTo._currentLerpTime e + delta)
                      (EaseTo._lerpDuration e) = false)
    by (apply lt_false; exact Htime).
  rewrite Hlt. reflexivity.
Qed.

(** A new [EaseTo] is complete before its first [update]: [_distance] is
    initialised to [0]. *)
Lemma EaseTo_complete_before_first_update :
  let e := EaseTo.new 100 0 1000 Linear in
  EaseTo.isComplete e Actor_new = true
  /\ Vector.x (vel (snd (EaseTo.update e Actor_new 500))) == 100.
Proof. split; vm_compute; reflexivity. Qed.

(** ** The test-suite, replayed

    The expectations of [ActionSpec.ts] that involve the classes embedded
    here and a single actor, checked on the embedding. *)

(** [moveTo]: "can be moved to a location at a speed". *)
Example test_moveTo :
  let w := chained [AMoveTo (MoveTo.new 100 0 100)] Actor_new in
  pos_x (frames [500] w) == 50 /\ pos_x (frames [500; 500] w) == 100.
Proof. split; vm_compute; reflexivity. Qed.

(** [moveTo]: "can be stopped". *)
Example test_moveTo_stopped :
  let w := chained [AMoveTo (MoveTo.new 20 0 10)] Actor_new in
  let w' := clearActions (frames [500] w) in
  pos_x w' == 5 /\ pos_x (frames [500] w') == 5.
Proof. split; vm_compute; reflexivity. Qed.

(** [delay]: "can be delay an action by an amount off time". *)
Example test_delay :
  let w := chained [ADelay (Delay.new 1000); AMoveTo (MoveTo.new 20 0 20)]
                   Actor_new in
  pos_x (frames [1000] w) == 0 /\ pos_x (frames [1000; 1000] w) == 20.
Proof. split; vm_compute; reflexivity. Qed.

(** [blink]: "can blink on and off". *)
Example test_blink :
  let w := chained [ABlink (Blink.new 200 200 None)] Actor_new in
  visible (w_actor (frames [200] w)) = false
  /\ visible (w_actor (frames [200; 250] w)) = true.
Proof. split; vm_compute; reflexivity. Qed.

(** [scaleTo]: "can be scaled at a speed". *)
Example test_scaleTo :
  let w := chained [AScaleTo (ScaleTo.new 2 4 (1 # 2) (1 # 2))] Actor_new in
  Vector.eqv (scale (w_actor (frames [1000] w))) (vec (3 # 2) (3 # 2))
  /\ Vector.eqv (scale (w_actor (frames [1000; 1000] w))) (vec 2 2)
  /\ Vector.eqv (scale (w_actor (frames [1000; 1000; 1000] w)))
                (vec 2 (5 # 2)).
Proof. repeat split; vm_compute; reflexivity. Qed.

(** [scaleBy]: "can be scaled by a certain time". *)
Example test_scaleBy :
  let w := chained [AScaleBy (ScaleBy.new 4 4 4)] Actor_new in
  Vector.eqv (scale (w_actor (frames [500] w))) (vec 3 3)
  /\ Vector.eqv (scale (w_actor (frames [500; 500; 1] w))) (vec 5 5).
Proof. repeat split; vm_compute; reflexivity. Qed.

(** [moveBy]: "can be moved to a location by a certain time". *)
Example test_moveBy :
  let m := match MoveBy.new 100 0 50 with
           | Ok m => [AMoveBy m]
           | Throw _ => []
           end in
  pos_x (frames [1000] (chained m Actor_new)) == 50.
Proof. vm_compute. reflexivity. Qed.

(** [fade]: "can go from 1 from 0". *)
Example test_fade :
  let w := chained [AFade (Fade.new 1 200)] (set_opacity Actor_new 0) in
  opacity (w_actor (frames (repeat 20 10) w)) == 1.
Proof. vm_compute. reflexivity. Qed.

(** [fade]: "can go back and forth from 0 to 1". *)
Example test_fade_back_and_forth :
  let w := chained [AFade (Fade.new 1 200); AFade (Fade.new 0 200)]
                   (set_opacity Actor_new 0) in
  opacity (w_actor (frames (repeat 20 20) w)) == 0.
Proof. vm_compute. reflexivity. Qed.

(** [rotateTo]: "can be rotated to an angle at a speed via ShortestPath". *)
Example test_rotateTo :
  let half_pi := JS.Math_PI / 2 in
  let w :=
    chained [ARotateTo (RotateTo.new half_pi half_pi None)] Actor_new in
  rotation (w_actor (frames [500] w)) == JS.Math_PI / 4
  /\ rotation (w_actor (frames [500; 500] w)) == half_pi
  /\ rx (w_actor (frames [500; 500; 500] w)) == 0.
Proof. repeat split; vm_compute; reflexivity. Qed.

(** [rotateTo]: "can be rotated to an angle at a speed via LongestPath";
    the test-suite reads the rotation modulo a full turn. *)
Example test_rotateTo_longest :
  let half_pi := JS.Math_PI / 2 in
  let w :=
    chained [ARotateTo (RotateTo.new half_pi half_pi (Some LongestPath))]
            Actor_new in
  rotation (w_actor (frames [1000] w)) == - half_pi
  /\ rotation (w_actor (frames [1000; 2000] w)) == half_pi
  /\ rotation (w_actor (frames [1000; 2000; 500] w)) == half_pi
  /\ rx (w_actor (frames [1000; 2000; 500] w)) == 0.
Proof. repeat split; vm_compute; reflexivity. Qed.

(** [rotateBy]: "can be rotated to an angle by a certain time via
    ShortestPath". *)
Example test_rotateBy :
  let w :=
    chained [ARotateBy (RotateBy.new (JS.Math_PI / 2) (JS.Math_PI / 4) None)]
            Actor_new in
  rotation (w_actor (frames [1000] w)) == JS.Math_PI / 4
  /\ rotation (w_actor (frames [1000; 1000] w)) == JS.Math_PI / 2
  /\ rx (w_actor (frames [1000; 1000; 500] w)) == 0.
Proof. repeat split; vm_compute; reflexivity. Qed.

(** [easeTo], with a linear easing function in place of the cubic one of
    the test-suite. *)
Example test_easeTo_linear :
  let w := chained [AEaseTo (EaseTo.new 100 0 1000 Linear)] Actor_new in
  pos_x (frames [500] w) == 50
  /\ pos_x (frames [500; 500] w) == 100
  /\ Vector.eqv (vel (w_actor (frames [500; 500] w))) (vec 0 0).
Proof. repeat split; vm_compute; reflexivity. Qed.

(** * More of [Action.ts] *)

(** ** The queue: [remove], [update], [clearActions] *)

(** X1: [remove] of an action that is pending drops the first occurrence
    of that action in the pending list and nothing else: the actions
    before and after it keep their order, the current action and the
    completed actions are left alone.  So [remove] after [add] of an action
    that was not pending gives the queue back. *)
Theorem ActionQueue_remove_drops_the_first_occurrence
        (q : ActionQueue.t) (action : Ref) (l1 l2 : list Ref) :
  ActionQueue._actions q = l1 ++ action :: l2 ->
  ~ In action l1 ->
  ActionQueue.remove q action
  = ActionQueue.mk (l1 ++ l2) (ActionQueue._currentAction q)
      (ActionQueue._completedActions q).
Proof.
  intros Hq Hl1.
  pose proof (ActionQueue_remove_present q action l1 l2 Hq Hl1) as Hr.
  unfold ActionQueue.remove in *. cbn [ActionQueue._actions] in Hr.
  f_equal. exact Hr.
Qed.

Lemma ActionQueue_remove_drops_the_first_occurrence_witness :
  ActionQueue.remove
    (ActionQueue.add (ActionQueue.mk [1%nat; 2%nat] (Some 0%nat) [0%nat])
                     3%nat) 3%nat
  = ActionQueue.mk [1%nat; 2%nat] (Some 0%nat) [0%nat].
Proof.
  refine (ActionQueue_remove_drops_the_first_occurrence
            (ActionQueue.add
               (ActionQueue.mk [1%nat; 2%nat] (Some 0%nat) [0%nat]) 3%nat)
            3%nat [1%nat; 2%nat] [] eq_refl _).
  cbn. intros [H | [H | H]]; try discriminate H; exact H.
Defined.

(** X2: [remove] of an action that is not pending (an action that was
    never added, or one that has completed) drops the last pending action,
    whatever it is: [indexOf] answers [-1] and [splice(-1, 1)] counts from
    the end.  The current action and the completed actions are left
    alone. *)
Theorem ActionQueue_remove_of_an_absent_action_drops_the_last
        (q : ActionQueue.t) (action : Ref) :
  ~ In action (ActionQueue._actions q) ->
  ActionQueue.remove q action
  = ActionQueue.mk (removelast (ActionQueue._actions q))
      (ActionQueue._currentAction q) (ActionQueue._completedActions q).
Proof.
  intro Hq.
  pose proof (ActionQueue_remove_absent q action Hq) as Hr.
  unfold ActionQueue.remove in *. cbn [ActionQueue._actions] in Hr.
  f_equal. exact Hr.
Qed.

Lemma ActionQueue_remove_of_an_absent_action_drops_the_last_witness :
  ActionQueue.remove (ActionQueue.mk [1%nat; 2%nat] (Some 0%nat) [0%nat])
                     0%nat
  = ActionQueue.mk [1%nat] (Some 0%nat) [0%nat].
Proof.
  refine (ActionQueue_remove_of_an_absent_action_drops_the_last
            (ActionQueue.mk [1%nat; 2%nat] (Some 0%nat) [0%nat]) 0%nat _).
  cbn. intros [H | [H | H]]; try discriminate H; exact H.
Defined.

Lemma run_Add {A : Type} `{Action A} (actions : list Ref) :
  forall (q : ActionQueue.t) (h : ActionQueue.Heap) (a : Actor),
    run (map Add actions) (mkWorld q h a)
    = mkWorld (ActionQueue.mk (ActionQueue._actions q ++ actions)
                 (ActionQueue._currentAction q)
                 (ActionQueue._completedActions q)) h a.
Proof.
  induction actions as [|r l IH]; intros q h a.
  - cbn. rewrite app_nil_r. destruct q; reflexivity.
  - change (run (map Add (r :: l)) ?w) with (run (map Add l) (step w (Add r))).
    cbn [step w_queue w_heap w_actor]. rewrite IH.
    cbn [ActionQueue.add ActionQueue._actions ActionQueue._currentAction
         ActionQueue._completedActions].
    rewrite <- app_assoc. reflexivity.
Qed.

Lemma callbacks_run (sc : Scene) (h0 : @ActionQueue.Heap CallMethod.t)
      (deltas : list Q) :
  forall (done todo : list Ref) (cur : option Ref)
         (h : @ActionQueue.Heap CallMethod.t) (a : Actor),
    (forall r, CallMethod._method (h r) = CallMethod._method (h0 r)) ->
    let w := run (map (Tick sc) deltas)
                 (mkWorld (ActionQueue.mk todo cur done) h a) in
    ActionQueue._actions (w_queue w) = skipn (List.length deltas) todo
    /\ ActionQueue._completedActions (w_queue w)
       = done ++ firstn (List.length deltas) todo
    /\ w_actor w = call_per_frame h0 todo deltas a.
Proof.
  induction deltas as [|d ds IH]; intros done todo cur h a Hm; cbv zeta.
  - cbn. rewrite app_nil_r. repeat split.
  - change (run (map (Tick sc) (d :: ds)) ?w)
      with (run (map (Tick sc) ds) (step w (Tick sc d))).
    destruct todo as [|r todo].
    + cbn [step w_queue w_heap w_actor ActionQueue.update
           ActionQueue._actions].
      destruct (IH done [] cur h (integrate a d) Hm) as (H1 & H2 & H3).
      rewrite H1, H2, H3. cbn [List.length skipn firstn call_per_frame].
      destruct (List.length ds); repeat split.
    + cbn [step w_queue w_heap w_actor]. unfold ActionQueue.update.
      cbn [ActionQueue._actions ActionQueue._completedActions].
      cbn [update CallMethod_Action CallMethod.update].
      rewrite write_same.
      cbn [isComplete CallMethod_Action CallMethod.isComplete
           CallMethod._hasBeenCalled].
      match goal with
      | |- context [mkWorld (ActionQueue.mk todo ?c ?dn) ?h' ?a'] =>
          destruct (IH dn todo c h' a') as (H1 & H2 & H3)
      end.
      { intro r'. unfold ActionQueue.write.
        destruct (Nat.eqb_spec r' r) as [->|]; [|apply Hm].
        cbn [CallMethod._method]. apply Hm. }
      rewrite H1, H2, H3. cbn [List.length skipn firstn call_per_frame].
      rewrite <- app_assoc, Hm. repeat split.
Qed.

(** X3: a queue to which [CallMethod] actions have been added runs one of
    them per frame, in the order of the calls of [add]: the frame number
    [i] calls the method of the action number [i], once, and retires the
    action; the frames after the last action call nothing.  This holds when
    the same action has been added more than once. *)
Theorem queue_of_callbacks_calls_each_once_in_order
        (sc : Scene) (h : @ActionQueue.Heap CallMethod.t)
        (actions : list Ref) (a : Actor) (deltas : list Q) :
  let w := run (map Add actions ++ map (Tick sc) deltas)
               (mkWorld ActionQueue.new h a) in
  ActionQueue._actions (w_queue w) = skipn (List.length deltas) actions
  /\ ActionQueue._completedActions (w_queue w)
     = firstn (List.length deltas) actions
  /\ w_actor w = call_per_frame h actions deltas a.
Proof.
  cbv zeta. unfold run. rewrite fold_left_app.
  change (fold_left step (map Add actions) ?w) with (run (map Add actions) w).
  rewrite run_Add. cbn [ActionQueue.new ActionQueue._actions
    ActionQueue._currentAction ActionQueue._completedActions app].
  apply (callbacks_run sc h deltas [] actions None h a).
  reflexivity.
Qed.

Lemma Follow_update_not_stopped (f : Follow.t) (sc : Scene) (a : Actor)
      (delta : Q) :
  Follow._stopped f = false ->
  Follow._stopped (fst (Follow.update f sc a delta)) = false.
Proof.
  intro Hs. unfold Follow.update.
  match goal with
  | |- context [if Follow.isComplete ?f2 then _ else _] =>
      assert (Hc : Follow._stopped f2 = false)
  end.
  { cbn [Follow._stopped]. destruct (Follow._started f); exact Hs. }
  unfold Follow.isComplete. rewrite Hc. cbn [fst]. exact Hc.
Qed.

(** X4: a [Follow] that has not been stopped never completes, so it stays
    at the head of the queue for ever: whatever the frames, the pending and
    the completed lists are as they were, and no action behind it is ever
    updated. *)
Theorem Follow_blocks_the_queue
        (sc : Scene) (w : World AnyAction) (r : Ref) (rest : list Ref)
        (f : Follow.t) (deltas : list Q) :
  ActionQueue._actions (w_queue w) = r :: rest ->
  w_heap w r = AFollow f ->
  Follow._stopped f = false ->
  let w' := run (map (Tick sc) deltas) w in
  ActionQueue._actions (w_queue w') = r :: rest
  /\ ActionQueue._completedActions (w_queue w')
     = ActionQueue._completedActions (w_queue w)
  /\ forall r', r' <> r -> w_heap w' r' = w_heap w r'.
Proof.
  intros Hq Hh Hs. cbv zeta. revert w f Hq Hh Hs.
  induction deltas as [|d ds IH]; intros w f Hq Hh Hs.
  - cbn. repeat split. exact Hq.
  - change (run (map (Tick sc) (d :: ds)) w)
      with (run (map (Tick sc) ds) (step w (Tick sc d))).
    assert (Hstep : exists f',
               step w (Tick sc d)
               = mkWorld (ActionQueue.mk (r :: rest) (Some r)
                            (ActionQueue._completedActions (w_queue w)))
                         (ActionQueue.write (w_heap w) r (AFollow f'))
                         (integrate (snd (Follow.update f sc (w_actor w) d)) d)
               /\ Follow._stopped f' = false).
    { exists (fst (Follow.update f sc (w_actor w) d)).
      split; [|apply Follow_update_not_stopped; exact Hs].
      cbn [step]. unfold ActionQueue.update. rewrite Hq, Hh.
      cbn [update AnyAction_Action Follow_Action lift].
      destruct (Follow.update f sc (w_actor w) d) as [f' a'] eqn:Hu.
      cbn [fst snd]. rewrite write_same.
      cbn [isComplete AnyAction_Action Follow_Action].
      pose proof (Follow_update_not_stopped f sc (w_actor w) d Hs) as Hf'.
      rewrite Hu in Hf'. cbn [fst] in Hf'.
      unfold Follow.isComplete. rewrite Hf'. reflexivity. }
    destruct Hstep as (f' & Hstep & Hs'). rewrite Hstep.
    match goal with
    | |- context [run _ ?w1] =>
        destruct (IH w1 f' eq_refl (write_same _ _ _) Hs') as (H1 & H2 & H3)
    end.
    split; [exact H1|]. split; [exact H2|].
    intros r' Hr'. rewrite (H3 r' Hr'). cbn [w_heap].
    apply write_other. exact Hr'.
Qed.

Lemma Follow_blocks_the_queue_witness :
  let w := chained [AFollow (Follow.new empty_scene Actor_new 0%nat (Some 10));
                    ACallMethod (CallMethod.new hide)] Actor_new in
  ActionQueue._actions (w_queue (run (map (Tick empty_scene) [16; 16; 16]) w))
  = [0%nat; 1%nat].
Proof.
  cbv zeta.
  refine (proj1 (Follow_blocks_the_queue empty_scene
                   (chained [AFollow (Follow.new empty_scene Actor_new 0%nat
                                        (Some 10));
                             ACallMethod (CallMethod.new hide)] Actor_new)
                   0%nat [1%nat] _ [16; 16; 16] eq_refl eq_refl eq_refl)).
Defined.

Lemma run_empty_queue {A : Type} `{Action A} (sc : Scene) (deltas : list Q) :
  forall (w : World A),
    ActionQueue._actions (w_queue w) = [] ->
    run (map (Tick sc) deltas) w
    = mkWorld (w_queue w) (w_heap w) (fold_left integrate deltas (w_actor w)).
Proof.
  induction deltas as [|d ds IH]; intros w Hq.
  - destruct w; reflexivity.
  - change (run (map (Tick sc) (d :: ds)) w)
      with (run (map (Tick sc) ds) (step w (Tick sc d))).
    assert (Hstep : step w (Tick sc d)
                    = mkWorld (w_queue w) (w_heap w) (integrate (w_actor w) d)).
    { cbn [step]. unfold ActionQueue.update. rewrite Hq. reflexivity. }
    rewrite Hstep, IH by exact Hq. reflexivity.
Qed.

Lemma integrate_at_rest (deltas : list Q) :
  forall a : Actor,
    vel a = vec 0 0 ->
    Vector.eqv (pos (fold_left integrate deltas a)) (pos a).
Proof.
  induction deltas as [|d ds IH]; intros a Hv.
  - split; reflexivity.
  - cbn [fold_left].
    destruct (IH (integrate a d) Hv) as [Hx Hy].
    split.
    + rewrite Hx. unfold integrate. cbn. rewrite Hv. cbn. ring.
    + rewrite Hy. unfold integrate. cbn. rewrite Hv. cbn. ring.
Qed.

Lemma stop_moves (b : AnyAction) (a : Actor) :
  moves b = true ->
  vel (snd (stop b a)) = vec 0 0 /\ pos (snd (stop b a)) = pos a
  /\ isComplete (fst (stop b a)) (snd (stop b a)) = true.
Proof.
  destruct b; try discriminate; intros _; repeat split.
Qed.

(** X5: [clearActions] on a queue whose current action drives the
    velocity of the actor ([EaseTo], [MoveTo], [MoveBy], [Follow], [Meet])
    empties the queue and stops that action; in the frames that follow no
    action is updated, the stopped action is complete, and the actor stays
    where [clearActions] found it. *)
Theorem clearActions_halts_the_actor
        (w : World AnyAction) (r : Ref) (deltas : list Q) :
  ActionQueue._currentAction (w_queue w) = Some r ->
  moves (w_heap w r) = true ->
  let w1 := clearActions w in
  let w' := frames deltas w1 in
  ActionQueue.getActions (w_queue w') = []
  /\ (forall r', w_heap w' r' = w_heap w1 r')
  /\ isComplete (w_heap w' r) (w_actor w') = true
  /\ Vector.eqv (pos (w_actor w')) (pos (w_actor w)).
Proof.
  intros Hcur Hm. cbv zeta.
  unfold clearActions, ActionQueue.clearActions. rewrite Hcur.
  destruct (stop_moves (w_heap w r) (w_actor w) Hm) as (Hv & Hp & Hc).
  destruct (stop (w_heap w r) (w_actor w)) as [obj a'] eqn:Hstop.
  cbn [fst snd] in *.
  unfold frames. rewrite run_empty_queue by reflexivity.
  cbn [w_queue w_heap w_actor].
  split; [reflexivity|]. split; [reflexivity|]. split.
  - rewrite write_same.
    destruct (w_heap w r); try discriminate Hm;
      cbn [stop AnyAction_Action lift] in Hstop;
      inversion Hstop; subst obj; reflexivity.
  - rewrite <- Hp. apply integrate_at_rest. exact Hv.
Qed.

Lemma clearActions_halts_the_actor_witness :
  let w := frames [500] (chained [AMoveTo (MoveTo.new 20 0 10)] Actor_new) in
  Vector.eqv (pos (w_actor (frames [500; 500] (clearActions w))))
             (pos (w_actor w)).
Proof.
  cbv zeta.
  refine (proj2 (proj2 (proj2 (clearActions_halts_the_actor
            (frames [500] (chained [AMoveTo (MoveTo.new 20 0 10)] Actor_new))
            0%nat [500; 500] eq_refl eq_refl)))).
Defined.

(** ** [Repeat] and [RepeatForever] *)

Section RepeatFacts.

Context {A : Type} `{Action A}.

(** The constructor adds the actions in the order of the array. *)
Lemma fill_queue (actions : list Ref) (q : ActionQueue.t) (h : ActionQueue.Heap) :
  fst (Repeat.fill actions q h)
  = ActionQueue.mk (ActionQueue._actions q ++ actions)
      (ActionQueue._currentAction q) (ActionQueue._completedActions q).
Proof.
  unfold Repeat.fill. revert q h.
  induction actions as [|r l IH]; intros q h; cbn [fold_left].
  - rewrite app_nil_r. destruct q; reflexivity.
  - rewrite IH. cbn [fst snd ActionQueue.add ActionQueue._actions
      ActionQueue._currentAction ActionQueue._completedActions].
    rewrite <- app_assoc. reflexivity.
Qed.

Lemma queue_update_keeps_order (q : ActionQueue.t) (h : ActionQueue.Heap)
      (sc : Scene) (a : Actor) (delta : Q) :
  let q' := fst (fst (ActionQueue.update q h sc a delta)) in
  ActionQueue._completedActions q' ++ ActionQueue._actions q'
  = ActionQueue._completedActions q ++ ActionQueue._actions q.
Proof.
  cbv zeta. unfold ActionQueue.update.
  destruct (ActionQueue._actions q) as [|r rest] eqn:E; cbn [fst].
  - congruence.
  - destruct (update (h r) sc a delta) as [obj a'].
    destruct (isComplete _ a'); cbn [fst ActionQueue._completedActions ActionQueue._actions].
    + rewrite <- app_assoc. reflexivity.
    + congruence.
Qed.

Lemma Repeat_update_keeps_order (r : Repeat.t) (h : ActionQueue.Heap)
      (sc : Scene) (a : Actor) (delta : Q) :
  let q := Repeat._actionQueue r in
  let q' := Repeat._actionQueue (fst (fst (Repeat.update r h sc a delta))) in
  ActionQueue._completedActions q' ++ ActionQueue._actions q'
  = ActionQueue._completedActions q ++ ActionQueue._actions q.
Proof.
  cbv zeta. unfold Repeat.update.
  destruct (negb (ActionQueue.hasNext (Repeat._actionQueue r))) eqn:Hn.
  - unfold ActionQueue.reset.
    match goal with
    | |- context [ActionQueue.update ?q ?h' sc a delta] =>
        pose proof (queue_update_keeps_order q h' sc a delta) as Hq;
        destruct (ActionQueue.update q h' sc a delta) as [[q2 h2] a2]
    end.
    cbn [fst snd Repeat._actionQueue] in *. rewrite Hq.
    cbn [ActionQueue._completedActions ActionQueue._actions].
    unfold ActionQueue.getActions.
    unfold ActionQueue.hasNext in Hn.
    destruct (ActionQueue._actions (Repeat._actionQueue r)); [|discriminate].
    cbn. rewrite app_nil_r. reflexivity.
  - match goal with
    | |- context [ActionQueue.update ?q ?h' sc a delta] =>
        pose proof (queue_update_keeps_order q h' sc a delta) as Hq;
        destruct (ActionQueue.update q h' sc a delta) as [[q2 h2] a2]
    end.
    cbn [fst snd Repeat._actionQueue] in *. exact Hq.
Qed.

(** X6: the queue of a [Repeat] always holds the actions of the
    constructor's array in the order of the array, the completed ones
    first: after any number of updates, the completed actions followed by
    the pending ones are that array.  Every wrap-around therefore starts
    again from the first action of the array. *)
Theorem Repeat_replays_in_construction_order
        (h : ActionQueue.Heap) (n : Q) (actions : list Ref) (sc : Scene)
        (a : Actor) (deltas : list Q) :
  let s0 := Repeat.new h n actions in
  let q := Repeat._actionQueue
             (fst (fst (repeated sc deltas (fst s0, snd s0, a)))) in
  ActionQueue._completedActions q ++ ActionQueue._actions q = actions.
Proof.
  cbv zeta.
  assert (H0 : let q := Repeat._actionQueue (fst (Repeat.new h n actions)) in
               ActionQueue._completedActions q ++ ActionQueue._actions q
               = actions).
  { unfold Repeat.new.
    pose proof (fill_queue actions ActionQueue.new h) as Hf.
    destruct (Repeat.fill actions ActionQueue.new h) as [q h'].
    cbn [fst Repeat._actionQueue] in *. rewrite Hf. reflexivity. }
  cbv zeta in H0.
  unfold repeated.
  set (s := (fst (Repeat.new h n actions), snd (Repeat.new h n actions), a)).
  change (fst (Repeat.new h n actions)) with (fst (fst s)) in H0.
  clearbody s. revert s H0.
  induction deltas as [|d ds IH]; intros s H0; cbn [fold_left].
  - exact H0.
  - apply IH. rewrite Repeat_update_keeps_order. exact H0.
Qed.

(** X7: a [Repeat] over an empty array only counts: each update takes one
    off [_repeat] and leaves the store of actions and the actor as they
    are, and the action is complete once the number of updates has reached
    the number of repetitions. *)
Theorem Repeat_of_nothing_counts_the_updates
        (h : ActionQueue.Heap) (n : Q) (sc : Scene) (a : Actor)
        (deltas : list Q) :
  let s0 := Repeat.new h n [] in
  let s := repeated sc deltas (fst s0, snd s0, a) in
  snd (fst s) = h /\ snd s = a
  /\ Repeat._repeat (fst (fst s))
     == n - inject_Z (Z.of_nat (List.length deltas))
  /\ Repeat.isComplete (fst (fst s))
     = JS.le n (inject_Z (Z.of_nat (List.length deltas))).
Proof.
  cbv zeta. change (Repeat.new h n []) with
    (Repeat.mk 0 0 ActionQueue.new n n false, h). cbn [fst snd].
  assert (Hgen : forall (r : Repeat.t),
    ActionQueue._actions (Repeat._actionQueue r) = [] ->
    ActionQueue._completedActions (Repeat._actionQueue r) = [] ->
    Repeat._stopped r = false ->
    let s := repeated sc deltas (r, h, a) in
    snd (fst s) = h /\ snd s = a
    /\ Repeat._repeat (fst (fst s))
       == Repeat._repeat r - inject_Z (Z.of_nat (List.length deltas))
    /\ Repeat._stopped (fst (fst s)) = false).
  { induction deltas as [|d ds IH]; intros r Hp Hc Hs; cbv zeta.
    - cbn. repeat split; [ring | exact Hs].
    - unfold repeated. cbn [fold_left fst snd].
      change (fold_left _ ds ?x) with (repeated sc ds x).
      unfold Repeat.update, ActionQueue.hasNext. rewrite Hp.
      cbn [List.length Nat.ltb Nat.leb negb].
      unfold ActionQueue.reset, ActionQueue.getActions. rewrite Hp, Hc.
      cbn [app ActionQueue.reset_each fold_left].
      unfold ActionQueue.update. cbn [ActionQueue._actions].
      match goal with
      | |- context [repeated sc ds (?r', h, a)] =>
          specialize (IH r' eq_refl eq_refl Hs)
      end.
      cbv zeta in IH. destruct IH as (Hh & Ha & Hr & Hst).
      repeat split; try assumption.
      rewrite Hr. cbn [Repeat._repeat].
      change (List.length (d :: ds)) with (S (List.length ds)).
      rewrite Nat2Z.inj_succ. unfold Z.succ. rewrite inject_Z_plus.
      cbn [inject_Z]. ring. }
  destruct (Hgen (Repeat.mk 0 0 ActionQueue.new n n false)
              eq_refl eq_refl eq_refl) as (Hh & Ha & Hr & Hs).
  cbn [Repeat._repeat] in Hr.
  repeat split; try assumption.
  unfold Repeat.isComplete. rewrite Hs. cbn [orb].
  unfold JS.le. rewrite Hr.
  destruct (Qle_bool n _) eqn:E.
  - apply Qle_bool_iff. apply Qle_bool_iff in E. lra.
  - apply not_true_is_false. intro E'. apply Qle_bool_iff in E'.
    assert (E2 : Qle_bool n (inject_Z (Z.of_nat (List.length deltas))) = true).
    { apply Qle_bool_iff. lra. }
    congruence.
Qed.

Lemma RepeatForever_update_keeps_order (r : RepeatForever.t)
      (h : ActionQueue.Heap) (sc : Scene) (a : Actor) (delta : Q) :
  RepeatForever._stopped r = false ->
  let r' := fst (fst (RepeatForever.update r h sc a delta)) in
  RepeatForever._stopped r' = false
  /\ ActionQueue._completedActions (RepeatForever._actionQueue r')
     ++ ActionQueue._actions (RepeatForever._actionQueue r')
     = ActionQueue._completedActions (RepeatForever._actionQueue r)
       ++ ActionQueue._actions (RepeatForever._actionQueue r).
Proof.
  intro Hs. cbv zeta. unfold RepeatForever.update.
  cbn [RepeatForever._stopped RepeatForever._actionQueue RepeatForever.x
       RepeatForever.y]. rewrite Hs.
  destruct (negb (ActionQueue.hasNext (RepeatForever._actionQueue r))) eqn:Hn.
  - unfold ActionQueue.reset.
    match goal with
    | |- context [ActionQueue.update ?q ?h' sc a delta] =>
        pose proof (queue_update_keeps_order q h' sc a delta) as Hq;
        destruct (ActionQueue.update q h' sc a delta) as [[q2 h2] a2]
    end.
    cbn [fst snd RepeatForever._actionQueue RepeatForever._stopped] in *.
    split; [reflexivity|]. rewrite Hq.
    cbn [ActionQueue._completedActions ActionQueue._actions].
    unfold ActionQueue.getActions.
    unfold ActionQueue.hasNext in Hn.
    destruct (ActionQueue._actions (RepeatForever._actionQueue r));
      [|discriminate].
    cbn. rewrite app_nil_r. reflexivity.
  - match goal with
    | |- context [ActionQueue.update ?q ?h' sc a delta] =>
        pose proof (queue_update_keeps_order q h' sc a delta) as Hq;
        destruct (ActionQueue.update q h' sc a delta) as [[q2 h2] a2]
    end.
    cbn [fst snd RepeatForever._actionQueue RepeatForever._stopped] in *.
    split; [reflexivity | exact Hq].
Qed.

(** X8: a [RepeatForever] that is not stopped is never complete, and its
    queue always holds the actions of the constructor's array in the order
    of the array, the completed ones first. *)
Theorem RepeatForever_never_completes_by_itself
        (h : ActionQueue.Heap) (actions : list Ref) (sc : Scene)
        (a : Actor) (deltas : list Q) :
  let s0 := RepeatForever.new h actions in
  let r := fst (fst (repeated_forever sc deltas (fst s0, snd s0, a))) in
  RepeatForever.isComplete r = false
  /\ ActionQueue._completedActions (RepeatForever._actionQueue r)
     ++ ActionQueue._actions (RepeatForever._actionQueue r) = actions.
Proof.
  cbv zeta.
  assert (H0 : let r := fst (RepeatForever.new h actions) in
               RepeatForever._stopped r = false
               /\ ActionQueue._completedActions (RepeatForever._actionQueue r)
                  ++ ActionQueue._actions (RepeatForever._actionQueue r)
                  = actions).
  { unfold RepeatForever.new.
    pose proof (fill_queue actions ActionQueue.new h) as Hf.
    destruct (Repeat.fill actions ActionQueue.new h) as [q h'].
    cbn [fst RepeatForever._actionQueue RepeatForever._stopped] in *.
    rewrite Hf. split; reflexivity. }
  cbv zeta in H0.
  unfold repeated_forever, RepeatForever.isComplete.
  set (s := (fst (RepeatForever.new h actions),
             snd (RepeatForever.new h actions), a)).
  change (fst (RepeatForever.new h actions)) with (fst (fst s)) in H0.
  clearbody s. revert s H0.
  induction deltas as [|d ds IH]; intros s H0; cbn [fold_left].
  - exact H0.
  - apply IH. destruct H0 as [Hs Ho].
    destruct (RepeatForever_update_keeps_order (fst (fst s)) (snd (fst s))
                sc (snd s) d Hs) as [Hs' Ho'].
    split; [exact Hs' | rewrite Ho'; exact Ho].
Qed.

(** X9: [stop] on a [RepeatForever] stops the action that its queue was
    running, if any: the store and the actor are what the [stop] of that
    action makes of them.  It empties the queue; from then on the
    [RepeatForever] is complete and its updates leave the store of
    actions and the actor as [stop] left them. *)
Theorem RepeatForever_stop_ends_the_run
        (r : RepeatForever.t) (h : ActionQueue.Heap) (a : Actor)
        (sc : Scene) (deltas : list Q) :
  let s1 := RepeatForever.stop r h a in
  let s := repeated_forever sc deltas s1 in
  match ActionQueue._currentAction (RepeatForever._actionQueue r) with
  | Some c =>
      snd (fst s1) = ActionQueue.write h c (fst (stop (h c) a))
      /\ snd s1 = snd (stop (h c) a)
  | None => snd (fst s1) = h /\ snd s1 = a
  end
  /\ RepeatForever.isComplete (fst (fst s)) = true
  /\ ActionQueue.getActions (RepeatForever._actionQueue (fst (fst s))) = []
  /\ snd (fst s) = snd (fst s1)
  /\ snd s = snd s1.
Proof.
  cbv zeta. split.
  { unfold RepeatForever.stop, ActionQueue.clearActions.
    destruct (ActionQueue._currentAction (RepeatForever._actionQueue r));
      [destruct (stop _ a)|]; split; reflexivity. }
  assert (H1 : let s1 := RepeatForever.stop r h a in
               RepeatForever._stopped (fst (fst s1)) = true
               /\ ActionQueue.getActions
                    (RepeatForever._actionQueue (fst (fst s1))) = []).
  { cbv zeta. unfold RepeatForever.stop, ActionQueue.clearActions.
    destruct (ActionQueue._currentAction (RepeatForever._actionQueue r));
      [destruct (stop _ a)|]; split; reflexivity. }
  cbv zeta in H1. set (s1 := RepeatForever.stop r h a) in *.
  clearbody s1. revert s1 H1.
  induction deltas as [|d ds IH]; intros s1 [Hs Hq].
  - cbn. repeat split; assumption.
  - unfold repeated_forever. cbn [fold_left].
    change (fold_left _ ds ?x) with (repeated_forever sc ds x).
    assert (Hu : RepeatForever.update (fst (fst s1)) (snd (fst s1)) sc
                   (snd s1) d
                 = (RepeatForever.mk (Vector.x (pos (snd s1)))
                      (Vector.y (pos (snd s1)))
                      (RepeatForever._actionQueue (fst (fst s1))) true,
                    snd (fst s1), snd s1)).
    { unfold RepeatForever.update. cbn [RepeatForever._stopped].
      rewrite Hs. reflexivity. }
    rewrite Hu.
    match goal with
    | |- context [repeated_forever sc ds ?x] =>
        destruct (IH x) as (Hc & Hg & Hh & Ha)
    end.
    { split; [reflexivity | exact Hq]. }
    cbn [fst snd] in Hh, Ha. repeat split; assumption.
Qed.

End RepeatFacts.

(** A [RepeatForever] over a [MoveTo], stopped while the [MoveTo] drives
    the actor: [stop] zeroes the velocity, and the updates that follow
    leave the actor where [stop] found it. *)
Lemma RepeatForever_stop_halts_the_actor :
  let h0 : Ref -> AnyAction := fun _ => AMoveTo (MoveTo.new 20 0 10) in
  let r0 := RepeatForever.new h0 [0%nat] in
  let s0 := repeated_forever empty_scene [500] (fst r0, snd r0, Actor_new) in
  let s1 := RepeatForever.stop (fst (fst s0)) (snd (fst s0)) (snd s0) in
  let s := repeated_forever empty_scene [500; 500] s1 in
  Vector.x (vel (snd s0)) == 10
  /\ Vector.x (vel (snd s1)) == 0
  /\ isComplete (snd (fst s1) 0%nat) (snd s1) = true
  /\ snd s = snd s1.
Proof. repeat split; vm_compute; reflexivity. Qed.

Lemma cycles_succ (n : nat) (l : list Ref) :
  cycles (S n) l = cycles n l ++ l.
Proof.
  unfold cycles. induction n as [|n IH].
  - cbn. rewrite app_nil_r. reflexivity.
  - change (repeat l (S (S n))) with (l :: repeat l (S n)).
    cbn [concat]. rewrite IH at 1. cbn [repeat concat].
    rewrite app_assoc. reflexivity.
Qed.

Lemma call_all_app (h : @ActionQueue.Heap CallMethod.t) (l l' : list Ref) (a : Actor) :
  call_all h (l ++ l') a = call_all h l' (call_all h l a).
Proof. unfold call_all. apply fold_left_app. Qed.

Lemma fill_methods (actions : list Ref) :
  forall (q : ActionQueue.t) (h : @ActionQueue.Heap CallMethod.t) (r : Ref),
    CallMethod._method (snd (Repeat.fill actions q h) r)
    = CallMethod._method (h r).
Proof.
  unfold Repeat.fill.
  induction actions as [|x l IH]; intros q h r; cbn [fold_left snd].
  - reflexivity.
  - rewrite IH. cbn [snd]. unfold ActionQueue.write.
    destruct (Nat.eqb_spec r x) as [->|]; reflexivity.
Qed.

Lemma reset_each_methods (l : list Ref) :
  forall (h : @ActionQueue.Heap CallMethod.t) (r : Ref),
    CallMethod._method (ActionQueue.reset_each l h r)
    = CallMethod._method (h r).
Proof.
  unfold ActionQueue.reset_each.
  induction l as [|x l IH]; intros h r; cbn [fold_left].
  - reflexivity.
  - rewrite IH. unfold ActionQueue.write.
    destruct (Nat.eqb_spec r x) as [->|]; reflexivity.
Qed.

(** An update that finds an action pending runs it and retires it. *)
Lemma cycling_next (h : @ActionQueue.Heap CallMethod.t) (actions : list Ref) (n : Q)
      (a0 : Actor) (c : nat) (done : list Ref) (r : Ref) (todo : list Ref)
      (s : Repeat.t * @ActionQueue.Heap CallMethod.t * Actor) (sc : Scene) (delta : Q) :
  cycling h actions n a0 c done (r :: todo) s ->
  cycling h actions n a0 c (done ++ [r]) todo
    (Repeat.update (fst (fst s)) (snd (fst s)) sc (snd s) delta).
Proof.
  destruct s as [[rp hp] a]. cbn [fst snd].
  intros (Hl & Hc & Hp & Hr & Hs & Hm & Ha). cbn [fst snd] in *.
  unfold Repeat.update, ActionQueue.hasNext. rewrite Hp.
  cbn [List.length Nat.ltb Nat.leb negb].
  unfold ActionQueue.update. rewrite Hp.
  cbn [update CallMethod_Action CallMethod.update].
  rewrite write_same.
  cbn [isComplete CallMethod_Action CallMethod.isComplete
       CallMethod._hasBeenCalled].
  unfold cycling. cbn [fst snd Repeat._actionQueue Repeat._repeat
    Repeat._stopped ActionQueue._completedActions ActionQueue._actions].
  repeat split.
  - rewrite <- app_assoc. exact Hl.
  - rewrite Hc. reflexivity.
  - exact Hr.
  - exact Hs.
  - intro r'. unfold ActionQueue.write.
    destruct (Nat.eqb_spec r' r) as [->|]; [|apply Hm].
    cbn [CallMethod._method]. apply Hm.
  - rewrite app_assoc, call_all_app, <- Ha. cbn [call_all fold_left].
    unfold call_all. cbn [fold_left]. rewrite Hm. reflexivity.
Qed.

(** An update that finds nothing pending wraps around, and runs the first
    action in the same call. *)
Lemma cycling_wrap (h : @ActionQueue.Heap CallMethod.t) (first : Ref) (rest : list Ref)
      (n : Q) (a0 : Actor) (c : nat)
      (s : Repeat.t * @ActionQueue.Heap CallMethod.t * Actor) (sc : Scene) (delta : Q) :
  cycling h (first :: rest) n a0 c (first :: rest) [] s ->
  cycling h (first :: rest) n a0 (S c) [first] rest
    (Repeat.update (fst (fst s)) (snd (fst s)) sc (snd s) delta).
Proof.
  destruct s as [[rp hp] a]. cbn [fst snd].
  intros (Hl & Hc & Hp & Hr & Hs & Hm & Ha). cbn [fst snd] in *.
  unfold Repeat.update, ActionQueue.hasNext. rewrite Hp.
  cbn [List.length Nat.ltb Nat.leb negb].
  unfold ActionQueue.reset, ActionQueue.getActions. rewrite Hp, Hc.
  cbn [app].
  unfold ActionQueue.update.
  cbn [ActionQueue._actions ActionQueue._completedActions].
  cbn [update CallMethod_Action CallMethod.update].
  rewrite write_same.
  cbn [isComplete CallMethod_Action CallMethod.isComplete
       CallMethod._hasBeenCalled].
  unfold cycling. cbn [fst snd Repeat._actionQueue Repeat._repeat
    Repeat._stopped ActionQueue._completedActions ActionQueue._actions app].
  repeat split.
  - rewrite Hr. rewrite Nat2Z.inj_succ. unfold Z.succ.
    rewrite inject_Z_plus. ring.
  - exact Hs.
  - intro r'. unfold ActionQueue.write.
    destruct (Nat.eqb_spec r' first) as [->|].
    + cbn [CallMethod._method]. rewrite reset_each_methods. apply Hm.
    + rewrite reset_each_methods. apply Hm.
  - rewrite cycles_succ, call_all_app, <- Ha.
    unfold call_all. cbn [fold_left]. rewrite reset_each_methods, Hm.
    reflexivity.
Qed.

Lemma cycling_run (h : @ActionQueue.Heap CallMethod.t) (first : Ref) (rest : list Ref)
      (n : Q) (a0 : Actor) (sc : Scene) (deltas : list Q) :
  forall (c : nat) (done todo : list Ref)
         (s : Repeat.t * @ActionQueue.Heap CallMethod.t * Actor),
    cycling h (first :: rest) n a0 c done todo s ->
    exists (c' : nat) (done' todo' : list Ref),
      cycling h (first :: rest) n a0 c' done' todo' (repeated sc deltas s)
      /\ (c' * S (List.length rest) + List.length done'
          = c * S (List.length rest) + List.length done
            + List.length deltas)%nat
      /\ (deltas <> [] \/ 1 <= List.length done -> 1 <= List.length done')%nat.
Proof.
  induction deltas as [|d ds IH]; intros c done todo s Hs.
  - exists c, done, todo. split; [exact Hs|]. split.
    + cbn. lia.
    + intros [Hd|Hd]; [congruence | exact Hd].
  - unfold repeated. cbn [fold_left].
    change (fold_left _ ds ?x) with (repeated sc ds x).
    destruct todo as [|r todo].
    + assert (Hd : done = first :: rest).
      { destruct Hs as (Hl & _). rewrite app_nil_r in Hl. exact Hl. }
      subst done.
      pose proof (cycling_wrap _ _ _ _ _ _ _ sc d Hs) as Hs'.
      destruct (IH _ _ _ _ Hs') as (c' & done' & todo' & Hc' & Hn & H1).
      exists c', done', todo'. split; [exact Hc'|]. split.
      * cbn [List.length] in *. lia.
      * intros _. apply H1. right. cbn. lia.
    + pose proof (cycling_next _ _ _ _ _ _ _ _ _ sc d Hs) as Hs'.
      destruct (IH _ _ _ _ Hs') as (c' & done' & todo' & Hc' & Hn & H1).
      exists c', done', todo'. split; [exact Hc'|]. split.
      * rewrite length_app in Hn. cbn [List.length] in *. lia.
      * intros _. apply H1. right. rewrite length_app. cbn. lia.
Qed.

Lemma cycling_new (h : @ActionQueue.Heap CallMethod.t) (actions : list Ref) (n : Q)
      (a : Actor) :
  cycling h actions n a 0 [] actions
    (fst (Repeat.new h n actions), snd (Repeat.new h n actions), a).
Proof.
  unfold Repeat.new.
  pose proof (fill_queue actions ActionQueue.new h) as Hq.
  pose proof (fill_methods actions ActionQueue.new h) as Hm.
  destruct (Repeat.fill actions ActionQueue.new h) as [q h'].
  cbn [fst snd] in *. subst q.
  unfold cycling. cbn [fst snd Repeat._actionQueue Repeat._repeat
    Repeat._stopped ActionQueue._completedActions ActionQueue._actions
    ActionQueue.new app].
  split; [reflexivity|]. split; [reflexivity|]. split; [reflexivity|].
  split; [cbn; ring|]. split; [reflexivity|]. split; [exact Hm|].
  reflexivity.
Qed.

(** X10: a [Repeat] of [n >= 1] repetitions over [k >= 1] [CallMethod]
    actions is not complete during its first [n * k] updates and is
    complete after the update number [n * k + 1]: by then the methods of
    the array have been called [n] times over, in order, and the method of
    the first action once more.  The update that wraps around for the last
    time also runs the first action. *)
Theorem Repeat_of_callbacks_runs_the_first_once_more
        (h : @ActionQueue.Heap CallMethod.t) (first : Ref) (rest : list Ref) (n : nat)
        (sc : Scene) (a : Actor) (deltas : list Q) :
  let actions := first :: rest in
  let s0 := Repeat.new h (inject_Z (Z.of_nat n)) actions in
  let s := repeated sc deltas (fst s0, snd s0, a) in
  (1 <= n)%nat ->
  ((List.length deltas <= n * List.length actions)%nat ->
   Repeat.isComplete (fst (fst s)) = false)
  /\ (List.length deltas = (n * List.length actions + 1)%nat ->
      Repeat.isComplete (fst (fst s)) = true
      /\ snd s = call_all h (cycles n actions ++ [first]) a).
Proof.
  cbv zeta. intro Hn.
  destruct (cycling_run h first rest (inject_Z (Z.of_nat n)) a sc deltas
              _ _ _ _ (cycling_new h (first :: rest) _ a))
    as (c & done & todo & Hc & Hlen & H1).
  destruct Hc as (Hl & Hcd & Hp & Hr & Hs & Hm & Ha).
  assert (Hk : (List.length done <= S (List.length rest))%nat).
  { apply (f_equal (@List.length Ref)) in Hl.
    rewrite length_app in Hl. cbn in Hl. lia. }
  unfold Repeat.isComplete. rewrite Hs. cbn [orb].
  cbn [List.length] in *.
  split.
  - intro Hm'. apply le_false. rewrite Hr.
    assert (Hlt : (c < n)%nat).
    { destruct deltas as [|d ds].
      - cbn in Hlen. destruct c; [lia | cbn in Hlen; lia].
      - assert (1 <= List.length done)%nat by (apply H1; left; congruence).
        set (K := S (List.length rest)) in *.
        destruct (le_lt_dec n c) as [Hle | Hlt]; [|exact Hlt].
        assert (n * K <= c * K)%nat by nia. lia. }
    assert (inject_Z (Z.of_nat c) < inject_Z (Z.of_nat n)).
    { rewrite <- Zlt_Qlt. lia. }
    lra.
  - intro Hm'.
    assert (H1' : (1 <= List.length done)%nat).
    { apply H1. left. destruct deltas; [cbn in Hm'; lia | congruence]. }
    assert (Hcn : c = n /\ List.length done = 1%nat).
    { set (K := S (List.length rest)) in *.
      destruct (lt_eq_lt_dec c n) as [[Hlt | Heq] | Hgt].
      - assert (c * K + K <= n * K)%nat by nia. lia.
      - subst c. lia.
      - assert (n * K + K <= c * K)%nat by nia. lia. }
    destruct Hcn as [-> Hone]. split.
    + apply le_true. rewrite Hr. lra.
    + rewrite Ha. destruct done as [|x [|y done]]; try (cbn in Hone; lia).
      cbn in Hl. inversion Hl. reflexivity.
Qed.

Lemma Repeat_of_callbacks_runs_the_first_once_more_witness :
  let h : @ActionQueue.Heap CallMethod.t := fun _ => CallMethod.new hide in
  let s0 := Repeat.new h (inject_Z (Z.of_nat 2)) [0%nat; 1%nat] in
  let s := repeated empty_scene [1; 1; 1; 1; 1] (fst s0, snd s0, Actor_new) in
  Repeat.isComplete (fst (fst s)) = true
  /\ snd s = call_all h (cycles 2 [0%nat; 1%nat] ++ [0%nat]) Actor_new.
Proof.
  cbv zeta.
  apply (Repeat_of_callbacks_runs_the_first_once_more
           (fun _ => CallMethod.new hide) 0%nat [1%nat] 2 empty_scene
           Actor_new [1; 1; 1; 1; 1]); [lia | reflexivity].
Defined.

(** ** [reset]: replaying an action *)

Lemma same_setup_refl (b0 : AnyAction) : pristine b0 -> same_setup b0 b0.
Proof. destruct b0; cbn; intro H; try contradiction; repeat split. Qed.

Lemma update_same_setup (b0 b : AnyAction) (sc : Scene) (a : Actor)
      (delta : Q) :
  same_setup b0 b -> same_setup b0 (fst (update b sc a delta)).
Proof.
  destruct b0, b; cbn [same_setup]; try contradiction;
    cbn [update AnyAction_Action lift fst snd
         EaseTo_Action MoveTo_Action MoveBy_Action ScaleTo_Action
         ScaleBy_Action Delay_Action Blink_Action CallMethod_Action].
  - intros (H1 & H2 & H3 & H4). unfold EaseTo.update.
    destruct (EaseTo._initialized e0);
      match goal with |- context [if ?c then _ else _] => destruct c end;
      cbn; repeat split; assumption.
  - intros (H1 & H2 & H3). unfold MoveTo.update.
    destruct (MoveTo._started m0);
      match goal with |- context [if ?c then _ else _] => destruct c end;
      cbn; repeat split; assumption.
  - intros (H1 & H2 & H3). unfold MoveBy.update.
    destruct (MoveBy._started m0);
      match goal with |- context [if ?c then _ else _] => destruct c end;
      cbn; repeat split; assumption.
  - intros (H1 & H2 & H3 & H4 & H5). unfold ScaleTo.update.
    destruct (ScaleTo._started s0);
      match goal with
      | |- context [if ScaleTo.isComplete ?x ?y then _ else _] =>
          destruct (ScaleTo.isComplete x y)
      end; cbn; repeat split; assumption.
  - intros (H1 & H2 & H3 & H4). unfold ScaleBy.update.
    destruct (ScaleBy._started s0);
      match goal with
      | |- context [if ScaleBy.isComplete ?x ?y then _ else _] =>
          destruct (ScaleBy.isComplete x y)
      end; cbn; repeat split; assumption.
  - intros (H1 & H2). unfold Delay.update. cbn. split; assumption.
  - intros (H1 & H2 & H3 & H4). unfold Blink.update.
    match goal with
    | |- context [if Blink.isComplete ?x then _ else _] =>
        destruct (Blink.isComplete x)
    end; cbn; repeat split; assumption.
  - intro H1. exact H1.
Qed.

Lemma ticks_same_setup (sc : Scene) (b0 : AnyAction) (deltas : list Q) :
  forall (b : AnyAction) (a : Actor),
    same_setup b0 b -> same_setup b0 (fst (ticks sc deltas (b, a))).
Proof.
  induction deltas as [|d ds IH]; intros b a Hb.
  - exact Hb.
  - change (ticks sc (d :: ds) (b, a)) with (ticks sc ds (tick sc d (b, a))).
    pose proof (update_same_setup b0 b sc a d Hb) as Hu.
    unfold tick. cbn [fst snd].
    destruct (update b sc a d) as [b1 a1]. apply IH. exact Hu.
Qed.

(** X11: [reset] arms an action again, for the classes [EaseTo], [MoveTo],
    [MoveBy], [ScaleTo], [ScaleBy], [Delay], [Blink] and [CallMethod]: after
    any run of ticks of an action that came from its constructor, the first
    update that follows [reset] does to any actor what the first update of
    the new action would have done, and leaves the action in the same
    state. *)
Theorem reset_arms_the_action_again
        (sc : Scene) (b0 : AnyAction) (a : Actor) (deltas : list Q)
        (sc' : Scene) (a' : Actor) (delta : Q) :
  pristine b0 ->
  let b := fst (ticks sc deltas (b0, a)) in
  update (reset b) sc' a' delta = update b0 sc' a' delta.
Proof.
  intro Hf. cbv zeta.
  pose proof (ticks_same_setup sc b0 deltas b0 a (same_setup_refl b0 Hf))
    as Hs.
  destruct (fst (ticks sc deltas (b0, a))) as
    [e|m|m|f|m|r|r|s|s|d|b|f|c];
    destruct b0 as [e0|m0|m0|f0|m0|r0|r0|s0|s0|d0|b0|f0|c0];
    cbn [same_setup pristine] in Hs, Hf; try contradiction;
    cbn [update reset AnyAction_Action lift
         EaseTo_Action MoveTo_Action MoveBy_Action ScaleTo_Action
         ScaleBy_Action Delay_Action Blink_Action CallMethod_Action].
  - destruct Hs as (H1 & H2 & H3 & H4). destruct Hf as (F1 & F2).
    unfold EaseTo.update, EaseTo._initialize.
    cbn [EaseTo.reset EaseTo._initialized EaseTo._lerpDuration
         EaseTo._lerpEnd EaseTo._stopped EaseTo.easingFcn
         EaseTo._currentLerpTime EaseTo._lerpStart EaseTo._distance].
    rewrite F1, H1, H2, H3, H4. reflexivity.
  - destruct Hs as (H1 & H2 & H3). destruct Hf as (F1 & F2).
    unfold MoveTo.update.
    cbn [MoveTo.reset MoveTo._started MoveTo._end MoveTo._speed
         MoveTo._stopped].
    rewrite F1, H1, H2, H3. reflexivity.
  - destruct Hs as (H1 & H2 & H3). destruct Hf as (F1 & F2).
    unfold MoveBy.update.
    cbn [MoveBy.reset MoveBy._started MoveBy._offset MoveBy._speed
         MoveBy._stopped].
    rewrite F1, H1, H2, H3. reflexivity.
  - destruct Hs as (H1 & H2 & H3 & H4 & H5). destruct Hf as (F1 & F2).
    unfold ScaleTo.update.
    cbn [ScaleTo.reset ScaleTo._started ScaleTo._endX ScaleTo._endY
         ScaleTo._speedX ScaleTo._speedY ScaleTo._stopped].
    rewrite F1, H1, H2, H3, H4, H5. reflexivity.
  - destruct Hs as (H1 & H2 & H3 & H4). destruct Hf as (F1 & F2).
    unfold ScaleBy.update.
    cbn [ScaleBy.reset ScaleBy._started ScaleBy._offset ScaleBy._speedX
         ScaleBy._speedY ScaleBy._stopped].
    rewrite F1, H1, H2, H3, H4. reflexivity.
  - destruct Hs as (H1 & H2). destruct Hf as (F1 & F2 & F3).
    unfold Delay.update.
    cbn [Delay.reset Delay._elapsedTime Delay._delay Delay._stopped].
    rewrite F3, H1, H2. reflexivity.
  - destruct Hs as (H1 & H2 & H3 & H4). destruct Hf as (F1 & F2 & F3 & F4).
    unfold Blink.update.
    cbn [Blink.reset Blink._elapsedTime Blink._totalTime Blink._timeVisible
         Blink._timeNotVisible Blink._duration Blink._stopped].
    rewrite F3, F4, H1, H2, H3, H4. reflexivity.
  - unfold CallMethod.update. cbn [CallMethod.reset CallMethod._method].
    rewrite Hs. reflexivity.
Qed.

Lemma reset_arms_the_action_again_witness :
  let b0 := AMoveTo (MoveTo.new 20 0 10) in
  let b := fst (ticks empty_scene [1000; 1000; 1000] (b0, Actor_new)) in
  update (reset b) empty_scene Actor_new 16
  = update b0 empty_scene Actor_new 16.
Proof.
  cbv zeta.
  refine (reset_arms_the_action_again empty_scene
            (AMoveTo (MoveTo.new 20 0 10)) Actor_new [1000; 1000; 1000]
            empty_scene Actor_new 16 _).
  split; reflexivity.
Defined.

(** A [Fade] that is out of time leaves the opacity alone. *)
Lemma Fade_tick_out_of_time (sc : Scene) (delta : Q) (f : Fade.t) (a : Actor) :
  0 <= delta ->
  out_of_time f a ->
  let s := tick sc delta (f, a) in
  out_of_time (fst s) (snd s) /\ opacity (snd s) = opacity a.
Proof.
  intros Hd (Hsp & Hst & Hc). cbv zeta.
  unfold tick. cbn [fst snd update Fade_Action]. unfold Fade.update.
  set (f1 := if Fade._started f then f else _).
  assert (Hf1 : Fade._speed f1 = Fade._speed f
                /\ Fade._endOpacity f1 = Fade._endOpacity f
                /\ Fade._stopped f1 = Fade._stopped f).
  { unfold f1. destruct (Fade._started f); repeat split. }
  destruct Hf1 as (E1 & E2 & E3).
  assert (Hg : JS.gt (Fade._speed f1) 0 = false)
    by (apply gt_false; rewrite E1; exact Hsp).
  rewrite Hg.
  set (f2 := Fade.mk _ _ _ _ _).
  assert (Hf2 : forall x, Fade.isComplete f2 x = Fade.isComplete f x).
  { intro x. unfold Fade.isComplete, f2.
    cbn [Fade._stopped Fade._endOpacity]. rewrite E2, E3. reflexivity. }
  rewrite Hf2, Hc. cbn [fst snd]. split; [|reflexivity].
  unfold out_of_time.
  split; [unfold f2; cbn [Fade._speed]; rewrite E1; lra|].
  split; [unfold f2; cbn [Fade._stopped]; rewrite E3; exact Hst|].
  rewrite Hf2. exact Hc.
Qed.

Lemma Fade_ticks_out_of_time (sc : Scene) (deltas : list Q) :
  nonnegative deltas ->
  forall (f : Fade.t) (a : Actor),
    out_of_time f a ->
    let s := ticks sc deltas (f, a) in
    out_of_time (fst s) (snd s) /\ opacity (snd s) = opacity a.
Proof.
  induction 1 as [|d ds Hd Hds IH]; intros f a Ho; cbv zeta.
  - split; [exact Ho | reflexivity].
  - change (ticks sc (d :: ds) (f, a)) with (ticks sc ds (tick sc d (f, a))).
    destruct (Fade_tick_out_of_time sc d f a Hd Ho) as [Ho' Hop'].
    destruct (tick sc d (f, a)) as [f1 a1]. cbn [fst snd] in *.
    destruct (IH f1 a1 Ho') as [Ho2 Hop2].
    split; [exact Ho2 | rewrite Hop2; exact Hop'].
Qed.

(** Every update takes its delta off [_speed], complete or not. *)
Lemma Fade_ticks_speed (sc : Scene) (deltas : list Q) :
  forall (f : Fade.t) (a : Actor),
    let f' := fst (ticks sc deltas (f, a)) in
    Fade._speed f' == Fade._speed f - total deltas
    /\ Fade._endOpacity f' = Fade._endOpacity f
    /\ Fade._stopped f' = Fade._stopped f.
Proof.
  induction deltas as [|d ds IH]; intros f a; cbv zeta.
  - cbn. repeat split. ring.
  - change (ticks sc (d :: ds) (f, a)) with (ticks sc ds (tick sc d (f, a))).
    destruct (tick sc d (f, a)) as [f1 a1] eqn:Ht.
    assert (H1 : Fade._speed f1 = Fade._speed f - d
                 /\ Fade._endOpacity f1 = Fade._endOpacity f
                 /\ Fade._stopped f1 = Fade._stopped f).
    { unfold tick in Ht. cbn [fst snd update Fade_Action] in Ht.
      unfold Fade.update in Ht.
      destruct (Fade._started f);
        match type of Ht with
        | context [if Fade.isComplete ?x ?y then _ else _] =>
            destruct (Fade.isComplete x y)
        end; inversion Ht; subst f1 a1; repeat split. }
    destruct H1 as (E1 & E2 & E3).
    destruct (IH f1 a1) as (I1 & I2 & I3).
    rewrite I1, I2, I3, E1, E2, E3. repeat split.
    change (total (d :: ds)) with (d + total ds). ring.
Qed.

(** X12: [Fade.reset] does not give back the time that the updates have
    taken off [_speed].  A [Fade] that is not stopped and whose [_speed]
    the updates have brought down to [0] or below, when it is reset, as
    [Repeat] does, and ticked with non-negative deltas, no longer changes
    the opacity: started again on an actor whose opacity is [0.05] or more
    away from the end value, it never completes. *)
Theorem Fade_cannot_be_replayed
        (sc : Scene) (f : Fade.t) (a' : Actor) (deltas' : list Q) :
  Fade._speed f <= 0 ->
  Fade._stopped f = false ->
  nonnegative deltas' ->
  5 # 100 <= Qabs (opacity a' - Fade._endOpacity f) ->
  let s := ticks sc deltas' (Fade.reset f, a') in
  Fade._speed (Fade.reset f) = Fade._speed f
  /\ Fade.isComplete (fst s) (snd s) = false
  /\ opacity (snd s) = opacity a'.
Proof.
  intros Hspent Hst Hds' Hgap. cbv zeta.
  split; [reflexivity|].
  assert (Ho : out_of_time (Fade.reset f) a').
  { unfold out_of_time, Fade.isComplete.
    cbn [Fade.reset Fade._speed Fade._stopped Fade._endOpacity].
    rewrite Hst. cbn [orb].
    split; [exact Hspent|]. split; [reflexivity|].
    apply lt_false. exact Hgap. }
  destruct (Fade_ticks_out_of_time sc deltas' Hds' _ _ Ho) as [Ho' Hop].
  split; [apply Ho' | exact Hop].
Qed.

(** The theorem on a [Fade] to [0] in 1000 ms that has been ticked twice
    for 500 ms, and is then started again on a fresh actor. *)
Lemma Fade_cannot_be_replayed_witness :
  let f := fst (ticks empty_scene [500; 500] (Fade.new 0 1000, Actor_new)) in
  let s := ticks empty_scene [20; 20; 20] (Fade.reset f, Actor_new) in
  Fade._speed f == 0
  /\ Fade.isComplete (fst s) (snd s) = false /\ opacity (snd s) = 1.
Proof.
  cbv zeta. split; [vm_compute; reflexivity|].
  refine (proj2 (Fade_cannot_be_replayed empty_scene
            (fst (ticks empty_scene [500; 500] (Fade.new 0 1000, Actor_new)))
            Actor_new [20; 20; 20] _ _ _ _)).
  - vm_compute. discriminate.
  - vm_compute. reflexivity.
  - repeat constructor; discriminate.
  - vm_compute. discriminate.
Defined.

Lemma RotateTo_run_invariants (sc : Scene) (r : RotateTo.t) (a : Actor)
      (deltas : list Q) :
  RotateTo._started r = false ->
  RotateTo._stopped r = false ->
  0 <= RotateTo._speed r ->
  nonnegative deltas ->
  deltas <> [] ->
  let s := ticks sc deltas (r, a) in
  RotateTo.isComplete (fst s) = RotateTo._stopped (fst s)
  /\ RotateTo._end (fst s) = RotateTo._end r.
Proof.
  intros Hstarted Hstopped Hspeed Hdeltas Hne s.
  set (r0 := RotateTo.start r a).
  destruct deltas as [| d ds]; [ contradiction Hne; reflexivity | ].
  assert (Hs : s = ticks sc (d :: ds) (r0, a)).
  { unfold s. change (ticks sc (d :: ds) ?x) with (ticks sc ds (tick sc d x)).
    f_equal. unfold tick. cbn [fst snd]. unfold update, RotateTo_Action.
    rewrite RotateTo_update_start by exact Hstarted. reflexivity. }
  inversion Hdeltas as [| d' ds' Hd Hds]; subst d' ds'.
  assert (Hdir := RotateTo_start_direction r a). fold r0 in Hdir.
  assert (Hspeed0 : 0 <= RotateTo._speed r0) by exact Hspeed.
  assert (Hinv : rotating r0 (fst s) (snd s) (0 + total (d :: ds))
                 /\ stopped_by_time r0 (fst s) (0 + total (d :: ds))).
  { rewrite Hs. apply RotateTo_ticks_rotating; try assumption; try lra.
    unfold rotating, r0, RotateTo.start. cbn. rewrite Hstopped.
    repeat (split; [ reflexivity | ]). q_div. ring. }
  destruct Hinv as [Hr Ht].
  assert (Htotal : 0 <= 0 + total (d :: ds))
    by (pose proof (total_nonneg (d :: ds) Hdeltas); lra).
  pose proof (RotateTo_isComplete_stopped r0 _ _ _ Hdir Hspeed0 Htotal Hr Ht)
    as Hc.
  destruct Hr as (H1 & H2 & H3 & H4 & H5 & H6 & H7 & H8).
  split; [exact Hc | exact H2].
Qed.

(** X13: [RotateTo.reset] does not clear the [_stopped] flag that
    completion has set.  A [RotateTo] that has completed and is then reset
    is complete again after one update, whatever the time and the rotation
    of the actor: that update puts the actor on the end angle at once. *)
Theorem RotateTo_cannot_be_replayed
        (sc : Scene) (angleRadians speed : Q)
        (rotationType : option RotationType) (a : Actor) (deltas : list Q)
        (a' : Actor) (delta : Q) :
  0 <= speed ->
  nonnegative deltas ->
  deltas <> [] ->
  let s := ticks sc deltas (RotateTo.new angleRadians speed rotationType, a) in
  RotateTo.isComplete (fst s) = true ->
  let u := RotateTo.update (RotateTo.reset (fst s)) a' delta in
  RotateTo.isComplete (fst u) = true
  /\ rotation (snd u) = angleRadians
  /\ rx (snd u) = 0.
Proof.
  intros Hspeed Hds Hne. cbv zeta. intro Hc.
  destruct (RotateTo_run_invariants sc
              (RotateTo.new angleRadians speed rotationType) a deltas
              eq_refl eq_refl Hspeed Hds Hne) as [Hcs He].
  cbv zeta in Hcs, He. rewrite Hcs in Hc.
  cbn [RotateTo.new RotateTo._end] in He.
  set (r := fst (ticks sc deltas
                   (RotateTo.new angleRadians speed rotationType, a))) in *.
  unfold RotateTo.update.
  cbn [RotateTo.reset RotateTo._started].
  set (r1 := RotateTo.start _ a').
  assert (Hs1 : RotateTo._stopped r1 = true) by exact Hc.
  assert (He1 : RotateTo._end r1 = angleRadians) by exact He.
  set (r2 := RotateTo.mk _ _ _ _ _ _ _ _ _ _ _ (RotateTo._stopped r1) _).
  assert (Hc2 : RotateTo.isComplete r2 = true).
  { unfold RotateTo.isComplete, r2. cbn [RotateTo._stopped]. rewrite Hs1.
    reflexivity. }
  rewrite Hc2. cbn [fst snd].
  split; [reflexivity|]. split; [exact He1 | reflexivity].
Qed.

Lemma RotateTo_cannot_be_replayed_witness :
  let s := ticks empty_scene [1000]
             (RotateTo.new (JS.Math_PI / 2) (JS.Math_PI / 2) None,
              Actor_new) in
  rotation (snd (RotateTo.update (RotateTo.reset (fst s)) Actor_new 16))
  = JS.Math_PI / 2.
Proof.
  cbv zeta.
  refine (proj1 (proj2 (RotateTo_cannot_be_replayed empty_scene
            (JS.Math_PI / 2) (JS.Math_PI / 2) None Actor_new [1000]
            Actor_new 16 _ _ _ _))).
  - vm_compute. discriminate.
  - repeat constructor; discriminate.
  - discriminate.
  - vm_compute. reflexivity.
Defined.

(** ** [Delay] and [Blink]: the time they take *)

Lemma fold_left_Qplus (deltas : list Q) (t : Q) :
  fold_left Qplus deltas t == t + total deltas.
Proof.
  revert t. induction deltas as [|d ds IH]; intro t; cbn [fold_left total fold_right].
  - ring.
  - rewrite IH. unfold total. ring.
Qed.

Lemma elapsed_total (deltas : list Q) : elapsed_time deltas == total deltas.
Proof. unfold elapsed_time. rewrite fold_left_Qplus. ring. Qed.

Lemma Delay_ticks_with (move : Actor -> Q -> Actor) (sc : Scene)
      (deltas : list Q) :
  forall (d : Delay.t) (a : Actor),
    let s := ticks_with move sc deltas (d, a) in
    Delay._elapsedTime (fst s) = fold_left Qplus deltas (Delay._elapsedTime d)
    /\ Delay._delay (fst s) = Delay._delay d
    /\ Delay._stopped (fst s) = Delay._stopped d
    /\ snd s = fold_left move deltas a.
Proof.
  induction deltas as [|x ds IH]; intros d a; cbv zeta.
  - cbn. repeat split.
  - change (ticks_with move sc (x :: ds) (d, a))
      with (ticks_with move sc ds (tick_with move sc x (d, a))).
    unfold tick_with at 2. cbn [fst snd update Delay_Action Delay.update].
    destruct (IH (Delay.mk (Vector.x (pos a)) (Vector.y (pos a))
                    (Delay._elapsedTime d + x) (Delay._delay d) true
                    (Delay._stopped d)) (move a x)) as (H1 & H2 & H3 & H4).
    repeat split; assumption.
Qed.

(** X14: a [Delay] adds up the deltas of its updates and is complete when
    the sum it holds has reached the delay; for deltas that are whole
    numbers of milliseconds, which doubles add without rounding, it is
    complete exactly when the deltas add up to the delay or more.  It
    never writes to the actor: after a run of ticks the actor is what the
    engine alone has made of it. *)
Theorem Delay_completes_when_the_time_is_up
        (move : Actor -> Q -> Actor) (sc : Scene) (delay : Q) (a : Actor)
        (deltas : list Q) :
  let s := ticks_with move sc deltas (Delay.new delay, a) in
  Delay._elapsedTime (fst s) == total deltas
  /\ Delay.isComplete (fst s) = JS.ge (Delay._elapsedTime (fst s)) delay
  /\ (whole_milliseconds deltas ->
      Delay.isComplete (fst s) = JS.ge (total deltas) delay)
  /\ snd s = fold_left move deltas a.
Proof.
  cbv zeta.
  destruct (Delay_ticks_with move sc deltas (Delay.new delay) a)
    as (H1 & H2 & H3 & H4).
  assert (He : Delay._elapsedTime
                 (fst (ticks_with move sc deltas (Delay.new delay, a)))
               == total deltas).
  { rewrite H1. apply elapsed_total. }
  assert (Hc : Delay.isComplete
                 (fst (ticks_with move sc deltas (Delay.new delay, a)))
               = JS.ge (Delay._elapsedTime
                          (fst (ticks_with move sc deltas
                                  (Delay.new delay, a)))) delay).
  { unfold Delay.isComplete. rewrite H2, H3. reflexivity. }
  split; [exact He|]. split; [exact Hc|]. split; [|exact H4].
  intros _. rewrite Hc. apply Qleb_comp; [reflexivity | exact He].
Qed.

(** The theorem on a delay of one second: not over after 900 ms, over
    after 1000 ms. *)
Lemma Delay_completes_when_the_time_is_up_witness :
  Delay.isComplete
    (fst (ticks_with integrate empty_scene [400; 500]
            (Delay.new 1000, Actor_new))) = false
  /\ Delay.isComplete
       (fst (ticks_with integrate empty_scene [400; 500; 100]
               (Delay.new 1000, Actor_new))) = true.
Proof.
  split.
  - refine (proj1 (proj2 (proj2 (Delay_completes_when_the_time_is_up
              integrate empty_scene 1000 Actor_new [400; 500]))) _).
    split; [repeat constructor | vm_compute; discriminate].
  - refine (proj1 (proj2 (proj2 (Delay_completes_when_the_time_is_up
              integrate empty_scene 1000 Actor_new [400; 500; 100]))) _).
    split; [repeat constructor | vm_compute; discriminate].
Defined.

Lemma Blink_ticks (sc : Scene) (deltas : list Q) :
  forall (b : Blink.t) (a : Actor),
    let s := ticks sc deltas (b, a) in
    Blink._totalTime (fst s) = fold_left Qplus deltas (Blink._totalTime b)
    /\ Blink._duration (fst s) = Blink._duration b
    /\ Blink._stopped (fst s) = Blink._stopped b
    /\ (deltas <> [] -> Blink.isComplete (fst s) = true ->
        visible (snd s) = true).
Proof.
  induction deltas as [|x ds IH]; intros b a; cbv zeta.
  - cbn. repeat split. congruence.
  - change (ticks sc (x :: ds) (b, a))
      with (ticks sc ds (tick sc x (b, a))).
    destruct (tick sc x (b, a)) as [b1 a1] eqn:Ht.
    assert (Hb1 : Blink._totalTime b1 = Blink._totalTime b + x
                  /\ Blink._duration b1 = Blink._duration b
                  /\ Blink._stopped b1 = Blink._stopped b
                  /\ (Blink.isComplete b1 = true -> visible a1 = true)).
    { unfold tick in Ht. cbn [fst snd update Blink_Action] in Ht.
      unfold Blink.update in Ht.
      match type of Ht with
      | context [if Blink.isComplete ?b' then _ else _] =>
          destruct (Blink.isComplete b') eqn:Hc
      end; inversion Ht; subst b1 a1; clear Ht;
        cbn [Blink._totalTime Blink._duration Blink._stopped];
        repeat split; try reflexivity.
      intro Hc'. rewrite Hc' in Hc. discriminate Hc. }
    destruct Hb1 as (T1 & T2 & T3 & T4).
    destruct (IH b1 a1) as (H1 & H2 & H3 & H4).
    rewrite H1, H2, H3, T1, T2, T3.
    repeat split.
    intros _ Hc. destruct ds as [|y ds'].
    + cbn [ticks fold_left fst snd] in *. apply T4. exact Hc.
    + apply H4; [congruence | exact Hc].
Qed.

(** X15: the duration of a [Blink] is
    [(timeVisible + timeNotVisible) * numBlinks] ([numBlinks] is [1] when
    it is not given).  A [Blink] adds up the deltas of its updates and is
    complete when the sum it holds has reached the duration it holds; for
    deltas that are whole numbers of milliseconds, which doubles add
    without rounding, it is complete exactly when the deltas add up to
    that duration or more.  The update that completes it leaves the actor
    visible. *)
Theorem Blink_completes_visible_when_the_time_is_up
        (sc : Scene) (timeVisible timeNotVisible : Q) (numBlinks : option Q)
        (a : Actor) (deltas : list Q) :
  let s := ticks sc deltas
             (Blink.new timeVisible timeNotVisible numBlinks, a) in
  let n := match numBlinks with Some n => n | None => 1 end in
  Blink._duration (fst s) == (timeVisible + timeNotVisible) * n
  /\ Blink._totalTime (fst s) == total deltas
  /\ Blink.isComplete (fst s)
     = JS.ge (Blink._totalTime (fst s)) (Blink._duration (fst s))
  /\ (whole_milliseconds deltas ->
      Blink.isComplete (fst s)
      = JS.ge (total deltas) (Blink._duration (fst s)))
  /\ (deltas <> [] -> Blink.isComplete (fst s) = true ->
      visible (snd s) = true).
Proof.
  cbv zeta.
  destruct (Blink_ticks sc deltas
              (Blink.new timeVisible timeNotVisible numBlinks) a)
    as (H1 & H2 & H3 & H4).
  set (s := ticks sc deltas
              (Blink.new timeVisible timeNotVisible numBlinks, a)) in *.
  assert (Ht : Blink._totalTime (fst s) == total deltas).
  { rewrite H1. apply elapsed_total. }
  assert (Hc : Blink.isComplete (fst s)
               = JS.ge (Blink._totalTime (fst s)) (Blink._duration (fst s))).
  { unfold Blink.isComplete. rewrite H3. reflexivity. }
  split; [rewrite H2; reflexivity|]. split; [exact Ht|].
  split; [exact Hc|]. split; [|exact H4].
  intros _. rewrite Hc. apply Qleb_comp; [reflexivity | exact Ht].
Qed.

(** The theorem on two blinks of 200 ms and 200 ms, ticked for 800 ms. *)
Lemma Blink_completes_visible_when_the_time_is_up_witness :
  let s := ticks empty_scene [100; 100; 200; 200; 200]
             (Blink.new 200 200 (Some 2), Actor_new) in
  Blink.isComplete (fst s) = true /\ visible (snd s) = true.
Proof.
  cbv zeta.
  destruct (Blink_completes_visible_when_the_time_is_up empty_scene 200 200
              (Some 2) Actor_new [100; 100; 200; 200; 200])
    as (_ & _ & _ & Hw & Hv).
  assert (Hc : Blink.isComplete
                 (fst (ticks empty_scene [100; 100; 200; 200; 200]
                         (Blink.new 200 200 (Some 2), Actor_new))) = true).
  { rewrite Hw.
    - vm_compute. reflexivity.
    - split; [repeat constructor | vm_compute; discriminate]. }
  split; [exact Hc | apply Hv; [discriminate | exact Hc]].
Defined.

(** ** [Fade]: the opacity over time *)

Lemma Qabs_gap (e o0 S t : Q) :
  0 < S -> t <= S ->
  Qabs (o0 + (e - o0) * t / S - e) == Qabs (e - o0) * (S - t) / S.
Proof.
  intros HS Ht.
  setoid_replace (o0 + (e - o0) * t / S - e)
    with ((- (e - o0)) * ((S - t) / S)) by (field; lra).
  rewrite Qabs_Qmult, Qabs_opp.
  rewrite (Qabs_pos ((S - t) / S)).
  - field. lra.
  - apply Qle_shift_div_l; [exact HS | lra].
Qed.

Lemma gap_decreases (e o0 S t delta : Q) :
  0 < S -> 0 <= delta ->
  Qabs (e - o0) * (S - (t + delta)) / S <= Qabs (e - o0) * (S - t) / S.
Proof.
  intros HS Hd.
  assert (H : 0 <= Qabs (e - o0) * delta / S).
  { apply Qle_shift_div_l; [exact HS|].
    setoid_replace (0 * S) with 0 by ring.
    apply Qmult_le_0_compat; [apply Qabs_nonneg | exact Hd]. }
  setoid_replace (Qabs (e - o0) * (S - (t + delta)) / S)
    with (Qabs (e - o0) * (S - t) / S - Qabs (e - o0) * delta / S)
    by (field; lra).
  lra.
Qed.

Lemma Fade_isComplete_at_end (f : Fade.t) (a : Actor) :
  opacity a == Fade._endOpacity f -> Fade.isComplete f a = true.
Proof.
  intro Ho. unfold Fade.isComplete. apply orb_true_iff. right.
  apply lt_true. unfold JS.Math_abs. rewrite Ho.
  setoid_replace (Fade._endOpacity f - Fade._endOpacity f) with 0 by ring.
  reflexivity.
Qed.

Lemma Fade_tick_fading (sc : Scene) (e S o0 t delta : Q) (f : Fade.t)
      (a : Actor) :
  0 < S -> 0 <= t -> 0 <= delta -> t + delta <= S ->
  fading e S o0 t f a ->
  let s := tick sc delta (f, a) in
  fading e S o0 (t + delta) (fst s) (snd s)
  /\ (Fade.isComplete (fst s) (snd s) = true -> opacity (snd s) = e).
Proof.
  intros HS Ht Hd HtS (He & Hst & Hsd & Hsp & Hm & Hc & Ho). cbv zeta.
  unfold tick. cbn [fst snd update Fade_Action].
  unfold Fade.update. rewrite Hsd.
  set (a1 := if JS.gt (Fade._speed f) 0 then _ else a).
  set (f2 := Fade.mk _ _ _ _ _).
  assert (Hf2 : forall x, Fade.isComplete f2 x = Fade.isComplete f x).
  { intro x. unfold Fade.isComplete, f2. reflexivity. }
  assert (Hfrac : 0 <= (S - t) / S)
    by (apply Qle_shift_div_l; [exact HS | lra]).
  (* what the opacity of [a1] is *)
  assert (Ha1 : (opacity a == e -> opacity a1 == e)
                /\ (opacity a == o0 + (e - o0) * t / S ->
                    opacity a1 == o0 + (e - o0) * (t + delta) / S)).
  { unfold a1. destruct (JS.gt (Fade._speed f) 0) eqn:Hg.
    - apply gt_true in Hg. rewrite Hsp in Hg.
      cbn [opacity set_opacity]. split; intro Hx.
      + rewrite Hx, He.
        setoid_replace (e - e) with 0 by ring.
        change (JS.Math_abs 0) with 0. field. rewrite Hsp. lra.
      + rewrite He, Hm. unfold JS.Math_abs.
        destruct (JS.lt e o0) eqn:Hlt.
        * apply lt_true in Hlt.
          rewrite (Qabs_pos (opacity a - e)).
          -- rewrite Hsp, Hx. field. split; lra.
          -- rewrite Hx.
             setoid_replace (o0 + (e - o0) * t / S - e)
               with ((o0 - e) * ((S - t) / S)) by (field; lra).
             apply Qmult_le_0_compat; [lra | exact Hfrac].
        * apply lt_false in Hlt.
          rewrite (Qabs_neg (opacity a - e)).
          -- rewrite Hsp, Hx. field. split; lra.
          -- rewrite Hx.
             setoid_replace (o0 + (e - o0) * t / S - e)
               with (- ((e - o0) * ((S - t) / S))) by (field; lra).
             assert (0 <= (e - o0) * ((S - t) / S))
               by (apply Qmult_le_0_compat; [lra | exact Hfrac]).
             lra.
    - apply gt_false in Hg. rewrite Hsp in Hg.
      assert (Hd0 : delta == 0) by lra.
      split; intro Hx.
      + exact Hx.
      + rewrite Hx, Hd0. field. lra. }
  destruct Ha1 as [Ha11 Ha10].
  (* the completion test on [a1] *)
  assert (Hca1 : Fade.isComplete f a1
                 = JS.lt (Qabs (e - o0) * (S - (t + delta)) / S) (5 # 100)).
  { destruct Ho as [[Hoe Hx] | Hol].
    - rewrite (Fade_isComplete_at_end f a1)
        by (rewrite He; apply Ha11; exact Hoe).
      symmetry. apply lt_true.
      rewrite Hx in Hc. symmetry in Hc. apply lt_true in Hc.
      pose proof (gap_decreases e o0 S t delta HS Hd). lra.
    - unfold Fade.isComplete. rewrite Hst. cbn [orb]. unfold JS.lt.
      f_equal. apply Qleb_comp; [reflexivity|]. unfold JS.Math_abs.
      rewrite (Ha10 Hol), He. apply Qabs_gap; assumption. }
  assert (Ho1 : (opacity a1 == e /\ Fade.isComplete f a1 = true)
                \/ opacity a1 == o0 + (e - o0) * (t + delta) / S).
  { destruct Ho as [[Hoe Hx] | Hol].
    - left. split; [apply Ha11; exact Hoe|].
      apply Fade_isComplete_at_end. rewrite He. apply Ha11. exact Hoe.
    - right. apply Ha10. exact Hol. }
  assert (Hsp2 : Fade._speed f2 == S - (t + delta))
    by (unfold f2; cbn [Fade._speed]; rewrite Hsp; ring).
  rewrite Hf2.
  destruct (Fade.isComplete f a1) eqn:Hx1; cbn [fst snd]; unfold fading.
  - assert (Hnow : Fade.isComplete f2
                     (integrate (set_opacity a1 (Fade._endOpacity f2)) delta)
                   = true).
    { apply Fade_isComplete_at_end. reflexivity. }
    rewrite Hnow. split.
    + split; [exact He|]. split; [exact Hst|]. split; [exact Hsd|].
      split; [exact Hsp2|]. split; [exact Hm|]. split; [exact Hca1|].
      left. split; [cbn; rewrite He; reflexivity | reflexivity].
    + intros _. cbn. exact He.
  - assert (Hnow : Fade.isComplete f2 (integrate a1 delta) = false).
    { rewrite Hf2. exact Hx1. }
    rewrite Hnow. split.
    + split; [exact He|]. split; [exact Hst|]. split; [exact Hsd|].
      split; [exact Hsp2|]. split; [exact Hm|]. split; [exact Hca1|].
      right. change (opacity (integrate a1 delta)) with (opacity a1).
      destruct Ho1 as [[_ Hf] | Hl]; [discriminate Hf | exact Hl].
    + intro Hf. discriminate Hf.
Qed.

Lemma Fade_ticks_fading (sc : Scene) (e S o0 : Q) (deltas : list Q) :
  0 < S -> nonnegative deltas ->
  forall (t : Q) (f : Fade.t) (a : Actor),
    0 <= t -> t + total deltas <= S ->
    fading e S o0 t f a ->
    let s := ticks sc deltas (f, a) in
    fading e S o0 (t + total deltas) (fst s) (snd s)
    /\ (deltas <> [] -> Fade.isComplete (fst s) (snd s) = true ->
        opacity (snd s) = e).
Proof.
  intros HS Hds. induction Hds as [|d ds Hd Hds IH]; intros t f a Ht HtS Hf.
  - cbn. split; [|congruence].
    destruct Hf as (He & Hst & Hsd & Hsp & Hm & Hc & Ho).
    unfold fading. repeat (split; [assumption|]).
    split; [rewrite Hsp; ring|]. split; [exact Hm|].
    split.
    + rewrite Hc. unfold JS.lt. f_equal.
      apply Qleb_comp; [reflexivity|].
      setoid_replace (t + 0) with t by ring. reflexivity.
    + destruct Ho as [Ho|Ho]; [left; exact Ho | right].
      rewrite Ho. setoid_replace (t + 0) with t by ring. reflexivity.
  - change (ticks sc (d :: ds) (f, a)) with (ticks sc ds (tick sc d (f, a))).
    assert (Htot : total (d :: ds) == d + total ds) by reflexivity.
    pose proof (total_nonneg ds Hds) as Hnn.
    rewrite Htot in HtS.
    destruct (Fade_tick_fading sc e S o0 t d f a HS Ht Hd ltac:(lra) Hf)
      as [Hf1 Hsnap].
    destruct (tick sc d (f, a)) as [f1 a1]. cbn [fst snd] in *.
    destruct (IH (t + d) f1 a1 ltac:(lra) ltac:(lra) Hf1) as [Hf2 Hsnap2].
    cbv zeta in *. split.
    + destruct Hf2 as (He & Hst & Hsd & Hsp & Hm & Hc & Ho).
      unfold fading. repeat (split; [assumption|]).
      split; [rewrite Hsp, Htot; ring|]. split; [exact Hm|].
      split.
      * rewrite Hc. unfold JS.lt. f_equal.
        apply Qleb_comp; [reflexivity|]. rewrite Htot.
        setoid_replace (t + (d + total ds)) with (t + d + total ds) by ring.
        reflexivity.
      * destruct Ho as [Ho|Ho]; [left; exact Ho | right].
        rewrite Ho, Htot.
        setoid_replace (t + (d + total ds)) with (t + d + total ds) by ring.
        reflexivity.
    + intros _ Hc. destruct ds as [|d' ds'].
      * cbn [ticks fold_left fst snd] in *. apply Hsnap. exact Hc.
      * apply Hsnap2; [congruence | exact Hc].
Qed.

(** X16: a [Fade] changes the opacity at a constant rate.  A new [Fade]
    of a duration [speed > 0], ticked at least once with non-negative
    deltas that add up to [t <= speed]: as long as it is not complete, the
    opacity is [opacity + (endOpacity - opacity) * t / speed], whatever the
    deltas; when it is complete, it has put the opacity on the end
    value. *)
Theorem Fade_is_linear_in_time
        (sc : Scene) (endOpacity speed : Q) (a : Actor) (deltas : list Q) :
  0 < speed ->
  nonnegative deltas ->
  total deltas <= speed ->
  deltas <> [] ->
  let s := ticks sc deltas (Fade.new endOpacity speed, a) in
  (Fade.isComplete (fst s) (snd s) = true ->
   opacity (snd s) = endOpacity)
  /\ (Fade.isComplete (fst s) (snd s) = false ->
      opacity (snd s)
      == opacity a + (endOpacity - opacity a) * total deltas / speed).
Proof.
  intros HS Hds Htot Hne. cbv zeta.
  set (f0 := Fade.mk endOpacity speed
               (if JS.lt endOpacity (opacity a) then -1 else 1) true false).
  assert (Hsame : ticks sc deltas (Fade.new endOpacity speed, a)
                  = ticks sc deltas (f0, a)).
  { destruct deltas as [|d ds]; [congruence|].
    change (ticks sc (d :: ds) ?x) with (ticks sc ds (tick sc d x)).
    f_equal. }
  rewrite Hsame.
  assert (H0 : fading endOpacity speed (opacity a) 0 f0 a).
  { unfold fading, f0. cbn [Fade._endOpacity Fade._stopped Fade._started
      Fade._speed Fade._multiplier].
    repeat (split; [reflexivity|]). split; [ring|]. split; [reflexivity|].
    split.
    - unfold Fade.isComplete. cbn [Fade._stopped Fade._endOpacity orb].
      unfold JS.lt, JS.Math_abs. f_equal.
      apply Qleb_comp; [reflexivity|].
      setoid_replace (opacity a - endOpacity)
        with (- (endOpacity - opacity a)) by ring.
      rewrite Qabs_opp. field. lra.
    - right. field. lra. }
  destruct (Fade_ticks_fading sc endOpacity speed (opacity a) deltas HS Hds
              0 f0 a ltac:(lra) ltac:(lra) H0) as [Hf Hsnap].
  cbv zeta in *.
  destruct Hf as (He & Hst & Hsd & Hsp & Hm & Hc & Ho).
  split.
  - apply Hsnap. exact Hne.
  - intro Hx. destruct Ho as [[_ Hy] | Hl]; [congruence|].
    rewrite Hl. setoid_replace (0 + total deltas) with (total deltas) by ring.
    reflexivity.
Qed.

(** The theorem on a [Fade] from [1] to [0] in 1000 ms: half way after
    500 ms, and on [0] after 1000 ms. *)
Lemma Fade_is_linear_in_time_witness :
  let s := ticks empty_scene [250; 250] (Fade.new 0 1000, Actor_new) in
  let s' := ticks empty_scene [250; 250; 500] (Fade.new 0 1000, Actor_new) in
  (Fade.isComplete (fst s) (snd s) = false /\ opacity (snd s) == 1 # 2)
  /\ (Fade.isComplete (fst s') (snd s') = true /\ opacity (snd s') = 0).
Proof.
  cbv zeta. split.
  - destruct (Fade_is_linear_in_time empty_scene 0 1000 Actor_new [250; 250])
      as (_ & Hl).
    + reflexivity.
    + repeat constructor; discriminate.
    + vm_compute. discriminate.
    + discriminate.
    + assert (Hx : Fade.isComplete
                     (fst (ticks empty_scene [250; 250]
                             (Fade.new 0 1000, Actor_new)))
                     (snd (ticks empty_scene [250; 250]
                             (Fade.new 0 1000, Actor_new))) = false)
        by (vm_compute; reflexivity).
      split; [exact Hx|]. rewrite (Hl Hx). vm_compute. reflexivity.
  - destruct (Fade_is_linear_in_time empty_scene 0 1000 Actor_new
                [250; 250; 500]) as (Hs & _).
    + reflexivity.
    + repeat constructor; discriminate.
    + vm_compute. discriminate.
    + discriminate.
    + assert (Hx : Fade.isComplete
                     (fst (ticks empty_scene [250; 250; 500]
                             (Fade.new 0 1000, Actor_new)))
                     (snd (ticks empty_scene [250; 250; 500]
                             (Fade.new 0 1000, Actor_new))) = true)
        by (vm_compute; reflexivity).
      split; [exact Hx | exact (Hs Hx)].
Defined.



(** ** [EaseTo]: the easing function *)

Lemma EaseTo_ticks_initialized (sc : Scene) (deltas : list Q) :
  forall (e : EaseTo.t) (a : Actor),
    EaseTo._initialized e = true ->
    let e' := fst (ticks sc deltas (e, a)) in
    EaseTo._initialized e' = true
    /\ EaseTo._currentLerpTime e'
       = fold_left Qplus deltas (EaseTo._currentLerpTime e)
    /\ EaseTo._lerpDuration e' = EaseTo._lerpDuration e
    /\ EaseTo._lerpStart e' = EaseTo._lerpStart e
    /\ EaseTo._lerpEnd e' = EaseTo._lerpEnd e
    /\ EaseTo.easingFcn e' = EaseTo.easingFcn e.
Proof.
  induction deltas as [|d ds IH]; intros e a Hi; cbv zeta.
  - cbn. repeat split. exact Hi.
  - change (ticks sc (d :: ds) (e, a)) with (ticks sc ds (tick sc d (e, a))).
    destruct (tick sc d (e, a)) as [e1 a1] eqn:Ht.
    assert (He1 : EaseTo._initialized e1 = true
                  /\ EaseTo._currentLerpTime e1 = EaseTo._currentLerpTime e + d
                  /\ EaseTo._lerpDuration e1 = EaseTo._lerpDuration e
                  /\ EaseTo._lerpStart e1 = EaseTo._lerpStart e
                  /\ EaseTo._lerpEnd e1 = EaseTo._lerpEnd e
                  /\ EaseTo.easingFcn e1 = EaseTo.easingFcn e).
    { unfold tick in Ht. cbn [fst snd update EaseTo_Action] in Ht.
      unfold EaseTo.update in Ht. rewrite Hi in Ht.
      destruct (JS.lt _ _) in Ht; inversion Ht; subst e1 a1; cbn;
        repeat split; exact Hi. }
    destruct He1 as (I1 & I2 & I3 & I4 & I5 & I6).
    destruct (IH e1 a1 I1) as (H1 & H2 & H3 & H4 & H5 & H6).
    cbn [fold_left]. rewrite H2, H3, H4, H5, H6, I2, I3, I4, I5, I6.
    repeat split. exact H1.
Qed.

Lemma EaseTo_tick_on_curve (sc : Scene) (e : EaseTo.t) (a : Actor)
      (delta : Q) :
  EaseTo._initialized e = true ->
  ~ delta == 0 ->
  let t := EaseTo._currentLerpTime e + delta in
  let s := EaseTo._lerpStart e in
  let d := EaseTo._lerpEnd e in
  Vector.eqv (pos (snd (tick sc delta (e, a))))
    (if JS.lt t (EaseTo._lerpDuration e)
     then vec (eased (EaseTo.easingFcn e) t (Vector.x s) (Vector.x d)
                     (EaseTo._lerpDuration e))
              (eased (EaseTo.easingFcn e) t (Vector.y s) (Vector.y d)
                     (EaseTo._lerpDuration e))
     else vec (Vector.x d) (Vector.y d)).
Proof.
  intros Hi Hd. cbv zeta.
  unfold tick. cbn [fst snd update EaseTo_Action]. unfold EaseTo.update.
  rewrite Hi.
  cbn [EaseTo._currentLerpTime EaseTo._lerpDuration EaseTo._lerpStart
       EaseTo._lerpEnd EaseTo.easingFcn].
  destruct (JS.lt (EaseTo._currentLerpTime e + delta) (EaseTo._lerpDuration e));
    cbn [fst snd]; unfold integrate, Vector.eqv, eased;
    cbn [pos vel set_vel set_pos Vector.add Vector.scale Vector.x Vector.y
         Vector.Zero].
  - split; (field; repeat split; (exact Hd || discriminate)).
  - split; ring.
Qed.

(** X18: an [EaseTo] keeps the actor on its easing function.  After any
    run of ticks with deltas other than zero, the actor is where the easing
    function puts it at the time elapsed, between the place where the
    first update found it and the end point (mirrored for an axis that
    goes down); once the duration is over it is on the end point. *)
Theorem EaseTo_follows_its_easing_function
        (sc : Scene) (x y duration : Q) (easingFcn : Q -> Q -> Q -> Q -> Q)
        (a : Actor) (deltas : list Q) (delta : Q) :
  Forall (fun d => ~ d == 0) (deltas ++ [delta]) ->
  let s := ticks sc (deltas ++ [delta]) (EaseTo.new x y duration easingFcn, a) in
  let t := elapsed_time (deltas ++ [delta]) in
  Vector.eqv (pos (snd s))
    (if JS.lt t duration
     then vec (eased easingFcn t (Vector.x (pos a)) x duration)
              (eased easingFcn t (Vector.y (pos a)) y duration)
     else vec x y).
Proof.
  intro Hall. cbv zeta.
  assert (Hd : ~ delta == 0).
  { apply Forall_app in Hall. destruct Hall as [_ Hl].
    inversion Hl; assumption. }
  set (e0 := EaseTo.mk 0 duration
               (vec (Vector.x (pos a)) (Vector.y (pos a))) (vec x y) true
               false
               (Vector.distance (vec (Vector.x (pos a)) (Vector.y (pos a)))
                                (vec x y))
               easingFcn).
  assert (Hsame : ticks sc (deltas ++ [delta])
                    (EaseTo.new x y duration easingFcn, a)
                  = ticks sc (deltas ++ [delta]) (e0, a)).
  { destruct deltas as [|d ds]; cbn [app].
    - reflexivity.
    - change (ticks sc (d :: ?l) ?st) with (ticks sc l (tick sc d st)).
      f_equal. }
  rewrite Hsame, ticks_app.
  destruct (EaseTo_ticks_initialized sc deltas e0 a eq_refl)
    as (H1 & H2 & H3 & H4 & H5 & H6).
  destruct (ticks sc deltas (e0, a)) as [e1 a1]. cbn [fst snd] in *.
  change (ticks sc [delta] (e1, a1)) with (tick sc delta (e1, a1)).
  pose proof (EaseTo_tick_on_curve sc e1 a1 delta H1 Hd) as Hc.
  cbv zeta in Hc. rewrite H2, H3, H4, H5, H6 in Hc.
  unfold elapsed_time. rewrite fold_left_app. cbn [fold_left].
  exact Hc.
Qed.

Lemma EaseTo_follows_its_easing_function_witness :
  Vector.eqv
    (pos (snd (ticks empty_scene [100; 300]
                 (EaseTo.new 100 0 1000 Linear, Actor_new))))
    (vec 40 0).
Proof.
  refine (_ (EaseTo_follows_its_easing_function empty_scene 100 0 1000 Linear
               Actor_new [100] 300 _)).
  - intros [Hx Hy]. split.
    + rewrite Hx. vm_compute. reflexivity.
    + rewrite Hy. vm_compute. reflexivity.
  - repeat constructor; discriminate.
Defined.

(** ** [ScaleTo]: completion reads the Y scale only *)

Lemma waiting_for_y_incomplete (s : ScaleTo.t) (a : Actor) :
  waiting_for_y s a -> ScaleTo.isComplete s a = false.
Proof.
  intros (_ & Ha & Hs & _ & Hy & Hx). unfold ScaleTo.isComplete.
  rewrite Ha, Hs. cbn [orb andb].
  apply andb_false_iff. left. apply ge_false. unfold JS.Math_abs.
  rewrite Hy. exact Hx.
Qed.

Lemma ScaleTo_tick_waiting (sc : Scene) (delta : Q) (s : ScaleTo.t)
      (a : Actor) :
  waiting_for_y s a ->
  waiting_for_y (fst (tick sc delta (s, a))) (snd (tick sc delta (s, a))).
Proof.
  intro Hw. pose proof Hw as (Hst & Ha & Hs & Hdy & Hy & Hx).
  unfold tick. cbn [fst snd update ScaleTo_Action]. unfold ScaleTo.update.
  rewrite Hst.
  set (a1 := if negb (JS.ge (JS.Math_abs (Vector.x (scale a) - _)) _)
             then _ else _).
  assert (Hsc1 : scale a1 = scale a).
  { unfold a1. destruct (negb _); reflexivity. }
  assert (Hy1 : negb (JS.ge (JS.Math_abs (Vector.y (scale a1)
                                          - ScaleTo._startY s))
                            (ScaleTo._distanceY s)) = false).
  { apply negb_false_iff, ge_true. unfold JS.Math_abs.
    rewrite Hsc1, Hy, Hdy.
    setoid_replace (ScaleTo._startY s - ScaleTo._startY s) with 0 by ring.
    cbn. lra. }
  rewrite Hy1.
  assert (Hw2 : waiting_for_y s (set_sy a1 0)).
  { unfold waiting_for_y. cbn [scale set_sy]. rewrite Hsc1.
    repeat split; assumption. }
  rewrite (waiting_for_y_incomplete _ _ Hw2). cbn [fst snd].
  unfold waiting_for_y.
  repeat (split; [assumption|]). split; [|exact Hx].
  unfold integrate. cbn [scale set_sy sy Vector.y]. rewrite Hsc1, <- Hy.
  field.
Qed.

(** X19: [ScaleTo.isComplete] tests the Y scale against both distances.
    A [ScaleTo] whose end Y scale is the Y scale of the actor, and whose X
    scale has further to go than the Y scale is away from the X scale at
    the start, never completes: the Y scale does not move, and the X scale
    is never looked at. *)
Theorem ScaleTo_never_completes_when_only_x_changes
        (sc : Scene) (scaleX scaleY speedX speedY : Q) (a : Actor)
        (deltas : list Q) :
  scaleY == Vector.y (scale a) ->
  Qabs (Vector.y (scale a) - Vector.x (scale a))
  < Qabs (scaleX - Vector.x (scale a)) ->
  let s := ticks sc deltas (ScaleTo.new scaleX scaleY speedX speedY, a) in
  ScaleTo.isComplete (fst s) (snd s) = false
  /\ Vector.y (scale (snd s)) == Vector.y (scale a).
Proof.
  intros HY HX. cbv zeta.
  destruct deltas as [|d ds].
  - cbn. split; reflexivity.
  - set (s0 := ScaleTo.mk (Vector.x (scale a)) (Vector.y (scale a)) scaleX
                 scaleY speedX speedY
                 (JS.Math_abs (scaleX - Vector.x (scale a)))
                 (JS.Math_abs (scaleY - Vector.y (scale a)))
                 true false true).
    assert (Hsame : ticks sc (d :: ds)
                      (ScaleTo.new scaleX scaleY speedX speedY, a)
                    = ticks sc (d :: ds) (s0, a)).
    { change (ticks sc (d :: ds) ?st) with (ticks sc ds (tick sc d st)).
      f_equal. }
    rewrite Hsame.
    assert (H0 : waiting_for_y s0 a
                 /\ ScaleTo._startY s0 = Vector.y (scale a)).
    { split; [|reflexivity]. unfold waiting_for_y, s0.
      cbn [ScaleTo._started ScaleTo._assigned ScaleTo._stopped
           ScaleTo._distanceY ScaleTo._distanceX ScaleTo._startX
           ScaleTo._startY].
      repeat (split; [reflexivity|]). split; [|split].
      - unfold JS.Math_abs. rewrite HY.
        setoid_replace (Vector.y (scale a) - Vector.y (scale a)) with 0
          by ring. reflexivity.
      - reflexivity.
      - exact HX. }
    generalize (d :: ds) as l. intro l.
    set (st := (s0, a)) in *.
    change s0 with (fst st) in H0. change a with (snd st) in H0 at 1.
    clearbody st. clear Hsame. revert st H0.
    induction l as [|x l IH]; intros st [Hw He].
    + cbn. split; [apply waiting_for_y_incomplete; exact Hw|].
      destruct Hw as (_ & _ & _ & _ & Hy & _). rewrite Hy, He. reflexivity.
    + change (ticks sc (x :: l) st) with (ticks sc l (tick sc x st)).
      apply IH. destruct st as [s1 a1]. cbn [fst snd] in *.
      split; [apply ScaleTo_tick_waiting; exact Hw|].
      unfold tick. cbn [fst snd update ScaleTo_Action].
      unfold ScaleTo.update.
      destruct Hw as (Hst & _). rewrite Hst.
      destruct (ScaleTo.isComplete s1 _); exact He.
Qed.

Lemma ScaleTo_never_completes_when_only_x_changes_witness :
  let s := ticks empty_scene [1000; 1000; 1000]
             (ScaleTo.new 2 1 1 1, Actor_new) in
  ScaleTo.isComplete (fst s) (snd s) = false.
Proof.
  cbv zeta.
  refine (proj1 (ScaleTo_never_completes_when_only_x_changes empty_scene
                   2 1 1 1 Actor_new [1000; 1000; 1000] _ _)).
  - reflexivity.
  - reflexivity.
Defined.

(** ** [MoveBy] and [MoveTo]: where they end *)

Lemma MoveBy_update_started (m : MoveBy.t) (a : Actor) (delta : Q) :
  MoveBy._started m = true -> fst (MoveBy.update m a delta) = m.
Proof.
  intro Hs. unfold MoveBy.update. rewrite Hs.
  destruct (MoveBy.isComplete m _); reflexivity.
Qed.

Lemma MoveBy_ticks_started (sc : Scene) (deltas : list Q) :
  forall (m : MoveBy.t) (a : Actor),
    MoveBy._started m = true -> fst (ticks sc deltas (m, a)) = m.
Proof.
  induction deltas as [|d ds IH]; intros m a Hs.
  - reflexivity.
  - change (ticks sc (d :: ds) (m, a)) with (ticks sc ds (tick sc d (m, a))).
    unfold tick. cbn [fst snd update MoveBy_Action].
    pose proof (MoveBy_update_started m a d Hs) as Hm.
    destruct (MoveBy.update m a d) as [m1 a1]. cbn [fst] in Hm. subst m1.
    apply IH. exact Hs.
Qed.

Lemma MoveBy_update_lands (m : MoveBy.t) (a : Actor) (delta : Q) :
  MoveBy._started m = true ->
  let u := MoveBy.update m a delta in
  MoveBy.isComplete (fst u) (snd u) = true ->
  pos (snd u) = vec (Vector.x (MoveBy._end m)) (Vector.y (MoveBy._end m))
  /\ vel (snd u) = vec 0 0.
Proof.
  intro Hs. cbv zeta. unfold MoveBy.update. rewrite Hs.
  destruct (MoveBy.isComplete m (set_vel a _)) eqn:Hc; cbn [fst snd].
  - intros _. split; reflexivity.
  - intro Hc'. rewrite Hc' in Hc. discriminate Hc.
Qed.

(** X20: a [MoveBy] ends on the position of its first update plus the
    offset.  The end point is computed once, by the first update: whatever
    the ticks since, an update that leaves the action complete has put the
    actor on the position it had at the construction's first update plus
    the offset, with no velocity. *)
Theorem MoveBy_lands_on_start_plus_offset
        (sc : Scene) (offsetX offsetY speed : Q) (m : MoveBy.t) (a : Actor)
        (deltas : list Q) (delta : Q) :
  MoveBy.new offsetX offsetY speed = Ok m ->
  let s := ticks sc deltas (m, a) in
  let u := MoveBy.update (fst s) (snd s) delta in
  MoveBy.isComplete (fst u) (snd u) = true ->
  pos (snd u)
  = vec (Vector.x (pos a) + offsetX) (Vector.y (pos a) + offsetY)
  /\ vel (snd u) = vec 0 0.
Proof.
  intro Hnew. cbv zeta.
  unfold MoveBy.new in Hnew. destruct (JS.le speed 0); [discriminate|].
  inversion Hnew as [Hm]. clear Hnew.
  set (m0 := MoveBy.mk 0 speed (vec 0 0) (vec offsetX offsetY) (vec 0 0)
               (vec 0 0) false false false) in *.
  set (start := vec (Vector.x (pos a)) (Vector.y (pos a))).
  set (m1 := MoveBy.mk (Vector.size (vec offsetX offsetY)) speed start
               (vec offsetX offsetY)
               (Vector.add start (vec offsetX offsetY))
               (Vector.normalize
                  (Vector.sub (Vector.add start (vec offsetX offsetY)) start))
               true false true).
  assert (Hfirst : forall d, MoveBy.update m0 a d = MoveBy.update m1 a d)
    by reflexivity.
  destruct deltas as [|d ds].
  - cbn [ticks fold_left fst snd]. rewrite Hfirst.
    intro Hc. apply (MoveBy_update_lands m1 a delta eq_refl Hc).
  - change (ticks sc (d :: ds) (m0, a))
      with (ticks sc ds (tick sc d (m0, a))).
    assert (Ht : fst (tick sc d (m0, a)) = m1).
    { unfold tick. cbn [fst snd update MoveBy_Action]. rewrite Hfirst.
      pose proof (MoveBy_update_started m1 a d eq_refl) as Hu.
      destruct (MoveBy.update m1 a d). exact Hu. }
    destruct (tick sc d (m0, a)) as [m' a']. cbn [fst] in Ht. subst m'.
    rewrite (MoveBy_ticks_started sc ds m1 a' eq_refl).
    intro Hc.
    apply (MoveBy_update_lands m1 (snd (ticks sc ds (m1, a'))) delta eq_refl
             Hc).
Qed.

Lemma MoveBy_lands_on_start_plus_offset_witness :
  let m := MoveBy.mk 0 10 (vec 0 0) (vec 20 0) (vec 0 0) (vec 0 0)
             false false false in
  let s := ticks empty_scene [1000; 1000] (m, Actor_new) in
  pos (snd (MoveBy.update (fst s) (snd s) 1000)) = vec (0 + 20) (0 + 0).
Proof.
  cbv zeta.
  refine (proj1 (MoveBy_lands_on_start_plus_offset empty_scene 20 0 10 _
                   Actor_new [1000; 1000] 1000 eq_refl _)).
  vm_compute. reflexivity.
Defined.

(** X21: a [MoveTo] whose destination is the position of the actor is
    complete after its first update, at any speed, zero included: the
    distance to cover is zero, and the update leaves the actor on the
    destination with no velocity. *)
Theorem MoveTo_on_the_spot_completes_at_once
        (x y speed : Q) (a : Actor) (delta : Q) :
  Vector.eqv (pos a) (vec x y) ->
  let u := MoveTo.update (MoveTo.new x y speed) a delta in
  MoveTo.isComplete (fst u) (snd u) = true
  /\ pos (snd u) = vec x y /\ vel (snd u) = vec 0 0.
Proof.
  intros [Hx Hy]. cbn [Vector.x Vector.y] in *. cbv zeta.
  unfold MoveTo.update.
  cbn [MoveTo.new MoveTo._started MoveTo._end MoveTo._speed MoveTo._dir
       MoveTo._stopped].
  set (m1 := MoveTo.mk _ _ _ _ _ _ _ _).
  set (a1 := set_vel a _).
  assert (Hd : MoveTo._distance m1 == 0).
  { unfold m1. cbn [MoveTo._distance]. apply distance_same.
    split; cbn; assumption. }
  assert (Hc : forall a', MoveTo.isComplete m1 a' = true).
  { intro a'. unfold MoveTo.isComplete.
    change (MoveTo._stopped m1) with false.
    change (MoveTo._assigned m1) with true. cbn [orb andb].
    apply ge_true. rewrite Hd. apply Math_sqrt_nonneg. }
  rewrite (Hc a1). cbn [fst snd].
  split; [apply Hc | split; reflexivity].
Qed.

Lemma MoveTo_on_the_spot_completes_at_once_witness :
  let u := MoveTo.update (MoveTo.new 0 0 0) Actor_new 16 in
  MoveTo.isComplete (fst u) (snd u) = true.
Proof.
  refine (proj1 (MoveTo_on_the_spot_completes_at_once 0 0 0 Actor_new 16 _)).
  split; reflexivity.
Defined.

(** ** [RotateTo] and [RotateBy]: the time a rotation takes *)

Lemma RotateTo_update_turning (r0 r : RotateTo.t) (a : Actor) (t delta : Q) :
  turning r0 r t ->
  let u := RotateTo.update r a delta in
  turning r0 (fst u) (t + delta) /\ turned r0 u.
Proof.
  intros (H1 & H2 & H3 & H4 & H5 & H6 & H7 & H8). cbv zeta.
  unfold RotateTo.update. rewrite H6.
  set (r2 := RotateTo.mk _ _ _ _ _ _ _ _ _ _ _ _ _).
  assert (Hcur : RotateTo._stopped r = false ->
                 RotateTo._currentNonCannonAngle r2
                 == RotateTo._start r0
                    + RotateTo._direction r0 * RotateTo._speed r0
                      * ((t + delta) / 1000)).
  { intro Hs. unfold r2. cbn [RotateTo._currentNonCannonAngle].
    rewrite (H8 Hs), H3, H4. q_div. ring. }
  destruct (RotateTo.isComplete r2) eqn:Hc.
  - cbn [fst snd]. split.
    + unfold turning. cbn. repeat (split; [assumption|]).
      intro Hf. discriminate Hf.
    + unfold turned. cbn [fst snd]. split; [reflexivity|].
      split; [intros _; split; [cbn; exact H2 | reflexivity]|].
      intro Hf. unfold RotateTo.isComplete in Hf. cbn in Hf.
      discriminate Hf.
  - cbn [fst snd].
    assert (Hs : RotateTo._stopped r = false).
    { unfold RotateTo.isComplete, r2 in Hc. cbn [RotateTo._stopped] in Hc.
      apply orb_false_iff in Hc. exact (proj1 Hc). }
    split.
    + unfold turning, r2. cbn [RotateTo._start RotateTo._end RotateTo._speed
        RotateTo._direction RotateTo._distance RotateTo._started
        RotateTo._assigned RotateTo._stopped]. repeat (split; [assumption|]).
      intros _. apply Hcur. exact Hs.
    + unfold turned. cbn [fst snd]. rewrite Hc.
      split; [exact Hs|]. split; [intro Hf; discriminate Hf|].
      intros _. cbn. rewrite H3, H4. reflexivity.
Qed.

Lemma RotateTo_ticks_with_turning (move : Actor -> Q -> Actor) (sc : Scene)
      (r0 : RotateTo.t) (deltas : list Q) :
  forall (r : RotateTo.t) (a : Actor) (t : Q),
    turning r0 r t ->
    turning r0 (fst (ticks_with move sc deltas (r, a))) (t + total deltas).
Proof.
  induction deltas as [|d ds IH]; intros r a t Hr.
  - cbn [ticks_with fold_left fst total fold_right].
    destruct Hr as (H1 & H2 & H3 & H4 & H5 & H6 & H7 & H8).
    unfold turning. repeat (split; [assumption|]).
    intro Hs. rewrite (H8 Hs). q_div. ring.
  - change (ticks_with move sc (d :: ds) (r, a))
      with (ticks_with move sc ds (tick_with move sc d (r, a))).
    unfold tick_with. cbn [fst snd update RotateTo_Action].
    destruct (RotateTo_update_turning r0 r a t d Hr) as [Hr1 _].
    destruct (RotateTo.update r a d) as [r1 a1]. cbn [fst] in Hr1.
    pose proof (IH r1 (move a1 d) (t + d) Hr1) as Hr2.
    destruct Hr2 as (H1 & H2 & H3 & H4 & H5 & H6 & H7 & H8).
    unfold turning. repeat (split; [assumption|]).
    intro Hs. rewrite (H8 Hs).
    change (total (d :: ds)) with (d + total ds). q_div. ring.
Qed.

Lemma turning_start (r : RotateTo.t) (a : Actor) :
  turning (RotateTo.start r a) (RotateTo.start r a) 0.
Proof.
  unfold turning. repeat (split; [reflexivity|]).
  intros _. unfold RotateTo.start. cbn. q_div. ring.
Qed.

(** The run of a new action is the run of the action as its first update
    starts it. *)
Lemma RotateTo_run_from_start (move : Actor -> Q -> Actor) (sc : Scene)
      (r : RotateTo.t) (a : Actor) (deltas : list Q) (delta : Q) :
  RotateTo._started r = false ->
  let s := ticks_with move sc deltas (r, a) in
  let s0 := ticks_with move sc deltas (RotateTo.start r a, a) in
  RotateTo.update (fst s) (snd s) delta
  = RotateTo.update (fst s0) (snd s0) delta.
Proof.
  intro Hr. cbv zeta. destruct deltas as [|d ds].
  - cbn [ticks_with fold_left fst snd]. apply RotateTo_update_start.
    exact Hr.
  - change (ticks_with move sc (d :: ds) ?x)
      with (ticks_with move sc ds (tick_with move sc d x)).
    unfold tick_with. cbn [fst snd update RotateTo_Action].
    rewrite (RotateTo_update_start r a d Hr). reflexivity.
Qed.

(** X22: a new [RotateTo], in any of the four modes, from any rotation of
    the actor, at any speed, and whatever the engine does to the actor
    between two updates.  After every update the action has the distance
    and the direction chosen by its first update, and it is stopped
    exactly when it is complete.  As long as it is not complete, its
    shadow angle is the rotation at the first update plus the direction
    times the speed times the time of the updates, and the angular
    velocity of the actor the direction times the speed; the update that
    completes it, and every update after, puts the actor on the end angle
    and zeroes the angular velocity. *)
Theorem RotateTo_turns_at_its_speed_until_it_lands
        (move : Actor -> Q -> Actor) (sc : Scene) (angleRadians speed : Q)
        (rotationType : option RotationType) (a : Actor) (deltas : list Q)
        (delta : Q) :
  let r := RotateTo.new angleRadians speed rotationType in
  let r0 := RotateTo.start r a in
  let s := ticks_with move sc deltas (r, a) in
  let u := RotateTo.update (fst s) (snd s) delta in
  (RotateTo._distance (fst u) = RotateTo._distance r0
   /\ RotateTo._direction (fst u) = RotateTo._direction r0)
  /\ RotateTo._stopped (fst u) = RotateTo.isComplete (fst u)
  /\ (RotateTo.isComplete (fst u) = false ->
      RotateTo._currentNonCannonAngle (fst u)
      == rotation a
         + RotateTo._direction r0 * speed * ((total deltas + delta) / 1000)
      /\ rx (snd u) = RotateTo._direction r0 * speed)
  /\ (RotateTo.isComplete (fst u) = true ->
      rotation (snd u) = angleRadians /\ rx (snd u) = 0).
Proof.
  cbv zeta.
  rewrite (RotateTo_run_from_start move sc
             (RotateTo.new angleRadians speed rotationType) a deltas delta
             eq_refl).
  set (r0 := RotateTo.start (RotateTo.new angleRadians speed rotationType) a).
  pose proof (RotateTo_ticks_with_turning move sc r0 deltas r0 a 0
                (turning_start _ a)) as Hs.
  destruct (ticks_with move sc deltas (r0, a)) as [r1 a1].
  cbn [fst snd] in *.
  destruct (RotateTo_update_turning r0 r1 a1 (0 + total deltas) delta Hs)
    as [Hu (Hst & Hland & Hturn)].
  destruct Hu as (H1 & H2 & H3 & H4 & H5 & H6 & H7 & H8).
  split; [split; assumption|]. split; [exact Hst|]. split.
  - intro Hc. split; [|exact (Hturn Hc)].
    rewrite H8 by (rewrite Hst; exact Hc).
    unfold r0, RotateTo.start. cbn [RotateTo._start RotateTo._speed
      RotateTo._direction RotateTo.new]. q_div. ring.
  - exact Hland.
Qed.

(** The theorem on a quarter turn at a quarter turn per second: under way
    after 900 ms, landed after 1000 ms. *)
Lemma RotateTo_turns_at_its_speed_until_it_lands_witness :
  let r := RotateTo.new (JS.Math_PI / 2) (JS.Math_PI / 2) None in
  let s := ticks_with integrate empty_scene [400] (r, Actor_new) in
  let u := RotateTo.update (fst s) (snd s) 500 in
  let s' := ticks_with integrate empty_scene [400; 500] (r, Actor_new) in
  let u' := RotateTo.update (fst s') (snd s') 100 in
  (RotateTo.isComplete (fst u) = false
   /\ RotateTo._currentNonCannonAngle (fst u)
      == JS.Math_PI / 2 * (9 # 10))
  /\ (RotateTo.isComplete (fst u') = true
      /\ rotation (snd u') = JS.Math_PI / 2).
Proof.
  cbv zeta. split.
  - destruct (RotateTo_turns_at_its_speed_until_it_lands integrate
                empty_scene (JS.Math_PI / 2) (JS.Math_PI / 2) None Actor_new
                [400] 500) as (_ & _ & Hturn & _).
    assert (Hc : RotateTo.isComplete
                   (fst (RotateTo.update
                           (fst (ticks_with integrate empty_scene [400]
                                   (RotateTo.new (JS.Math_PI / 2)
                                      (JS.Math_PI / 2) None, Actor_new)))
                           (snd (ticks_with integrate empty_scene [400]
                                   (RotateTo.new (JS.Math_PI / 2)
                                      (JS.Math_PI / 2) None, Actor_new)))
                           500)) = false)
      by (vm_compute; reflexivity).
    split; [exact Hc|]. rewrite (proj1 (Hturn Hc)). vm_compute. reflexivity.
  - destruct (RotateTo_turns_at_its_speed_until_it_lands integrate
                empty_scene (JS.Math_PI / 2) (JS.Math_PI / 2) None Actor_new
                [400; 500] 100) as (_ & _ & _ & Hland).
    assert (Hc : RotateTo.isComplete
                   (fst (RotateTo.update
                           (fst (ticks_with integrate empty_scene [400; 500]
                                   (RotateTo.new (JS.Math_PI / 2)
                                      (JS.Math_PI / 2) None, Actor_new)))
                           (snd (ticks_with integrate empty_scene [400; 500]
                                   (RotateTo.new (JS.Math_PI / 2)
                                      (JS.Math_PI / 2) None, Actor_new)))
                           100)) = true)
      by (vm_compute; reflexivity).
    split; [exact Hc | exact (proj1 (Hland Hc))].
Defined.

Lemma RotateBy_ticks_as_RotateTo (sc : Scene) (deltas : list Q) :
  forall b : RotateBy.t * Actor,
    RotateBy._started (fst b) = true ->
    ticks sc deltas (as_RotateTo (fst b), snd b)
    = (as_RotateTo (fst (ticks sc deltas b)), snd (ticks sc deltas b)).
Proof.
  induction deltas as [| d ds IH]; intros [b ab] Hb.
  - reflexivity.
  - cbn [fst snd] in *.
    change (ticks sc (d :: ds) (as_RotateTo b, ab))
      with (ticks sc ds (tick sc d (as_RotateTo b, ab))).
    change (ticks sc (d :: ds) (b, ab))
      with (ticks sc ds (tick sc d (b, ab))).
    assert (Htick : tick sc d (as_RotateTo b, ab)
                    = (as_RotateTo (fst (tick sc d (b, ab))),
                       snd (tick sc d (b, ab)))).
    { unfold tick. cbn [fst snd].
      unfold update, RotateTo_Action, RotateBy_Action.
      rewrite (RotateBy_update_started b ab d Hb).
      destruct (RotateBy.update b ab d). reflexivity. }
    rewrite Htick. apply IH.
    unfold tick. cbn [fst snd].
    unfold update, RotateBy_Action, RotateBy.update.
    rewrite Hb. destruct (RotateBy.isComplete _); exact Hb.
Qed.

Lemma RotateBy_ticks_with_as_RotateTo (move : Actor -> Q -> Actor)
      (sc : Scene) (deltas : list Q) :
  forall b : RotateBy.t * Actor,
    RotateBy._started (fst b) = true ->
    ticks_with move sc deltas (as_RotateTo (fst b), snd b)
    = (as_RotateTo (fst (ticks_with move sc deltas b)),
       snd (ticks_with move sc deltas b))
    /\ RotateBy._started (fst (ticks_with move sc deltas b)) = true.
Proof.
  induction deltas as [| d ds IH]; intros [b ab] Hb.
  - split; [reflexivity | exact Hb].
  - cbn [fst snd] in *.
    change (ticks_with move sc (d :: ds) (as_RotateTo b, ab))
      with (ticks_with move sc ds (tick_with move sc d (as_RotateTo b, ab))).
    change (ticks_with move sc (d :: ds) (b, ab))
      with (ticks_with move sc ds (tick_with move sc d (b, ab))).
    assert (Htick : tick_with move sc d (as_RotateTo b, ab)
                    = (as_RotateTo (fst (tick_with move sc d (b, ab))),
                       snd (tick_with move sc d (b, ab)))).
    { unfold tick_with. cbn [fst snd].
      unfold update, RotateTo_Action, RotateBy_Action.
      rewrite (RotateBy_update_started b ab d Hb).
      destruct (RotateBy.update b ab d). reflexivity. }
    rewrite Htick. apply IH.
    unfold tick_with. cbn [fst snd].
    unfold update, RotateBy_Action, RotateBy.update.
    rewrite Hb. destruct (RotateBy.isComplete _); exact Hb.
Qed.

Lemma RotateBy_update_start (r : RotateBy.t) (a : Actor) (delta : Q) :
  RotateBy._started r = false ->
  RotateBy.update r a delta = RotateBy.update (RotateBy.start r a) a delta.
Proof.
  intro Hr. unfold RotateBy.update. rewrite Hr. reflexivity.
Qed.

Lemma RotateBy_run_from_start (move : Actor -> Q -> Actor) (sc : Scene)
      (r : RotateBy.t) (a : Actor) (deltas : list Q) (delta : Q) :
  RotateBy._started r = false ->
  let s := ticks_with move sc deltas (r, a) in
  let s0 := ticks_with move sc deltas (RotateBy.start r a, a) in
  RotateBy.update (fst s) (snd s) delta
  = RotateBy.update (fst s0) (snd s0) delta.
Proof.
  intro Hr. cbv zeta. destruct deltas as [|d ds].
  - cbn [ticks_with fold_left fst snd]. apply RotateBy_update_start.
    exact Hr.
  - change (ticks_with move sc (d :: ds) ?x)
      with (ticks_with move sc ds (tick_with move sc d x)).
    unfold tick_with. cbn [fst snd update RotateBy_Action].
    rewrite (RotateBy_update_start r a d Hr). reflexivity.
Qed.

(** X23: a new [RotateBy], in any of the four modes, from any rotation of
    the actor, at any speed, and whatever the engine does to the actor
    between two updates.  After every update the action has the distance
    and the direction chosen by its first update, and it is stopped
    exactly when it is complete.  As long as it is not complete, its
    shadow angle is the rotation at the first update plus the direction
    times the speed times the time of the updates, and the angular
    velocity of the actor the direction times the speed; the update that
    completes it, and every update after, puts the actor on the rotation
    it had at the first update plus the offset and zeroes the angular
    velocity. *)
Theorem RotateBy_turns_at_its_speed_until_it_lands
        (move : Actor -> Q -> Actor) (sc : Scene)
        (angleRadiansOffset speed : Q)
        (rotationType : option RotationType) (a : Actor) (deltas : list Q)
        (delta : Q) :
  let r := RotateBy.new angleRadiansOffset speed rotationType in
  let r0 := RotateBy.start r a in
  let s := ticks_with move sc deltas (r, a) in
  let u := RotateBy.update (fst s) (snd s) delta in
  (RotateBy._distance (fst u) = RotateBy._distance r0
   /\ RotateBy._direction (fst u) = RotateBy._direction r0)
  /\ RotateBy._stopped (fst u) = RotateBy.isComplete (fst u)
  /\ (RotateBy.isComplete (fst u) = false ->
      RotateBy._currentNonCannonAngle (fst u)
      == rotation a
         + RotateBy._direction r0 * speed * ((total deltas + delta) / 1000)
      /\ rx (snd u) = RotateBy._direction r0 * speed)
  /\ (RotateBy.isComplete (fst u) = true ->
      rotation (snd u) = rotation a + angleRadiansOffset
      /\ rx (snd u) = 0).
Proof.
  cbv zeta.
  rewrite (RotateBy_run_from_start move sc
             (RotateBy.new angleRadiansOffset speed rotationType) a deltas
             delta eq_refl).
  set (r0 := RotateBy.start
               (RotateBy.new angleRadiansOffset speed rotationType) a).
  destruct (RotateBy_ticks_with_as_RotateTo move sc deltas (r0, a) eq_refl)
    as [Hsim Hstarted].
  cbn [fst snd] in Hsim, Hstarted.
  pose proof (RotateTo_ticks_with_turning move sc (as_RotateTo r0) deltas
                (as_RotateTo r0) a 0) as Hs.
  rewrite Hsim in Hs. cbn [fst] in Hs.
  assert (H0 : turning (as_RotateTo r0) (as_RotateTo r0) 0).
  { unfold turning. repeat (split; [reflexivity|]).
    intros _. unfold r0, as_RotateTo, RotateBy.start. cbn. q_div. ring. }
  specialize (Hs H0).
  destruct (ticks_with move sc deltas (r0, a)) as [b1 a1].
  cbn [fst snd] in *.
  destruct (RotateTo_update_turning (as_RotateTo r0) (as_RotateTo b1) a1
              (0 + total deltas) delta Hs) as [Hu Hturned].
  rewrite (RotateBy_update_started b1 a1 delta Hstarted) in Hu, Hturned.
  destruct (RotateBy.update b1 a1 delta) as [b2 a2].
  unfold turned in Hturned. cbn [fst snd] in *.
  destruct Hturned as (Hst & Hland & Hturn).
  change (RotateTo.isComplete (as_RotateTo b2)) with (RotateBy.isComplete b2)
    in *.
  change (RotateTo._stopped (as_RotateTo b2)) with (RotateBy._stopped b2)
    in *.
  destruct Hu as (H1 & H2 & H3 & H4 & H5 & H6 & H7 & H8).
  split; [split; [exact H5 | exact H4]|]. split; [exact Hst|]. split.
  - intro Hc. split; [|exact (Hturn Hc)].
    change (RotateTo._currentNonCannonAngle (as_RotateTo b2))
      with (RotateBy._currentNonCannonAngle b2) in H8.
    change (RotateTo._stopped (as_RotateTo b2)) with (RotateBy._stopped b2)
      in H8.
    rewrite H8 by (rewrite Hst; exact Hc).
    unfold r0, as_RotateTo, RotateBy.start.
    cbn [RotateTo._start RotateTo._speed RotateTo._direction RotateBy.new
         RotateBy._start RotateBy._speed RotateBy._direction
         RotateBy._rotationType RotateBy._offset].
    q_div. ring.
  - exact Hland.
Qed.

(** The theorem on a quarter turn back, clockwise, at a quarter turn per
    second: under way after 500 ms, and on minus a quarter turn once the
    three quarter turns the other way round are covered. *)
Lemma RotateBy_turns_at_its_speed_until_it_lands_witness :
  let r := RotateBy.new (- (JS.Math_PI / 2)) (JS.Math_PI / 2)
             (Some Clockwise) in
  let u := RotateBy.update r Actor_new 500 in
  let s' := ticks_with integrate empty_scene [500] (r, Actor_new) in
  let u' := RotateBy.update (fst s') (snd s') 500 in
  (RotateBy.isComplete (fst u) = false
   /\ rx (snd u) = 1 * (JS.Math_PI / 2))
  /\ (RotateBy.isComplete (fst u') = true
      /\ rotation (snd u') = 0 + - (JS.Math_PI / 2)).
Proof.
  cbv zeta. split.
  - destruct (RotateBy_turns_at_its_speed_until_it_lands integrate
                empty_scene (- (JS.Math_PI / 2)) (JS.Math_PI / 2)
                (Some Clockwise) Actor_new [] 500) as (_ & _ & Hturn & _).
    assert (Hc : RotateBy.isComplete
                   (fst (RotateBy.update
                           (RotateBy.new (- (JS.Math_PI / 2))
                              (JS.Math_PI / 2) (Some Clockwise))
                           Actor_new 500)) = false)
      by (vm_compute; reflexivity).
    split; [exact Hc | exact (proj2 (Hturn Hc))].
  - destruct (RotateBy_turns_at_its_speed_until_it_lands integrate
                empty_scene (- (JS.Math_PI / 2)) (JS.Math_PI / 2)
                (Some Clockwise) Actor_new [500] 500) as (_ & _ & _ & Hland).
    assert (Hc : RotateBy.isComplete
                   (fst (RotateBy.update
                           (fst (ticks_with integrate empty_scene [500]
                                   (RotateBy.new (- (JS.Math_PI / 2))
                                      (JS.Math_PI / 2) (Some Clockwise),
                                    Actor_new)))
                           (snd (ticks_with integrate empty_scene [500]
                                   (RotateBy.new (- (JS.Math_PI / 2))
                                      (JS.Math_PI / 2) (Some Clockwise),
                                    Actor_new)))
                           500)) = true)
      by (vm_compute; reflexivity).
    split; [exact Hc | exact (proj1 (Hland Hc))].
Defined.



(** X25: under [ShortestPath] and under [LongestPath], a new [RotateBy]
    and a new [RotateTo] aimed at the rotation of the actor plus the offset
    drive the actor the same way: after any run of ticks the two actors
    are the same, and one action is complete exactly when the other
    is. *)
Theorem RotateBy_is_RotateTo_under_shortest_and_longest
        (sc : Scene) (angleRadiansOffset speed : Q) (ty : RotationType)
        (a : Actor) (deltas : list Q) :
  ty = ShortestPath \/ ty = LongestPath ->
  let by_ :=
    ticks sc deltas (RotateBy.new angleRadiansOffset speed (Some ty), a) in
  let to_ :=
    ticks sc deltas
      (RotateTo.new (rotation a + angleRadiansOffset) speed (Some ty), a) in
  snd to_ = snd by_
  /\ RotateTo.isComplete (fst to_) = RotateBy.isComplete (fst by_).
Proof.
  intros Hty. cbv zeta.
  destruct deltas as [| d ds].
  - split; reflexivity.
  - destruct (RotateBy_refines_RotateTo_on_shortest_and_longest sc
                (RotateBy.new angleRadiansOffset speed (Some ty)) a (d :: ds)
                eq_refl Hty ltac:(discriminate)) as [Hfst Hsnd].
    change (RotateTo_of (RotateBy.new angleRadiansOffset speed (Some ty)) a)
      with (RotateTo.new (rotation a + angleRadiansOffset) speed (Some ty))
      in Hfst, Hsnd.
    split; [exact Hsnd|]. rewrite Hfst. reflexivity.
Qed.

Lemma RotateBy_is_RotateTo_under_shortest_and_longest_witness :
  let by_ :=
    ticks empty_scene [500; 500]
      (RotateBy.new (JS.Math_PI / 2) (JS.Math_PI / 2) (Some LongestPath),
       Actor_new) in
  let to_ :=
    ticks empty_scene [500; 500]
      (RotateTo.new (rotation Actor_new + JS.Math_PI / 2) (JS.Math_PI / 2)
         (Some LongestPath), Actor_new) in
  snd to_ = snd by_.
Proof.
  cbv zeta.
  refine (proj1 (RotateBy_is_RotateTo_under_shortest_and_longest empty_scene
                   (JS.Math_PI / 2) (JS.Math_PI / 2) LongestPath Actor_new
                   [500; 500] _)).
  right. reflexivity.
Defined.

(** ** [Meet]: the speed of the other actor *)

Lemma distance_eqv (v v' w w' : Vector) :
  Vector.eqv v v' -> Vector.eqv w w' ->
  Vector.distance v w = Vector.distance v' w'.
Proof.
  intros [Hx Hy] [Hx' Hy']. unfold Vector.distance, JS.Math_pow2.
  apply Math_sqrt_compat. rewrite Hx, Hy, Hx', Hy'. reflexivity.
Qed.

Lemma Meet_tick_apart (sc : Scene) (origin target : Vector) (delta : Q)
      (m : Meet.t) (a : Actor) :
  Vector.eqv (pos (sc (Meet._actorToMeet m))) target ->
  Vector.eqv (vel (sc (Meet._actorToMeet m))) Vector.Zero ->
  apart origin target m a ->
  let s := tick sc delta (m, a) in
  apart origin target (fst s) (snd s)
  /\ Meet._actorToMeet (fst s) = Meet._actorToMeet m
  /\ Meet.isComplete (fst s) = false.
Proof.
  intros Htarget Hstill (Hsp & Hst & Hpos & Hfar). cbv zeta.
  unfold tick. cbn [fst snd update Meet_Action]. unfold Meet.update.
  set (m1 := if Meet._started m then m else _).
  assert (Hm1 : Meet._actorToMeet m1 = Meet._actorToMeet m
                /\ Meet._speed m1 = Meet._speed m
                /\ Meet._stopped m1 = Meet._stopped m).
  { unfold m1. destruct (Meet._started m); repeat split. }
  destruct Hm1 as (E1 & E2 & E3). rewrite E1.
  set (other := sc (Meet._actorToMeet m)) in *.
  assert (Hnz : JS.nonzero
                  (JS.Math_sqrt (JS.Math_pow2 (Vector.x (vel other))
                                 + JS.Math_pow2 (Vector.y (vel other))))
                = false).
  { unfold JS.nonzero. apply negb_false_iff. apply Qeq_bool_iff.
    apply Math_sqrt_zero. destruct Hstill as [Hx Hy].
    cbn [Vector.x Vector.y Vector.Zero] in Hx, Hy.
    unfold JS.Math_pow2. rewrite Hx, Hy. ring. }
  rewrite Hnz. cbn [andb].
  set (current := vec (Vector.x (pos a)) (Vector.y (pos a))).
  set (end_ := vec (Vector.x (pos other)) (Vector.y (pos other))).
  assert (Hd : Vector.distance current end_ = Vector.distance origin target).
  { apply distance_eqv.
    - destruct Hpos as [Hx Hy]. split; cbn; assumption.
    - destruct Htarget as [Hx Hy]. split; cbn; assumption. }
  set (m2 := Meet.mk _ _ _ _ _ _ _ _ _ _).
  assert (Hc : Meet.isComplete m2 = false).
  { unfold Meet.isComplete, m2.
    cbn [Meet._stopped Meet._assigned Meet._distanceBetween].
    rewrite E3, Hst. cbn [orb].
    apply andb_false_iff. right. apply le_false. rewrite Hd. exact Hfar. }
  rewrite Hc. cbn [fst snd].
  split; [|split; [reflexivity | exact Hc]].
  unfold apart. split; [unfold m2; cbn [Meet._speed]; rewrite E2; exact Hsp|].
  split; [unfold m2; cbn [Meet._stopped]; rewrite E3; exact Hst|].
  split; [|exact Hfar].
  destruct Hpos as [Hx Hy].
  unfold integrate, Vector.eqv.
  cbn [pos vel set_vel Vector.add Vector.scale Vector.x Vector.y].
  rewrite E2, Hsp, <- Hx, <- Hy.
  split; ring.
Qed.

Lemma Meet_ticks_apart (sc : Scene) (origin target : Vector)
      (actorToMeet : ActorRef) (deltas : list Q) :
  Vector.eqv (pos (sc actorToMeet)) target ->
  Vector.eqv (vel (sc actorToMeet)) Vector.Zero ->
  forall (m : Meet.t) (a : Actor),
    apart origin target m a ->
    Meet._actorToMeet m = actorToMeet ->
    Meet.isComplete m = false ->
    let s := ticks sc deltas (m, a) in
    Meet.isComplete (fst s) = false /\ Vector.eqv (pos (snd s)) origin.
Proof.
  intros Htarget Hstill.
  induction deltas as [|d ds IH]; intros m a Ha Hr Hc; cbv zeta.
  - cbn. split; [exact Hc | apply Ha].
  - change (ticks sc (d :: ds) (m, a)) with (ticks sc ds (tick sc d (m, a))).
    destruct (Meet_tick_apart sc origin target d m a)
      as (Ha' & Hr' & Hc').
    + rewrite Hr. exact Htarget.
    + rewrite Hr. exact Hstill.
    + exact Ha.
    + destruct (tick sc d (m, a)) as [m' a']. cbn [fst snd] in *.
      apply IH; [exact Ha' | congruence | exact Hc'].
Qed.

(** X26: a [Meet] takes its speed from the actor to meet, unless a speed
    other than zero was given.  Built without a speed, or with the speed
    zero, and aimed at an actor that stands still more than [1] away, it
    gives the actor no velocity: the actor stays where it is, and the
    action never completes. *)
Theorem Meet_without_speed_never_reaches_a_still_actor
        (sc : Scene) (a : Actor) (actorToMeet : ActorRef) (speed : option Q)
        (deltas : list Q) :
  match speed with Some s => s == 0 | None => True end ->
  Vector.eqv (vel (sc actorToMeet)) Vector.Zero ->
  1 < Vector.distance (pos a) (pos (sc actorToMeet)) ->
  let s := ticks sc deltas (Meet.new sc a actorToMeet speed, a) in
  Meet.isComplete (fst s) = false
  /\ Vector.eqv (pos (snd s)) (pos a).
Proof.
  intros Hspeed Hstill Hfar. cbv zeta.
  apply (Meet_ticks_apart sc (pos a) (pos (sc actorToMeet)) actorToMeet
           deltas).
  - split; reflexivity.
  - exact Hstill.
  - unfold apart, Meet.new. cbn [Meet._speed Meet._stopped].
    split.
    + destruct speed as [s|]; [|reflexivity].
      unfold JS.nonzero. rewrite (proj2 (Qeq_bool_iff s 0) Hspeed).
      reflexivity.
    + split; [reflexivity|]. split; [split; reflexivity | exact Hfar].
  - reflexivity.
  - reflexivity.
Qed.

Lemma Meet_without_speed_never_reaches_a_still_actor_witness :
  let sc : Scene := fun _ => set_pos Actor_new (vec 100 0) in
  let s := ticks sc [1000; 1000; 1000] (Meet.new sc Actor_new 0%nat None,
                                        Actor_new) in
  Meet.isComplete (fst s) = false.
Proof.
  cbv zeta.
  refine (proj1 (Meet_without_speed_never_reaches_a_still_actor
                   (fun _ => set_pos Actor_new (vec 100 0)) Actor_new 0%nat
                   None [1000; 1000; 1000] I _ _)).
  - split; reflexivity.
  - vm_compute. reflexivity.
Defined.

(** ** [ScaleBy]: the way a scaling takes *)

(** An actor on the end scale is complete. *)
Lemma ScaleBy_isComplete_landed (s : ScaleBy.t) (a : Actor) :
  well_started s ->
  Vector.eqv (scale a) (ScaleBy._endScale s) ->
  ScaleBy.isComplete s a = true.
Proof.
  intros (Hsd & Has & Hst & HdX & HdY) [Hx Hy].
  unfold ScaleBy.isComplete. rewrite Hst, Has. cbn [orb andb].
  unfold JS.Math_abs.
  apply andb_true_iff. split; apply ge_true.
  - rewrite Hx, HdX. lra.
  - rewrite Hy, HdY. lra.
Qed.

Lemma ScaleBy_tick_scaling (sc : Scene) (s : ScaleBy.t) (t delta : Q)
      (a : Actor) :
  well_started s ->
  scaling s t a ->
  let u := tick sc delta (s, a) in
  fst u = s /\ scaling s (t + delta) (snd u).
Proof.
  intros Hw Hs. cbv zeta.
  pose proof Hw as (Hsd & Has & Hst & HdX & HdY).
  unfold tick. cbn [fst snd update ScaleBy_Action]. unfold ScaleBy.update.
  rewrite Hsd.
  set (a2 := set_sy (set_sx a _) _).
  assert (Hsame : ScaleBy.isComplete s a2 = ScaleBy.isComplete s a)
    by reflexivity.
  rewrite Hsame.
  destruct (ScaleBy.isComplete s a) eqn:Hc; cbn [fst snd].
  - split; [reflexivity|]. right. unfold integrate, Vector.eqv. cbn.
    split; field.
  - split; [reflexivity|].
    destruct Hs as [[Hx Hy] | Hland].
    + left. unfold integrate, a2. cbn. rewrite Hx, Hy. split; field.
    + rewrite (ScaleBy_isComplete_landed s a Hw Hland) in Hc.
      discriminate Hc.
Qed.

Lemma ScaleBy_ticks_scaling (sc : Scene) (s : ScaleBy.t) (deltas : list Q) :
  well_started s ->
  forall (t : Q) (a : Actor),
    scaling s t a ->
    let u := ticks sc deltas (s, a) in
    fst u = s /\ scaling s (t + total deltas) (snd u).
Proof.
  intro Hw. induction deltas as [|d ds IH]; intros t a Hs; cbv zeta.
  - cbn [ticks fold_left fst snd total fold_right]. split; [reflexivity|].
    destruct Hs as [[Hx Hy] | Hland]; [left | right; exact Hland].
    rewrite Hx, Hy. split; field.
  - change (ticks sc (d :: ds) (s, a)) with (ticks sc ds (tick sc d (s, a))).
    destruct (ScaleBy_tick_scaling sc s t d a Hw Hs) as [Hf Hs1].
    destruct (tick sc d (s, a)) as [s1 a1]. cbn [fst snd] in *. subst s1.
    destruct (IH (t + d) a1 Hs1) as [Hf2 Hs2]. split; [exact Hf2|].
    change (total (d :: ds)) with (d + total ds).
    destruct Hs2 as [[Hx Hy] | Hland]; [left | right; exact Hland].
    rewrite Hx, Hy. split; field.
Qed.

(** X27: a new [ScaleBy] that has been ticked at least once, at any
    speed and with any deltas, drives both axes at its one speed, each in
    the direction of its offset: as long as it is not complete, the scale
    of the actor is the scale at the first update plus, on either axis,
    the direction times the speed times the time ticked.  Once it is
    complete, the update that follows puts the scale on the scale of the
    first update plus the offset and zeroes the scale velocities, and the
    action stays complete. *)
Theorem ScaleBy_scales_at_its_speed_until_it_lands
        (sc : Scene) (scaleOffsetX scaleOffsetY speed : Q) (a : Actor)
        (deltas : list Q) (delta : Q) :
  deltas <> [] ->
  let s := ticks sc deltas (ScaleBy.new scaleOffsetX scaleOffsetY speed, a) in
  let endScale := vec (Vector.x (scale a) + scaleOffsetX)
                      (Vector.y (scale a) + scaleOffsetY) in
  let directionX :=
    if JS.lt (Vector.x endScale) (Vector.x (scale a)) then -1 else 1 in
  let directionY :=
    if JS.lt (Vector.y endScale) (Vector.y (scale a)) then -1 else 1 in
  (ScaleBy.isComplete (fst s) (snd s) = false ->
   Vector.x (scale (snd s))
   == Vector.x (scale a) + speed * directionX * (total deltas / 1000)
   /\ Vector.y (scale (snd s))
      == Vector.y (scale a) + speed * directionY * (total deltas / 1000))
  /\ (ScaleBy.isComplete (fst s) (snd s) = true ->
      let u := ScaleBy.update (fst s) (snd s) delta in
      scale (snd u) = endScale /\ sx (snd u) = 0 /\ sy (snd u) = 0
      /\ ScaleBy.isComplete (fst u) (snd u) = true).
Proof.
  intros Hne. cbv zeta.
  set (startScale := Vector.clone (scale a)).
  set (endScale := Vector.add startScale (vec scaleOffsetX scaleOffsetY)).
  set (s1 := ScaleBy.mk startScale endScale (vec scaleOffsetX scaleOffsetY)
               (JS.Math_abs (Vector.x endScale - Vector.x startScale))
               (JS.Math_abs (Vector.y endScale - Vector.y startScale))
               (if JS.lt (Vector.x endScale) (Vector.x startScale)
                then -1 else 1)
               (if JS.lt (Vector.y endScale) (Vector.y startScale)
                then -1 else 1)
               true false speed speed true).
  assert (Hsame : ticks sc deltas
                    (ScaleBy.new scaleOffsetX scaleOffsetY speed, a)
                  = ticks sc deltas (s1, a)).
  { destruct deltas as [|d ds]; [congruence|].
    change (ticks sc (d :: ds) ?st) with (ticks sc ds (tick sc d st)).
    f_equal. }
  rewrite Hsame.
  assert (Hw : well_started s1).
  { unfold well_started, s1.
    cbn [ScaleBy._started ScaleBy._assigned ScaleBy._stopped
         ScaleBy._distanceX ScaleBy._distanceY ScaleBy._endScale
         ScaleBy._startScale].
    repeat (split; [reflexivity|]). split; reflexivity. }
  assert (H0 : scaling s1 0 a).
  { left. unfold s1.
    cbn [ScaleBy._startScale ScaleBy._speedX ScaleBy._speedY
         ScaleBy._directionX ScaleBy._directionY].
    unfold startScale, Vector.clone. cbn [Vector.x Vector.y].
    split; field. }
  destruct (ScaleBy_ticks_scaling sc s1 deltas Hw 0 a H0) as [Hf Hs].
  destruct (ticks sc deltas (s1, a)) as [s' a']. cbn [fst snd] in *.
  subst s'. split.
  - intro Hc. destruct Hs as [[Hx Hy] | Hland].
    + rewrite Hx, Hy. unfold s1.
      cbn [ScaleBy._startScale ScaleBy._speedX ScaleBy._speedY
           ScaleBy._directionX ScaleBy._directionY].
      unfold endScale, startScale, Vector.add, Vector.clone.
      cbn [Vector.x Vector.y]. split; field.
    + rewrite (ScaleBy_isComplete_landed s1 a' Hw Hland) in Hc.
      discriminate Hc.
  - intros Hcomplete.
    unfold ScaleBy.update.
    change (ScaleBy._started s1) with true. cbv iota.
    set (a2 := set_sy (set_sx a' _) _).
    assert (Hc2 : ScaleBy.isComplete s1 a2 = true) by exact Hcomplete.
    rewrite Hc2. cbn [fst snd]. repeat split.
    apply ScaleBy_isComplete_landed; [exact Hw|].
    split; reflexivity.
Qed.

(** The theorem on a [ScaleBy] of [(4, -2)] at speed [1] from the scale
    [(1, 1)]: on [(3, -1)] after two seconds, and complete after four,
    when the next update puts the scale on [(5, -1)]. *)
Lemma ScaleBy_scales_at_its_speed_until_it_lands_witness :
  let s := ticks empty_scene [1000; 1000]
             (ScaleBy.new 4 (-2) 1, Actor_new) in
  let s' := ticks empty_scene [1000; 1000; 1000; 1000]
              (ScaleBy.new 4 (-2) 1, Actor_new) in
  (ScaleBy.isComplete (fst s) (snd s) = false
   /\ Vector.eqv (scale (snd s)) (vec 3 (-1)))
  /\ (ScaleBy.isComplete (fst s') (snd s') = true
      /\ scale (snd (ScaleBy.update (fst s') (snd s') 16))
         = vec (1 + 4) (1 + -2)).
Proof.
  cbv zeta. split.
  - destruct (ScaleBy_scales_at_its_speed_until_it_lands empty_scene
                4 (-2) 1 Actor_new [1000; 1000] 16) as [Hfly _].
    + discriminate.
    + assert (Hc : ScaleBy.isComplete
                     (fst (ticks empty_scene [1000; 1000]
                             (ScaleBy.new 4 (-2) 1, Actor_new)))
                     (snd (ticks empty_scene [1000; 1000]
                             (ScaleBy.new 4 (-2) 1, Actor_new))) = false)
        by (vm_compute; reflexivity).
      split; [exact Hc|]. destruct (Hfly Hc) as [Hx Hy].
      split; [rewrite Hx | rewrite Hy]; vm_compute; reflexivity.
  - destruct (ScaleBy_scales_at_its_speed_until_it_lands empty_scene
                4 (-2) 1 Actor_new [1000; 1000; 1000; 1000] 16)
      as [_ Hland].
    + discriminate.
    + assert (Hc : ScaleBy.isComplete
                     (fst (ticks empty_scene [1000; 1000; 1000; 1000]
                             (ScaleBy.new 4 (-2) 1, Actor_new)))
                     (snd (ticks empty_scene [1000; 1000; 1000; 1000]
                             (ScaleBy.new 4 (-2) 1, Actor_new))) = true)
        by (vm_compute; reflexivity).
      split; [exact Hc | exact (proj1 (Hland Hc))].
Defined.
